(** * Numerical-validity helpers of cleanlab: a shallow embedding

    The development follows [cleanlab/internal/util.py],
    [cleanlab/internal/token_classification_utils.py] and
    [cleanlab/token_classification/summary.py].

    Number model.  A float64 array is read in one of two ways.

    Exact reading.  In the functions that clip, renormalize and count, and
    in [merge_probs] where the statement is about shapes, errors and which
    entries are divided, a float64 that holds a finite value is modelled by
    the exact rational it denotes ([Q], compared with [==]); arithmetic on
    finite values is exact, so rounding error, overflow and signed zeros are
    idealised away.  The only place where the source can leave the finite
    values is a division, and NumPy's division never raises: [x / 0] is
    [+inf], [-inf] or [nan].  The quotient of two arrays is therefore a
    [float], a finite rational or one of the three special values.

    float64 reading.  [round_preserving_sum], whose loop compares sums of
    floats and casts to int64, and [merge_probs] where the statement is
    about sums being kept, are modelled on float64 itself (modules [f64],
    [np64], the float64 part of [util], and
    [token_classification_utils_f64]).  A finite value is still the rational
    it denotes, but every addition, subtraction and division rounds its
    exact result to the nearest float64, ties to the even significand, and
    overflows to an infinity; [np.sum] adds in the order of NumPy's pairwise
    summation; [astype(int)] is the cast to int64.  The sign of a zero is
    not modelled. *)

From Stdlib Require Import List ZArith QArith Qround Qabs Qminmax Bool Arith.
From Stdlib Require Import Lia Lqa Sorted Permutation Qpower.
From Stdlib Require String Ascii.
Import ListNotations.

Local Open Scope Q_scope.

(** ** Exceptions and results *)

(** The Python exceptions that the modelled code can raise. *)
Inductive exn : Set :=
| AssertionError
| IndexError
| KeyError
| OverflowError
| ValueError.

Inductive result (A : Type) : Type :=
| Ok (a : A)
| Raise (e : exn).

Arguments Ok {A} a.
Arguments Raise {A} e.

Definition bind {A B : Type} (r : result A) (k : A -> result B) : result B :=
  match r with
  | Ok a => k a
  | Raise e => Raise e
  end.

Notation "x <- r ;; k" := (bind r (fun x => k))
  (at level 61, r at next level, right associativity).

Definition is_ok {A : Type} (r : result A) : bool :=
  match r with Ok _ => true | Raise _ => false end.

(** ** IEEE values produced by a division *)

Inductive float : Set :=
| Fin (q : Q)
| PInf
| NInf
| NaN.

Definition is_finite (x : float) : bool :=
  match x with Fin _ => true | _ => false end.

Definition Qlt_bool (a b : Q) : bool := negb (Qle_bool b a).

(** NumPy's true division of finite operands (default error state: a
    warning, never an exception). *)
Definition np_divide (n d : Q) : float :=
  if Qeq_bool d 0 then
    if Qeq_bool n 0 then NaN
    else if Qlt_bool 0 n then PInf else NInf
  else Fin (n / d).

(** ** NumPy primitives *)

Module np.

(** [np.sum] over a one-dimensional array. *)
Definition sum (l : list Q) : Q := fold_right Qplus 0 l.

(** Round half to even, the rule of [ndarray.round] and [np.round]. *)
Definition rint (q : Q) : Z :=
  let f := Qfloor q in
  match Qcompare (q - inject_Z f) (1 # 2) with
  | Lt => f
  | Gt => (f + 1)%Z
  | Eq => if Z.even f then f else (f + 1)%Z
  end.

(** [round] keeps the float type: the result is an integer-valued float. *)
Definition round (q : Q) : Q := inject_Z (rint q).

(** [a[i] = a[i] + d] for an index inside the array; an index outside
    leaves the array as it is (the source only uses indices returned by
    [argsort]). *)
Fixpoint add_at (i : nat) (d : Q) (a : list Q) : list Q :=
  match a, i with
  | [], _ => []
  | x :: t, O => (x + d) :: t
  | x :: t, S j => x :: add_at j d t
  end.

(** [a[i] = v], same convention. *)
Fixpoint set_at {A : Type} (i : nat) (v : A) (a : list A) : list A :=
  match a, i with
  | [], _ => []
  | _ :: t, O => v :: t
  | x :: t, S j => x :: set_at j v t
  end.

(** Column [j] of a two-dimensional array stored as a list of rows. *)
Definition column (m : list (list Q)) (j : nat) : list Q :=
  map (fun r => nth j r 0) m.

(** [np.vectorize(f)(a)] without [otypes]: NumPy calls [f] on the first
    element to find the output type and rejects arrays of size 0. *)
Definition vectorize1 (f : Q -> Q) (a : list Q) : result (list Q) :=
  match a with
  | [] => Raise ValueError
  | _ => Ok (map f a)
  end.

Definition vectorize2 (f : Q -> Q) (m : list (list Q))
  : result (list (list Q)) :=
  if forallb (fun r => Nat.eqb (length r) 0) m then Raise ValueError
  else Ok (map (map f) m).

End np.

(** ** float64 arithmetic *)

Module f64.

(** The binary exponent of a positive rational: the [e] with
    [2^e <= x < 2^(e+1)]. *)
Definition ilog2 (x : Q) : Z :=
  let e0 := (Z.log2 (Qnum x) - Z.log2 (Zpos (Qden x)))%Z in
  if Qle_bool (2 ^ e0) x then e0 else (e0 - 1)%Z.

(** The spacing of the float64 values around [x]: 52 fraction bits, and the
    fixed spacing [2^-1074] of the subnormal range. *)
Definition ulp (x : Q) : Q := 2 ^ (Z.max (ilog2 (Qabs x)) (-1022) - 52).

(** Rounding to the nearest float64 value, ties to the even significand,
    before the overflow test. *)
Definition nearest (x : Q) : Q :=
  let x := Qred x in
  if Qeq_bool x 0 then 0
  else Qred (inject_Z (np.rint (x / ulp x)) * ulp x).

(** The float64 result of an operation whose exact result is [x]. *)
Definition rnd (x : Q) : float :=
  let r := nearest x in
  if Qle_bool (2 ^ 1024) (Qabs r) then
    if Qlt_bool r 0 then NInf else PInf
  else Fin r.

Definition opp (a : float) : float :=
  match a with
  | Fin x => Fin (- x)
  | PInf => NInf
  | NInf => PInf
  | NaN => NaN
  end.

Definition add (a b : float) : float :=
  match a, b with
  | Fin x, Fin y => rnd (x + y)
  | NaN, _ | _, NaN => NaN
  | PInf, NInf | NInf, PInf => NaN
  | PInf, _ | _, PInf => PInf
  | NInf, _ | _, NInf => NInf
  end.

Definition sub (a b : float) : float := add a (opp b).

Definition abs (a : float) : float :=
  match a with
  | Fin x => Fin (Qabs x)
  | PInf | NInf => PInf
  | NaN => NaN
  end.

(** [a < b]: false as soon as one side is nan. *)
Definition ltb (a b : float) : bool :=
  match a, b with
  | NaN, _ | _, NaN => false
  | Fin x, Fin y => Qlt_bool x y
  | NInf, NInf => false
  | NInf, _ => true
  | _, NInf => false
  | PInf, _ => false
  | Fin _, PInf => true
  end.

(** Division; the sign of a zero divisor is not modelled, it counts as
    [+0]. *)
Definition div (a b : float) : float :=
  match a, b with
  | NaN, _ | _, NaN => NaN
  | Fin x, Fin y =>
      if Qeq_bool y 0 then
        if Qeq_bool x 0 then NaN
        else if Qlt_bool 0 x then PInf else NInf
      else rnd (x / y)
  | Fin _, _ => Fin 0
  | PInf, Fin y => if Qlt_bool y 0 then NInf else PInf
  | NInf, Fin y => if Qlt_bool y 0 then PInf else NInf
  | _, _ => NaN
  end.

(** The order that sorting uses: nan after everything else. *)
Definition leb (a b : float) : bool :=
  match a, b with
  | _, NaN => true
  | NaN, _ => false
  | NInf, _ => true
  | _, NInf => false
  | _, PInf => true
  | PInf, _ => false
  | Fin x, Fin y => Qle_bool x y
  end.

(** Truncation toward zero. *)
Definition trunc (q : Q) : Z := if Qlt_bool q 0 then Qceiling q else Qfloor q.

(** Python's [int(x)] on a float: exact, and an error on inf and nan. *)
Definition to_int (a : float) : result Z :=
  match a with
  | Fin q => Ok (trunc q)
  | PInf | NInf => Raise OverflowError
  | NaN => Raise ValueError
  end.

(** The double written [1e-6]. *)
Definition tolerance : Q := nearest (1 # 1000000).

End f64.

(** ** NumPy on float64 arrays *)

Module np64.

(** [r[j] += a[i + j]] for the eight accumulators. *)
Fixpoint zip_add (r b : list float) : list float :=
  match r, b with
  | x :: r', y :: b' => f64.add x y :: zip_add r' b'
  | _, _ => []
  end.

(** The unrolled loop of the pairwise summation: [blocks] blocks of eight
    entries are added to the accumulators; what is left of the array is
    returned with them. *)
Fixpoint accumulate (blocks : nat) (r a : list float)
  : list float * list float :=
  match blocks with
  | O => (r, a)
  | S k => accumulate k (zip_add r (firstn 8 a)) (skipn 8 a)
  end.

(** Between 8 and 128 entries: eight accumulators, combined in a fixed
    tree, then the entries that do not fill a block. *)
Definition unrolled_sum (a : list float) : float :=
  let (r, rest) := accumulate (length a / 8 - 1) (firstn 8 a) (skipn 8 a) in
  match r with
  | [r0; r1; r2; r3; r4; r5; r6; r7] =>
      fold_left f64.add rest
        (f64.add (f64.add (f64.add r0 r1) (f64.add r2 r3))
                 (f64.add (f64.add r4 r5) (f64.add r6 r7)))
  | _ => NaN
  end.

(** NumPy's pairwise summation of a contiguous float64 array.  Fewer than 8
    entries are added from left to right, starting from 0; more than 128
    are split in two halves, the first a multiple of 8 long.  [fuel] bounds
    the depth of the splitting. *)
Fixpoint pairwise_sum (fuel : nat) (a : list float) : float :=
  let n := length a in
  if (n <? 8)%nat then fold_left f64.add a (Fin 0)
  else if (n <=? 128)%nat then unrolled_sum a
  else
    match fuel with
    | O => NaN
    | S fuel' =>
        let n2 := (n / 2 - (n / 2) mod 8)%nat in
        f64.add (pairwise_sum fuel' (firstn n2 a))
                (pairwise_sum fuel' (skipn n2 a))
    end.

(** [np.sum] over a one-dimensional float64 array. *)
Definition sum (a : list float) : float := pairwise_sum (length a) a.

(** [round] with no decimals: the nearest integer, ties to even, as a
    float; inf and nan are kept. *)
Definition round (a : float) : float :=
  match a with
  | Fin q => Fin (inject_Z (np.rint q))
  | _ => a
  end.

(** [a - b] on two arrays of one length. *)
Fixpoint subtract (a b : list float) : list float :=
  match a, b with
  | x :: a', y :: b' => f64.sub x y :: subtract a' b'
  | _, _ => []
  end.

(** [a[i] = a[i] + d] for an index inside the array; an index outside
    leaves the array as it is (the source only uses indices returned by
    [argsort]). *)
Fixpoint add_at (i : nat) (d : float) (a : list float) : list float :=
  match a, i with
  | [], _ => []
  | x :: t, O => f64.add x d :: t
  | x :: t, S j => x :: add_at j d t
  end.

(** [astype(int)]: the cast of a float64 to int64.  A value outside the
    range of int64, inf and nan have no defined result in C; x86-64 returns
    [-2^63] for all of them, and so does this model. *)
Definition astype_int (x : float) : Z :=
  match x with
  | Fin q =>
      let t := f64.trunc q in
      if ((- 2 ^ 63 <=? t) && (t <? 2 ^ 63))%Z then t else (- 2 ^ 63)%Z
  | _ => (- 2 ^ 63)%Z
  end.

(** Insertion of a keyed index before the first entry whose key is not
    smaller. *)
Fixpoint insert_key (p : float * nat) (l : list (float * nat))
  : list (float * nat) :=
  match l with
  | [] => [p]
  | p' :: t =>
      if f64.leb (fst p) (fst p') then p :: l else p' :: insert_key p t
  end.

Definition sort_keys (l : list (float * nat)) : list (float * nat) :=
  fold_right insert_key [] l.

(** One [argsort]: the indices in ascending order of key, equal keys in
    index order.  NumPy's default sort is not stable, and the order in
    which it returns equal keys depends on its version and on the
    processor; the functions below take the sorting function as a
    parameter, and this one serves to run them. *)
Definition argsort (keys : list float) : list nat :=
  map snd (sort_keys (combine keys (seq 0 (length keys)))).

End np64.

(** ** cleanlab/internal/util.py *)

Module util.

(** *** round_preserving_sum and round_preserving_row_totals, on float64 *)

Section round_preserving_sum.

(** [np.argsort] with the default [kind]: any function that returns the
    indices in ascending order of key. *)
Variable argsort : list float -> list nat.

(** One pass of the body of the [while] loop, up to the update of
    [ints]. *)
Definition correction (floats ints : list float) (orig_sum int_sum : float)
  : result (list float) :=
  let diff := np64.round (f64.sub orig_sum int_sum) in
  let increment := if f64.ltb diff (Fin 0) then (-1)%Z else 1%Z in
  c <- f64.to_int (f64.abs diff) ;;
  let changes := Z.to_nat (Z.min c (Z.of_nat (length floats))) in
  let order := argsort (np64.subtract floats ints) in
  let indices :=
    firstn changes (if (increment =? 1)%Z then rev order else order) in
  Ok (fold_left (fun a i => np64.add_at i (Fin (inject_Z increment)) a)
                indices ints).

(** The [while] loop.  [fuel] bounds the number of passes: [None] says that
    the loop was still running when the fuel ran out.  The second component
    of a result counts the passes that were made. *)
Fixpoint correction_loop (fuel : nat) (floats ints : list float)
    (orig_sum int_sum : float) : option (result (list float * nat)) :=
  if f64.ltb (Fin f64.tolerance) (f64.abs (f64.sub int_sum orig_sum)) then
    match fuel with
    | O => None
    | S fuel' =>
        match correction floats ints orig_sum int_sum with
        | Raise e => Some (Raise e)
        | Ok ints' =>
            let int_sum' := np64.round (np64.sum ints') in
            match correction_loop fuel' floats ints' orig_sum int_sum' with
            | Some (Ok (r, k)) => Some (Ok (r, S k))
            | other => other
            end
        end
    end
  else Some (Ok (ints, O)).

Definition round_preserving_sum_passes (fuel : nat) (iterable : list float)
  : option (result (list Z * nat)) :=
  let floats := iterable in
  let ints := map np64.round floats in
  let orig_sum := np64.round (np64.sum floats) in
  let int_sum := np64.round (np64.sum ints) in
  match correction_loop fuel floats ints orig_sum int_sum with
  | Some (Ok (r, k)) => Some (Ok (map np64.astype_int r, k))
  | Some (Raise e) => Some (Raise e)
  | None => None
  end.

Definition round_preserving_sum (fuel : nat) (iterable : list float)
  : option (result (list Z)) :=
  match round_preserving_sum_passes fuel iterable with
  | Some (Ok (r, _)) => Some (Ok r)
  | Some (Raise e) => Some (Raise e)
  | None => None
  end.

(** [func1d] applied to every row, in row order. *)
Fixpoint along_rows (func1d : list float -> option (result (list Z)))
    (arr : list (list float)) : option (result (list (list Z))) :=
  match arr with
  | [] => Some (Ok [])
  | r :: rest =>
      match func1d r with
      | None => None
      | Some (Raise e) => Some (Raise e)
      | Some (Ok r') =>
          match along_rows func1d rest with
          | Some (Ok rest') => Some (Ok (r' :: rest'))
          | other => other
          end
      end
  end.

(** [np.apply_along_axis(func1d, axis=1, arr)] refuses an array without
    rows ("Cannot apply_along_axis when any iteration dimensions are 0");
    the final [astype(int)] is the identity on the integer rows. *)
Definition round_preserving_row_totals (fuel : nat)
    (confident_joint : list (list float))
  : option (result (list (list Z))) :=
  match confident_joint with
  | [] => Some (Raise ValueError)
  | _ => along_rows (round_preserving_sum fuel) confident_joint
  end.

End round_preserving_sum.

(** *** remove_noise_from_class *)

Definition cell (x : list (list Q)) (i j : nat) : Q := nth j (nth i x []) 0.

Definition set_cell (i j : nat) (v : Q) (x : list (list Q))
  : list (list Q) :=
  np.set_at i (np.set_at j v (nth i x [])) x.

(** Python's index rule on an axis of size [K]: a negative index counts
    from the end. *)
Definition resolve_index (K : nat) (i : Z) : result nat :=
  if ((0 <=? i) && (i <? Z.of_nat K))%Z then Ok (Z.to_nat i)
  else if ((- Z.of_nat K <=? i) && (i <? 0))%Z then
    Ok (Z.to_nat (Z.of_nat K + i))
  else Raise IndexError.

(** The array is two-dimensional with at least [K] columns (the docstring
    asks for shape (K, K)). *)
Definition remove_noise_from_class (noise_matrix : list (list Q))
    (class_without_noise : Z) : result (list (list Q)) :=
  let K := length noise_matrix in
  let cwn := class_without_noise in
  let x := noise_matrix in
  r <- resolve_index K cwn ;;
  let others :=
    filter (fun i => negb (Z.of_nat i =? cwn)%Z) (seq 0 K) in
  let x := fold_left (fun x i => set_cell r i 0 x) others x in
  Ok (fold_left
        (fun x i =>
           set_cell i i (1 - (np.sum (np.column x i) - cell x i i)) x)
        (seq 0 K) x).

(** *** clip_noise_rates *)

Definition clip_noise_rate_range (noise_rate : Q) : Q :=
  Qmin (Qmax noise_rate 0) (9999 # 10000).

(** [f i x] for every element [x] of [l] at index [i]. *)
Definition imap {A B : Type} (f : nat -> A -> B) (l : list A) : list B :=
  map (fun p => f (fst p) (snd p)) (combine (seq 0 (length l)) l).

(** [np.diagonal]. *)
Definition diagonal (m : list (list Q)) : list Q :=
  imap (fun i r => nth i r 0)
       (firstn (length (hd [] m)) m).

(** [np.fill_diagonal(a, val)] with [val] as long as the diagonal. *)
Definition fill_diagonal (a : list (list Q)) (val : list Q)
  : list (list Q) :=
  imap (fun i r => if i <? length val then np.set_at i (nth i val 0) r
                   else r) a.

(** [a.sum(axis=0)]: one sum per column. *)
Definition sum_axis0 (a : list (list Q)) : list Q :=
  map (fun j => np.sum (np.column a j)) (seq 0 (length (hd [] a))).

(** [a / s] with [s] broadcast along the rows. *)
Definition divide_columns (a : list (list Q)) (s : list Q)
  : list (list float) :=
  map (fun r => imap (fun j v => np_divide v (nth j s 0)) r) a.

Definition clip_noise_rates (noise_matrix : list (list Q))
  : result (list (list float)) :=
  let diag := diagonal noise_matrix in
  clipped <- np.vectorize2 clip_noise_rate_range noise_matrix ;;
  let filled := fill_diagonal clipped diag in
  Ok (divide_columns filled (sum_axis0 filled)).

(** *** clip_values *)

(** Python's builtin [sum]. *)
Definition py_sum (l : list Q) : Q := fold_left Qplus l 0.

Definition clip_range (low high a : Q) : Q := Qmin (Qmax a low) high.

Definition clip_values (x : list Q) (low high : Q) (new_sum : option Q)
  : result (list float) :=
  let prev_sum := match new_sum with None => py_sum x | Some s => s end in
  x <- np.vectorize1 (clip_range low high) x ;;
  Ok (map (fun v => np_divide (v * prev_sum) (py_sum x)) x).

(** *** confusion_matrix *)

Fixpoint insert_unique (v : Z) (l : list Z) : list Z :=
  match l with
  | [] => [v]
  | w :: t =>
      if (v <? w)%Z then v :: l
      else if (v =? w)%Z then l
      else w :: insert_unique v t
  end.

(** [np.unique]: the distinct values, ascending. *)
Definition unique (l : list Z) : list Z := fold_right insert_unique [] l.

(** Lookup in [dict(zip(keys, range(K)))]. *)
Fixpoint dict_get (d : list (Z * nat)) (k : Z) : result nat :=
  match d with
  | [] => Raise KeyError
  | (k', v) :: t => if (k =? k')%Z then Ok v else dict_get t k
  end.

(** [result[a][b] += 1]. *)
Fixpoint incr_at (i : nat) (a : list nat) : list nat :=
  match a, i with
  | [], _ => []
  | x :: t, O => S x :: t
  | x :: t, S j => x :: incr_at j t
  end.

Definition incr_cell (a b : nat) (m : list (list nat)) : list (list nat) :=
  np.set_at a (incr_at b (nth a m [])) m.

(** The counting loop; it visits the pairs [(true[i], pred[i])] for [i]
    in [range(len(true))]. *)
Fixpoint tabulate (map_true map_pred : list (Z * nat))
    (pairs : list (Z * Z)) (acc : list (list nat))
  : result (list (list nat)) :=
  match pairs with
  | [] => Ok acc
  | (t, p) :: rest =>
      a <- dict_get map_true t ;;
      b <- dict_get map_pred p ;;
      tabulate map_true map_pred rest (incr_cell a b acc)
  end.

(** The cells are float64 counts; they are modelled by [nat]. *)
Definition confusion_matrix (true pred : list Z)
  : result (list (list nat)) :=
  if negb (length true =? length pred)%nat then Raise AssertionError
  else
    let true_classes := unique true in
    let pred_classes := unique pred in
    let K_true := length true_classes in
    let K_pred := length pred_classes in
    let map_true := combine true_classes (seq 0 K_true) in
    let map_pred := combine pred_classes (seq 0 K_pred) in
    let result := repeat (repeat O K_pred) K_true in
    tabulate map_true map_pred (combine true pred) result.

End util.

(** ** cleanlab/internal/token_classification_utils.py *)

Module token_classification_utils.

(** A two-dimensional array: its second dimension is stored, so that an
    array without rows still has a column count ([probs.shape[1]]). *)
Record ndarray (A : Type) : Type := mk_ndarray {
  shape1 : nat;
  rows : list (list A)
}.

Arguments mk_ndarray {A} shape1 rows.
Arguments shape1 {A} n.
Arguments rows {A} n.

Definition well_shaped {A : Type} (a : ndarray A) : Prop :=
  Forall (fun r => length r = shape1 a) (rows a).

(** [np.max(maps)]; NumPy rejects an empty sequence. *)
Definition np_max (maps : list Z) : result Z :=
  match maps with
  | [] => Raise ValueError
  | m :: ms => Ok (fold_left Z.max ms m)
  end.

(** [merged[:, j] += probs[:, i]], row by row. *)
Fixpoint add_column (j i : nat) (merged probs : list (list Q))
  : list (list Q) :=
  match merged, probs with
  | mr :: merged', pr :: probs' =>
      np.add_at j (nth i pr 0) mr :: add_column j i merged' probs'
  | _, _ => merged
  end.

(** The [for i in range(old_classes)] loop over the remaining indices. *)
Fixpoint merge_loop (indices : list nat) (maps : list Z)
    (probs merged : list (list Q)) : result (list (list Q)) :=
  match indices with
  | [] => Ok merged
  | i :: rest =>
      match nth_error maps i with
      | None => Raise IndexError
      | Some mi =>
          if (0 <=? mi)%Z
          then merge_loop rest maps probs
                 (add_column (Z.to_nat mi) i merged probs)
          else merge_loop rest maps probs merged
      end
  end.

(** [merged /= row_sums[:, np.newaxis]]. *)
Definition divide_rows (merged : list (list Q)) : list (list float) :=
  map (fun r => map (fun v => np_divide v (np.sum r)) r) merged.

Definition merge_probs (probs : ndarray Q) (maps : list Z)
  : result (ndarray float) :=
  let old_classes := shape1 probs in
  mx <- np_max maps ;;
  let map_size := (mx + 1)%Z in
  if (map_size <? 0)%Z then Raise ValueError (* np.zeros, negative size *)
  else
    let zeros :=
      repeat (repeat 0 (Z.to_nat map_size)) (length (rows probs)) in
    probs_merged <- merge_loop (seq 0 old_classes) maps (rows probs) zeros ;;
    if existsb (Z.eqb (-1)) maps
    then Ok (mk_ndarray (Z.to_nat map_size) (divide_rows probs_merged))
    else Ok (mk_ndarray (Z.to_nat map_size) (map (map Fin) probs_merged)).

End token_classification_utils.

(** ** merge_probs on float64 *)

Module token_classification_utils_f64.

Import token_classification_utils.

(** [merged[:, j] += probs[:, i]], row by row. *)
Fixpoint add_column (j i : nat) (merged probs : list (list float))
  : list (list float) :=
  match merged, probs with
  | mr :: merged', pr :: probs' =>
      np64.add_at j (nth i pr (Fin 0)) mr :: add_column j i merged' probs'
  | _, _ => merged
  end.

(** The [for i in range(old_classes)] loop over the remaining indices. *)
Fixpoint merge_loop (indices : list nat) (maps : list Z)
    (probs merged : list (list float)) : result (list (list float)) :=
  match indices with
  | [] => Ok merged
  | i :: rest =>
      match nth_error maps i with
      | None => Raise IndexError
      | Some mi =>
          if (0 <=? mi)%Z
          then merge_loop rest maps probs
                 (add_column (Z.to_nat mi) i merged probs)
          else merge_loop rest maps probs merged
      end
  end.

(** [merged /= row_sums[:, np.newaxis]], with [row_sums] the sums along
    the rows. *)
Definition divide_rows (merged : list (list float)) : list (list float) :=
  map (fun r => map (fun v => f64.div v (np64.sum r)) r) merged.

Definition merge_probs (probs : ndarray float) (maps : list Z)
  : result (ndarray float) :=
  let old_classes := shape1 probs in
  mx <- np_max maps ;;
  let map_size := (mx + 1)%Z in
  if (map_size <? 0)%Z then Raise ValueError (* np.zeros, negative size *)
  else
    let zeros :=
      repeat (repeat (Fin 0) (Z.to_nat map_size)) (length (rows probs)) in
    probs_merged <- merge_loop (seq 0 old_classes) maps (rows probs) zeros ;;
    if existsb (Z.eqb (-1)) maps
    then Ok (mk_ndarray (Z.to_nat map_size) (divide_rows probs_merged))
    else Ok (mk_ndarray (Z.to_nat map_size) probs_merged).

End token_classification_utils_f64.

(** ** Python sequences *)

Module py.

(** [l[i]] on a Python list: a negative index counts from the end, an index
    outside the list raises IndexError. *)
Definition getitem {A : Type} (l : list A) (i : Z) : result A :=
  r <- util.resolve_index (length l) i ;;
  match nth_error l r with
  | Some a => Ok a
  | None => Raise IndexError
  end.

(** [list(map(f, xs))] for an [f] that can raise: the calls are made from
    left to right and the first exception ends the evaluation. *)
Fixpoint map_list {A B : Type} (f : A -> result B) (xs : list A)
  : result (list B) :=
  match xs with
  | [] => Ok []
  | x :: rest =>
      y <- f x ;;
      ys <- map_list f rest ;;
      Ok (y :: ys)
  end.

End py.

(** ** cleanlab/internal/util.py, further functions *)

Module util_extra.

(** *** value_counts, for a Python list of ints

    A list has no [value_counts] method, so the [try] fails and the
    [except] branch runs; [x[0]] raises IndexError there when the list is
    empty. *)

(** [np.bincount(x)] for non-negative [x]: entry [v] counts the occurrences
    of [v], for every [v] up to the largest value. *)
Definition bincount (x : list Z) : list nat :=
  map (fun v => count_occ Z.eq_dec x (Z.of_nat v))
      (seq 0 (Z.to_nat (fold_right Z.max (-1)%Z x + 1))).

(** [np.unique(x, return_counts=True)[1]]: the counts of the distinct
    values, in ascending order of value. *)
Definition unique_counts (x : list Z) : list nat :=
  map (fun v => count_occ Z.eq_dec x v) (util.unique x).

Definition value_counts (x : list Z) : result (list nat) :=
  match x with
  | [] => Raise IndexError
  | _ :: _ =>
      if forallb (fun v => (0 <=? v)%Z) x then Ok (bincount x)
      else Ok (unique_counts x)
  end.

(** *** compress_int_array, for a NumPy integer array *)

Inductive dtype : Set := int16 | int32 | int64.

Definition bits (t : dtype) : Z :=
  match t with int16 => 16 | int32 => 32 | int64 => 64 end.

(** [np.iinfo(t).max]. *)
Definition iinfo_max (t : dtype) : Z := (2 ^ (bits t - 1) - 1)%Z.

Record int_ndarray : Set := mk_int_ndarray {
  dt : dtype;
  values : list Z
}.

(** The cast of an integer to a type of [w] bits keeps the low [w] bits, in
    two's complement. *)
Definition wrap (w : Z) (v : Z) : Z :=
  ((v + 2 ^ (w - 1)) mod 2 ^ w - 2 ^ (w - 1))%Z.

Definition astype (t : dtype) (a : int_ndarray) : int_ndarray :=
  mk_int_ndarray t (map (wrap (bits t)) (values a)).

Definition compress_int_array (int_array : int_ndarray)
    (num_possible_values : Z) : int_ndarray :=
  let compressed_type :=
    if (num_possible_values <? iinfo_max int16)%Z then Some int16
    else if (num_possible_values <? iinfo_max int32)%Z then Some int32
    else None in
  match compressed_type with
  | Some t => astype t int_array
  | None => int_array
  end.

(** *** onehot2int and int2onehot *)

(** [np.where(row == 1)[0]]: the positions that hold a 1, ascending. *)
Definition where_one (row : list Z) : list nat :=
  map fst (filter (fun p => (snd p =? 1)%Z)
                  (combine (seq 0 (length row)) row)).

Definition onehot2int (onehot_matrix : list (list Z)) : list (list nat) :=
  map where_one onehot_matrix.

(** [MultiLabelBinarizer().fit_transform(labels)] of scikit-learn: one
    column per distinct label, in ascending order; an entry is 1 when the
    label of its column occurs in the row, and 0 otherwise. *)
Definition int2onehot (labels : list (list Z)) : list (list Z) :=
  let classes := util.unique (concat labels) in
  map (fun row =>
         map (fun c => if existsb (Z.eqb c) row then 1%Z else 0%Z) classes)
      labels.

(** *** csr_vstack *)

(** A [scipy.sparse.csr_matrix]: row [r] holds the entries
    [data[indptr[r]:indptr[r+1]]], in the columns
    [indices[indptr[r]:indptr[r+1]]]. *)
Record csr_matrix : Type := mk_csr {
  data : list Q;
  indices : list Z;
  indptr : list Z;
  shape : nat * nat
}.

(** [a.nnz]: SciPy reads it off the last entry of [indptr]. *)
Definition nnz (a : csr_matrix) : result Z :=
  py.getitem (indptr a) (-1).

(** The attributes of [a] are assigned one after the other, and [a.nnz] is
    read while [a.indptr] is still the old one; the function returns the
    object [a] itself. *)
Definition csr_vstack (a b : csr_matrix) : result csr_matrix :=
  let a_data := data a ++ data b in
  let a_indices := indices a ++ indices b in
  n <- nnz a ;;
  let a_indptr := indptr a ++ tl (map (fun p => (p + n)%Z) (indptr b)) in
  Ok (mk_csr a_data a_indices a_indptr
             (fst (shape a) + fst (shape b), snd (shape b))%nat).

(** *** num_unique_classes and get_num_classes *)

(** The exceptions raised below: those of [exn], and TypeError. *)
Inductive error : Set :=
| Builtin (e : exn)
| TypeError.

Inductive outcome (A : Type) : Type :=
| Return (a : A)
| Throw (e : error).

Arguments Return {A} a.
Arguments Throw {A} e.

(** A label is an int, or a list of ints for a multi-label example. *)
Inductive label : Set :=
| Single (c : Z)
| Group (cs : list Z).

Definition is_list (l : label) : bool :=
  match l with Single _ => false | Group _ => true end.

(** [l for grp in labels for l in list(grp)]: [list(grp)] raises TypeError
    when [grp] is an int. *)
Fixpoint chain (labels : list label) : outcome (list Z) :=
  match labels with
  | [] => Return []
  | Single _ :: _ => Throw TypeError
  | Group cs :: rest =>
      match chain rest with
      | Return tail => Return (cs ++ tail)
      | Throw e => Throw e
      end
  end.

(** The elements of [set(labels)]: a list is unhashable, and raises
    TypeError. *)
Fixpoint hashables (labels : list label) : outcome (list Z) :=
  match labels with
  | [] => Return []
  | Group _ :: _ => Throw TypeError
  | Single c :: rest =>
      match hashables rest with
      | Return tail => Return (c :: tail)
      | Throw e => Throw e
      end
  end.

(** [len(set(xs))]. *)
Definition len_set (xs : list Z) : nat := length (nodup Z.eq_dec xs).

Definition num_unique_classes (labels : list label)
    (multi_label : option bool) : outcome nat :=
  let multi_label :=
    match multi_label with
    | None => existsb is_list labels
    | Some b => b
    end in
  if multi_label then
    match chain labels with
    | Return xs => Return (len_set xs)
    | Throw e => Throw e
    end
  else
    match hashables labels with
    | Return xs => Return (len_set xs)
    | Throw e => Throw e
    end.

(** A two-dimensional array is given by its shape. *)
Definition get_num_classes (labels : option (list label))
    (pred_probs label_matrix : option (nat * nat))
    (multi_label : option bool) : outcome nat :=
  match pred_probs with
  | Some pshape => Return (snd pshape)
  | None =>
      match label_matrix with
      | Some mshape =>
          if negb (fst mshape =? snd mshape)%nat
          then Throw (Builtin ValueError)
          else Return (fst mshape)
      | None =>
          match labels with
          | None => Throw (Builtin ValueError)
          | Some l => num_unique_classes l multi_label
          end
      end
  end.

End util_extra.

(** ** cleanlab/internal/token_classification_utils.py, further functions *)

Module token_extra.

Import String Ascii.

(** [mapping]: [maps[x]] for every entity [x]. *)
Definition mapping (entities maps : list Z) : result (list Z) :=
  py.map_list (fun x => py.getitem maps x) entities.

(** ["#" in sentence]. *)
Fixpoint contains_char (c : ascii) (sentence : string) : bool :=
  match sentence with
  | EmptyString => false
  | String d rest => Ascii.eqb c d || contains_char c rest
  end.

(** The condition used when none is given:
    [len(sentence) > 1 and "#" not in sentence]. *)
Definition default_condition (sentence : string) : bool :=
  (1 <? String.length sentence)%nat && negb (contains_char "#"%char sentence).

Definition filter_sentence (sentences : list string)
    (condition : option (string -> bool)) : list string * list bool :=
  let condition :=
    match condition with
    | None => default_condition
    | Some c => c
    end in
  let mask := map condition sentences in
  let sentences :=
    map snd (filter (fun ms => fst ms) (combine mask sentences)) in
  (sentences, mask).

End token_extra.

(** ** cleanlab/token_classification/summary.py *)

Module summary.

Import String.

Section filter_by_token.

(** Python's [str.lower]. *)
Variable lower : string -> string.

(** The [for issue in issues] loop; [returned_issues] grows at its end. *)
Fixpoint filter_loop (token : string) (issues : list (Z * Z))
    (given_words : list (list string)) (returned_issues : list (Z * Z))
  : result (list (Z * Z)) :=
  match issues with
  | [] => Ok returned_issues
  | (i, j) :: rest =>
      sentence <- py.getitem given_words i ;;
      word <- py.getitem sentence j ;;
      if String.eqb (lower token) (lower word)
      then filter_loop token rest given_words (returned_issues ++ [(i, j)])
      else filter_loop token rest given_words returned_issues
  end.

Definition filter_by_token (token : string) (issues : list (Z * Z))
    (given_words : list (list string)) : result (list (Z * Z)) :=
  filter_loop token issues given_words [].

End filter_by_token.

End summary.

(** * Vocabulary of the statements *)

Import token_classification_utils.

(** The sum of an array of integers. *)
Definition Zsum (l : list Z) : Z := fold_right Z.add 0%Z l.

(** The sign and the number of changes that one pass computes from the
    integer target [T] and the integer candidate sum [I]. *)
Definition pass_increment (T I : Z) : Z :=
  if (T - I <? 0)%Z then (-1)%Z else 1%Z.

(** [min(int(abs(diff)), len(iterable))] for [diff = T - I]. *)
Definition pass_changes (T I : Z) (n : nat) : nat :=
  Z.to_nat (Z.min (Z.abs (T - I)) (Z.of_nat n)).

(** The sum of all cells of a count matrix. *)
Definition total (m : list (list nat)) : nat := list_sum (map list_sum m).

(** Cell [m[a][b]] of a count matrix. *)
Definition count_cell (m : list (list nat)) (a b : nat) : nat :=
  nth b (nth a m []) O.

(** A matrix of [rows] rows with [cols] cells each. *)
Definition has_shape {A : Type} (rows cols : nat) (m : list (list A)) : Prop :=
  length m = rows /\ Forall (fun r => length r = cols) m.

(** How often the pair of labels [(tv, pv)] occurs among the positions. *)
Definition occurrences (tv pv : Z) (pairs : list (Z * Z)) : nat :=
  length (filter (fun tp => (fst tp =? tv)%Z && (snd tp =? pv)%Z) pairs).

(** [sumf f n] is [f 0 + ... + f (n - 1)]. *)
Fixpoint sumf (f : nat -> Q) (n : nat) : Q :=
  match n with
  | O => 0
  | S k => sumf f k + f k
  end.

(** The sum of column [i] without its diagonal entry. *)
Definition off_diagonal (x : list (list Q)) (i : nat) : Q :=
  sumf (fun r => if Nat.eqb r i then 0 else util.cell x r i) (length x).

(** What the loop does to one row of [probs_merged]. *)
Fixpoint row_merge (indices : list nat) (maps : list Z) (prow mrow : list Q)
  : list Q :=
  match indices with
  | [] => mrow
  | i :: rest =>
      if (0 <=? nth i maps (-1))%Z
      then row_merge rest maps prow
             (np.add_at (Z.to_nat (nth i maps (-1)%Z)) (nth i prow 0) mrow)
      else row_merge rest maps prow mrow
  end.

(** The share of input column [i] that goes to output column [j]. *)
Definition share (maps : list Z) (prow : list Q) (j i : nat) : Q :=
  if (nth i maps (-1) =? Z.of_nat j)%Z then nth i prow 0 else 0.

(** The sum of the entries of [prow] whose column is mapped to [j]. *)
Definition class_mass (maps : list Z) (prow : list Q) (j : nat) : Q :=
  sumf (share maps prow j) (length maps).

(** The matrix that the loop of [merge_probs] builds, before any
    renormalization. *)
Definition merged_rows (probs : ndarray Q) (maps : list Z) (W : nat)
  : list (list Q) :=
  map (fun pr => row_merge (seq 0 (shape1 probs)) maps pr (repeat 0 W))
      (rows probs).

(** The identity class map [[0, 1, ..., K-1]]. *)
Definition identity_map (K : nat) : list Z := map Z.of_nat (seq 0 K).

(** The matrix just before the division: clipped entries, with the
    diagonal of the input put back. *)
Definition refilled (m : list (list Q)) : list (list Q) :=
  util.fill_diagonal (map (map util.clip_noise_rate_range) m)
                     (util.diagonal m).

(** Cell [out[r][c]] of a matrix of quotients. *)
Definition fcell (out : list (list float)) (r c : nat) : float :=
  nth c (nth r out []) NaN.

(** The value held by a finite float. *)
Definition value (x : float) : Q :=
  match x with Fin q => q | _ => 0 end.

(** A noise matrix: K-by-K, entries in [0, 1], columns summing to 1. *)
Definition noise_matrix (K : nat) (m : list (list Q)) : Prop :=
  has_shape K K m /\
  (forall r c, (r < K)%nat -> (c < K)%nat -> 0 <= util.cell m r c <= 1) /\
  (forall c, (c < K)%nat -> np.sum (np.column m c) == 1).

(** A noise matrix with an off-diagonal rate above 0.9999. *)
Definition skewed_matrix : list (list Q) :=
  [[5 # 100000; 0]; [99995 # 100000; 1]].


(** The condition that [filter_sentence] applies. *)
Definition chosen_condition (condition : option (String.string -> bool))
  : String.string -> bool :=
  match condition with
  | None => token_extra.default_condition
  | Some c => c
  end.

(** The word [given_words[i][j]] that the issue [(i, j)] points to. *)
Definition word_at (given_words : list (list String.string)) (issue : Z * Z)
  : result String.string :=
  sentence <- py.getitem given_words (fst issue) ;;
  py.getitem sentence (snd issue).

Section string_vocabulary.

Import String.
Local Open Scope string_scope.

(** Whether the issue points to a word that equals the token up to case. *)
Definition matches (lower : string -> string) (token : string)
    (gw : list (list string)) (issue : Z * Z) : bool :=
  match word_at gw issue with
  | Ok word => String.eqb (lower token) (lower word)
  | Raise _ => false
  end.

(** A stand-in for [str.lower] on the words of the examples. *)
Definition lower_example (s : string) : string :=
  if String.eqb s "World" then "world" else s.

End string_vocabulary.

(** The Python slice [l[lo:hi]] for [0 <= lo <= hi]. *)
Definition slice {A : Type} (l : list A) (lo hi : Z) : list A :=
  firstn (Z.to_nat hi - Z.to_nat lo) (skipn (Z.to_nat lo) l).

(** The stored entries of row [r] of a CSR matrix, as pairs of a column
    index and a value. *)
Definition csr_row (m : util_extra.csr_matrix) (r : nat) : list (Z * Q) :=
  let lo := nth r (util_extra.indptr m) 0%Z in
  let hi := nth (S r) (util_extra.indptr m) 0%Z in
  combine (slice (util_extra.indices m) lo hi)
          (slice (util_extra.data m) lo hi).

(** The invariant of the CSR format: [indptr] has one entry more than the
    matrix has rows, starts at 0, never decreases and ends at the number of
    stored entries; [indices] is as long as [data]. *)
Definition csr_wf (m : util_extra.csr_matrix) : Prop :=
  let R := fst (util_extra.shape m) in
  length (util_extra.indptr m) = S R /\
  nth 0 (util_extra.indptr m) 0%Z = 0%Z /\
  (forall r, (r < R)%nat ->
             (nth r (util_extra.indptr m) 0 <= nth (S r) (util_extra.indptr m) 0)%Z) /\
  nth R (util_extra.indptr m) 0%Z = Z.of_nat (length (util_extra.data m)) /\
  length (util_extra.indices m) = length (util_extra.data m).

(** ** float64 values and sums *)

(** The rationals that a float64 holds: a significand of 53 bits and an
    exponent of the normal or subnormal range. *)
Definition is_f64 (x : Q) : Prop :=
  exists m e : Z,
    (Z.abs m < 2 ^ 53)%Z /\ (-1074 <= e <= 971)%Z /\ x == inject_Z m * 2 ^ e.

(** [sums_to k l r]: [r] is a float64 sum of the entries of [l], computed
    with [k] additions in some order and with some bracketing. *)
Inductive sums_to : nat -> list float -> float -> Prop :=
| sum_zero : sums_to 0 [] (Fin 0)
| sum_leaf (x : float) : sums_to 0 [x] x
| sum_node (k1 k2 : nat) (l1 l2 : list float) (r1 r2 : float) :
    sums_to k1 l1 r1 -> sums_to k2 l2 r2 ->
    sums_to (S (k1 + k2)) (l1 ++ l2) (f64.add r1 r2)
| sum_perm (k : nat) (l l' : list float) (r : float) :
    Permutation l l' -> sums_to k l r -> sums_to k l' r.

(** The entries that each accumulator has received, after one more block. *)
Fixpoint snoc_each (ls : list (list float)) (b : list float)
  : list (list float) :=
  match ls, b with
  | l :: ls', x :: b' => (l ++ [x]) :: snoc_each ls' b'
  | _, _ => []
  end.

(** Accumulators and the entries they hold. *)
Definition holds (ls : list (list float)) (r : list float) : Prop :=
  Forall2 (fun l x => sums_to (length l - 1) l x /\ l <> []) ls r.

(** Integers as float64 values. *)
Definition lift (zs : list Z) : list float :=
  map (fun z => Fin (inject_Z z)) zs.

Definition sum_abs (v : list Q) : Q := np.sum (map Qabs v).

(** The inputs on which the float64 arithmetic of [round_preserving_sum]
    stays accurate: float64 values, few and small enough for the rounding
    errors of their sum to stay below one half. *)
Definition in_domain (v : list Q) : Prop :=
  Forall is_f64 v /\
  inject_Z (Z.of_nat (length v)) * (sum_abs v + 1) < 2 ^ 52.

(** The indices in [l] come in ascending order of their key. *)
Definition key_sorted (keys : list float) (l : list nat) : Prop :=
  StronglySorted
    (fun i j => f64.leb (nth i keys NaN) (nth j keys NaN) = true) l.

(** What [np.argsort] promises. *)
Definition sorts (argsort : list float -> list nat) : Prop :=
  forall keys : list float,
    Permutation (argsort keys) (seq 0 (length keys)) /\
    key_sorted keys (argsort keys).

Fixpoint add_atZ (i : nat) (d : Z) (a : list Z) : list Z :=
  match a, i with
  | [], _ => []
  | x :: t, O => (x + d)%Z :: t
  | x :: t, S j => x :: add_atZ j d t
  end.

(** The [for i in indices] loop of the rounding correction, on integers. *)
Definition bumpZ (d : Z) (indices : list nat) (a : list Z) : list Z :=
  fold_left (fun a i => add_atZ i d a) indices a.

(** The indices that the correction pass of [round_preserving_sum] picks
    for the integer target [T] and the integer candidate sum [I]. *)
Definition picked (argsort : list float -> list nat)
    (floats ints : list float) (T I : Z) : list nat :=
  let order := argsort (np64.subtract floats ints) in
  firstn (pass_changes T I (length floats))
         (if (pass_increment T I =? 1)%Z then rev order else order).





(** The float64 values [3.0] and [0.49999999999999994]. *)
Definition tie_input : list Q := [3; 9007199254740991 # 18014398509481984].

(** What the element-wise rounding takes away from [x]. *)
Definition residual (x : Q) : Q := x - inject_Z (np.rint x).

(** What the loop of the float64 [merge_probs] does to one row. *)
Fixpoint row_merge64 (indices : list nat) (maps : list Z)
    (prow mrow : list float) : list float :=
  match indices with
  | [] => mrow
  | i :: rest =>
      if (0 <=? nth i maps (-1))%Z
      then row_merge64 rest maps prow
             (np64.add_at (Z.to_nat (nth i maps (-1)%Z)) (nth i prow (Fin 0))
                          mrow)
      else row_merge64 rest maps prow mrow
  end.

(** The input columns among [s, ..., s + k - 1] that the map sends to
    output column [j], in increasing order. *)
Definition picks (maps : list Z) (j s k : nat) : list nat :=
  filter (fun i => (nth i maps (-1) =? Z.of_nat j)%Z) (seq s k).

(** The float64 sum of the entries of [prow] that are mapped to [j], added
    to 0 one after the other, in increasing order of column. *)
Definition merged_entry (maps : list Z) (prow : list float) (j : nat) : float :=
  fold_left (fun acc i => f64.add acc (nth i prow (Fin 0)))
            (picks maps j 0 (length maps)) (Fin 0).

(** The matrix that the loop of the float64 [merge_probs] builds, before
    any renormalization. *)
Definition merged_rows64 (probs : token_classification_utils.ndarray float)
    (maps : list Z) (W : nat) : list (list float) :=
  map (fun pr =>
         row_merge64 (seq 0 (token_classification_utils.shape1 probs)) maps pr
                     (repeat (Fin 0) W))
      (token_classification_utils.rows probs).

(** The float64 values [0.1], [0.2] and [0.3]. *)
Definition tenths : list Q :=
  [3602879701896397 # 36028797018963968;
   3602879701896397 # 18014398509481984;
   5404319552844595 # 18014398509481984].

(** The float64 values [1.4], [1.4], [1.4] and [1.8]. *)
Definition example_row : list Q :=
  [3152519739159347 # 2251799813685248;
   3152519739159347 # 2251799813685248;
   3152519739159347 # 2251799813685248;
   8106479329266893 # 4503599627370496].

(** * Properties *)

(** ** Rounding and truncation *)

Lemma Qlt_bool_iff (a b : Q) : Qlt_bool a b = true <-> a < b.
Proof.
  unfold Qlt_bool. rewrite negb_true_iff.
  split; intro H.
  - apply Qnot_le_lt. intro Hle. apply Qle_bool_iff in Hle. congruence.
  - destruct (Qle_bool b a) eqn:E; [|reflexivity].
    apply Qle_bool_iff in E. exfalso. lra.
Qed.

Lemma Qlt_bool_false (a b : Q) : Qlt_bool a b = false <-> b <= a.
Proof.
  rewrite <- not_true_iff_false, Qlt_bool_iff. split; intro H; lra.
Qed.

Lemma rint_near (q : Q) :
  inject_Z (np.rint q) - (1 # 2) <= q <= inject_Z (np.rint q) + (1 # 2).
Proof.
  unfold np.rint.
  pose proof (Qfloor_le q) as Hlo.
  pose proof (Qlt_floor q) as Hhi.
  rewrite inject_Z_plus in Hhi. change (inject_Z 1) with 1 in Hhi.
  destruct (Qcompare_spec (q - inject_Z (Qfloor q)) (1 # 2)) as [E|L|G];
    [destruct (Z.even (Qfloor q))| |];
    rewrite ?inject_Z_plus; change (inject_Z 1) with 1; lra.
Qed.

Lemma rint_inject_Z (z : Z) : np.rint (inject_Z z) = z.
Proof.
  unfold np.rint. rewrite Qfloor_Z.
  destruct (Qcompare_spec (inject_Z z - inject_Z z) (1 # 2)) as [E|L|G].
  - lra.
  - reflexivity.
  - lra.
Qed.

Lemma Qfloor_proper (a b : Q) : a == b -> Qfloor a = Qfloor b.
Proof.
  intro H. apply Z.le_antisymm; apply Qfloor_resp_le; lra.
Qed.

Lemma rint_proper (a b : Q) : a == b -> np.rint a = np.rint b.
Proof.
  intro H. unfold np.rint.
  rewrite (Qfloor_proper a b H).
  assert (Hc : Qcompare (a - inject_Z (Qfloor b)) (1 # 2)
               = Qcompare (b - inject_Z (Qfloor b)) (1 # 2)).
  { apply Qcompare_comp; [rewrite H|]; reflexivity. }
  rewrite Hc. reflexivity.
Qed.

(** ** Arrays: updates by index *)

Lemma length_add_at (i : nat) (d : Q) (a : list Q) :
  length (np.add_at i d a) = length a.
Proof.
  revert i. induction a as [|x a IH]; intros [|i]; simpl; auto.
Qed.

Lemma nth_add_at_same (i : nat) (d : Q) (a : list Q) :
  (i < length a)%nat -> nth i (np.add_at i d a) 0 = nth i a 0 + d.
Proof.
  revert i. induction a as [|x a IH]; intros [|i] Hi; simpl in *; try lia.
  - reflexivity.
  - apply IH. lia.
Qed.

Lemma nth_add_at_other (i j : nat) (d : Q) (a : list Q) :
  i <> j -> nth j (np.add_at i d a) 0 = nth j a 0.
Proof.
  revert i j. induction a as [|x a IH]; intros [|i] [|j] Hij; simpl;
    try reflexivity; try congruence.
  apply IH. congruence.
Qed.

Lemma map_snd_combine {A B : Type} (k : list A) (v : list B) :
  length k = length v -> map snd (combine k v) = v.
Proof.
  revert v. induction k as [|x k IH]; intros [|y v] H; simpl in *;
    try congruence.
  f_equal. apply IH. congruence.
Qed.

Lemma NoDup_firstn {A : Type} (k : nat) (l : list A) :
  NoDup l -> NoDup (firstn k l).
Proof.
  intro H. revert k. induction H as [|x l Hx Hl IH]; intros [|k]; simpl;
    try constructor.
  - intro Hin. apply Hx. revert Hin. clear. revert k.
    induction l as [|y l IH]; intros [|k]; simpl; try tauto.
    intros [E|Hin]; [left; assumption | right; eapply IH; eassumption].
  - apply IH.
Qed.

Lemma Forall_firstn' {A : Type} (P : A -> Prop) (k : nat) (l : list A) :
  Forall P l -> Forall P (firstn k l).
Proof.
  intro H. revert k. induction H as [|x l Hx Hl IH]; intros [|k]; simpl;
    constructor; auto.
Qed.

(** ** Sums of rounded entries *)

Lemma sum_round_near (floats : list Q) :
  let h := inject_Z (Z.of_nat (length floats)) * (1 # 2) in
  np.sum floats - h <= np.sum (map np.round floats) <= np.sum floats + h.
Proof.
  induction floats as [|q l IH].
  - cbn. change (inject_Z 0) with 0. lra.
  - cbv zeta in *.
    change (np.sum (map np.round (q :: l)))
      with (inject_Z (np.rint q) + np.sum (map np.round l)).
    change (np.sum (q :: l)) with (q + np.sum l).
    change (length (q :: l)) with (S (length l)).
    rewrite Nat2Z.inj_succ. unfold Z.succ. rewrite inject_Z_plus.
    change (inject_Z 1) with 1.
    pose proof (rint_near q). lra.
Qed.

Lemma sum_round_Zsum (floats : list Q) :
  np.sum (map np.round floats) == inject_Z (Zsum (map np.rint floats)).
Proof.
  induction floats as [|q l IH].
  - reflexivity.
  - change (np.sum (map np.round (q :: l)))
      with (inject_Z (np.rint q) + np.sum (map np.round l)).
    change (Zsum (map np.rint (q :: l)))
      with (np.rint q + Zsum (map np.rint l))%Z.
    rewrite inject_Z_plus, IH. reflexivity.
Qed.

(** ** confusion_matrix *)

Lemma insert_unique_In (v x : Z) (l : list Z) :
  In x (util.insert_unique v l) <-> x = v \/ In x l.
Proof.
  induction l as [|w l IH]; simpl.
  - intuition.
  - destruct (Z.ltb_spec v w); [simpl; intuition|].
    destruct (Z.eqb_spec v w); simpl.
    + subst. intuition.
    + rewrite IH. intuition.
Qed.

Lemma insert_unique_sorted (v : Z) (l : list Z) :
  StronglySorted Z.lt l -> StronglySorted Z.lt (util.insert_unique v l).
Proof.
  induction 1 as [|w l Hl IH Hw]; simpl.
  - repeat constructor.
  - destruct (Z.ltb_spec v w) as [L|G].
    + constructor; [constructor; assumption|].
      constructor; [assumption|].
      eapply Forall_impl; [|exact Hw]. intros; lia.
    + destruct (Z.eqb_spec v w) as [E|N].
      * constructor; assumption.
      * constructor; [assumption|].
        apply Forall_forall. intros x Hx.
        apply insert_unique_In in Hx. destruct Hx as [->|Hx]; [lia|].
        rewrite Forall_forall in Hw. apply Hw, Hx.
Qed.

Lemma unique_In (l : list Z) (x : Z) : In x (util.unique l) <-> In x l.
Proof.
  induction l as [|v l IH]; simpl; [tauto|].
  rewrite insert_unique_In, IH. intuition.
Qed.

Lemma unique_sorted (l : list Z) : StronglySorted Z.lt (util.unique l).
Proof.
  induction l as [|v l IH]; simpl.
  - constructor.
  - apply insert_unique_sorted, IH.
Qed.

Lemma sorted_NoDup (l : list Z) : StronglySorted Z.lt l -> NoDup l.
Proof.
  induction 1 as [|w l Hl IH Hw]; constructor; [|assumption].
  intro Hin. rewrite Forall_forall in Hw. specialize (Hw w Hin). lia.
Qed.

(** The dictionary built by [dict(zip(classes, range(K)))] sends a class to
    its position. *)
Lemma dict_get_position (classes : list Z) (start : nat) (x : Z) :
  In x classes ->
  exists a : nat,
    util.dict_get (combine classes (seq start (length classes))) x
    = Ok (start + a)%nat /\
    (a < length classes)%nat /\ nth a classes 0%Z = x.
Proof.
  revert start. induction classes as [|c l IH]; intros start Hin.
  - contradiction.
  - cbn [length seq combine util.dict_get].
    destruct (Z.eqb_spec x c) as [->|Hne].
    + exists O. rewrite Nat.add_0_r. simpl. repeat split; lia.
    + destruct Hin as [E|Hin]; [congruence|].
      destruct (IH (S start) Hin) as (a & Hget & Ha & Hnth).
      exists (S a). rewrite Hget. simpl. repeat split; try lia; try assumption.
      f_equal. lia.
Qed.

Lemma length_incr_at (i : nat) (a : list nat) :
  length (util.incr_at i a) = length a.
Proof.
  revert i. induction a as [|x a IH]; intros [|i]; simpl; auto.
Qed.

Lemma list_sum_incr_at (i : nat) (a : list nat) :
  (i < length a)%nat -> list_sum (util.incr_at i a) = S (list_sum a).
Proof.
  revert i. induction a as [|x a IH]; intros [|i] Hi; simpl in *; try lia.
  rewrite IH by lia. lia.
Qed.

Lemma nth_incr_at (i j : nat) (a : list nat) :
  (i < length a)%nat ->
  nth j (util.incr_at i a) O
  = (nth j a O + if Nat.eqb i j then 1 else 0)%nat.
Proof.
  revert i j. induction a as [|x a IH]; intros [|i] [|j] Hi; simpl in *;
    try lia.
  apply IH. lia.
Qed.

Lemma length_set_at {A : Type} (i : nat) (v : A) (a : list A) :
  length (np.set_at i v a) = length a.
Proof.
  revert i. induction a as [|x a IH]; intros [|i]; simpl; auto.
Qed.

Lemma nth_set_at_same {A : Type} (i : nat) (v d : A) (a : list A) :
  (i < length a)%nat -> nth i (np.set_at i v a) d = v.
Proof.
  revert i. induction a as [|x a IH]; intros [|i] Hi; simpl in *; try lia.
  - reflexivity.
  - apply IH. lia.
Qed.

Lemma nth_set_at_other {A : Type} (i j : nat) (v d : A) (a : list A) :
  i <> j -> nth j (np.set_at i v a) d = nth j a d.
Proof.
  revert i j. induction a as [|x a IH]; intros [|i] [|j] Hij; simpl;
    try reflexivity; try congruence.
  apply IH. congruence.
Qed.

Lemma Forall_set_at {A : Type} (P : A -> Prop) (i : nat) (v : A)
    (a : list A) :
  ((i < length a)%nat -> P v) -> Forall P a -> Forall P (np.set_at i v a).
Proof.
  intros Hv H. revert i Hv.
  induction H as [|x a Hx Ha IH]; intros [|i] Hv; simpl in *;
    constructor; auto.
  - apply Hv. lia.
  - apply IH. intro. apply Hv. lia.
Qed.

Lemma incr_cell_shape (R C a b : nat) (m : list (list nat)) :
  has_shape R C m -> has_shape R C (util.incr_cell a b m).
Proof.
  intros [Hr Hc]. unfold util.incr_cell. split.
  - rewrite length_set_at. exact Hr.
  - apply Forall_set_at; [|exact Hc].
    intro L. rewrite length_incr_at.
    rewrite Forall_forall in Hc. apply Hc, nth_In, L.
Qed.

Lemma total_set_at (a : nat) (r : list nat) (m : list (list nat)) :
  (a < length m)%nat ->
  (total (np.set_at a r m) + list_sum (nth a m [])
   = total m + list_sum r)%nat.
Proof.
  unfold total. revert a.
  induction m as [|x m IH]; intros [|a] Ha; simpl in *; try lia.
  specialize (IH a). lia.
Qed.

Lemma total_incr_cell (R C a b : nat) (m : list (list nat)) :
  has_shape R C m -> (a < R)%nat -> (b < C)%nat ->
  total (util.incr_cell a b m) = S (total m).
Proof.
  intros [Hr Hc] Ha Hb. unfold util.incr_cell.
  pose proof (total_set_at a (util.incr_at b (nth a m [])) m) as H.
  rewrite list_sum_incr_at in H.
  - lia.
  - rewrite Forall_forall in Hc. rewrite (Hc (nth a m [])); [lia|].
    apply nth_In. lia.
Qed.

Lemma count_cell_incr_cell (R C a' b' a b : nat) (m : list (list nat)) :
  has_shape R C m -> (a' < R)%nat -> (b' < C)%nat ->
  count_cell (util.incr_cell a' b' m) a b
  = (count_cell m a b
     + if Nat.eqb a' a && Nat.eqb b' b then 1 else 0)%nat.
Proof.
  intros [Hr Hc] Ha Hb. unfold count_cell, util.incr_cell.
  destruct (Nat.eqb_spec a' a) as [->|Hne]; cbn [andb].
  - rewrite nth_set_at_same by lia.
    apply nth_incr_at.
    rewrite Forall_forall in Hc. rewrite (Hc (nth a m [])); [lia|].
    apply nth_In. lia.
  - rewrite nth_set_at_other by assumption. lia.
Qed.

Lemma tabulate_run (tc pc : list Z) (pairs : list (Z * Z))
    (acc : list (list nat)) :
  NoDup tc -> NoDup pc ->
  has_shape (length tc) (length pc) acc ->
  Forall (fun tp => In (fst tp) tc /\ In (snd tp) pc) pairs ->
  exists m : list (list nat),
    util.tabulate (combine tc (seq 0 (length tc)))
                  (combine pc (seq 0 (length pc))) pairs acc = Ok m /\
    has_shape (length tc) (length pc) m /\
    total m = (total acc + length pairs)%nat /\
    forall a b : nat,
      (a < length tc)%nat -> (b < length pc)%nat ->
      count_cell m a b
      = (count_cell acc a b
         + occurrences (nth a tc 0%Z) (nth b pc 0%Z) pairs)%nat.
Proof.
  intros Htc Hpc. revert acc.
  induction pairs as [|[t p] pairs IH]; intros acc Hshape Hin.
  - exists acc. cbn. repeat split; try apply Hshape; intros; lia.
  - inversion Hin as [|? ? [Ht Hp] Hrest]; subst. cbn [fst snd] in *.
    destruct (dict_get_position tc 0 t Ht) as (a' & Hga & Ha' & Hna).
    destruct (dict_get_position pc 0 p Hp) as (b' & Hgb & Hb' & Hnb).
    cbn [util.tabulate]. rewrite Hga, Hgb. cbn [bind Nat.add].
    destruct (IH (util.incr_cell a' b' acc)) as (m & Hm & Hs & Ht' & Hcell).
    { apply incr_cell_shape, Hshape. }
    { exact Hrest. }
    exists m. split; [exact Hm|]. split; [exact Hs|]. split.
    + rewrite Ht'. rewrite (total_incr_cell _ _ a' b' acc Hshape Ha' Hb').
      simpl. lia.
    + intros a b Ha Hb. rewrite (Hcell a b Ha Hb).
      rewrite (count_cell_incr_cell _ _ a' b' a b acc Hshape Ha' Hb').
      unfold occurrences. cbn [filter fst snd].
      assert (E1 : Nat.eqb a' a = (t =? nth a tc 0)%Z).
      { destruct (Nat.eqb_spec a' a) as [->|N];
          destruct (Z.eqb_spec t (nth a tc 0%Z)) as [E|E];
          try reflexivity; try congruence.
        exfalso. apply N.
        apply (proj1 (NoDup_nth tc 0%Z) Htc a' a Ha' Ha). congruence. }
      assert (E2 : Nat.eqb b' b = (p =? nth b pc 0)%Z).
      { destruct (Nat.eqb_spec b' b) as [->|N];
          destruct (Z.eqb_spec p (nth b pc 0%Z)) as [E|E];
          try reflexivity; try congruence.
        exfalso. apply N.
        apply (proj1 (NoDup_nth pc 0%Z) Hpc b' b Hb' Hb). congruence. }
      rewrite E1, E2.
      destruct ((t =? nth a tc 0)%Z && (p =? nth b pc 0)%Z); simpl; lia.
Qed.

Lemma zeros_shape {A : Type} (z : A) (R C : nat) :
  has_shape R C (repeat (repeat z C) R).
Proof.
  split.
  - apply repeat_length.
  - apply Forall_forall. intros r Hr. apply repeat_spec in Hr. subst.
    apply repeat_length.
Qed.

Lemma total_zeros (R C : nat) : total (repeat (repeat O C) R) = O.
Proof.
  unfold total.
  assert (H : list_sum (repeat O C) = O) by (induction C; simpl; auto).
  induction R as [|R IH]; simpl; [reflexivity|].
  rewrite H, IH. reflexivity.
Qed.

Lemma count_cell_zeros (R C a b : nat) :
  (a < R)%nat -> count_cell (repeat (repeat O C) R) a b = O.
Proof.
  intro Ha. unfold count_cell.
  rewrite nth_repeat_lt by assumption. apply nth_repeat.
Qed.

(** C8. For label sequences of one length, [confusion_matrix] returns a
    matrix with one row per distinct value of [true] and one column per
    distinct value of [pred]; rows and columns follow each sequence's own
    distinct values in ascending order; cell (a, b) counts the positions
    that hold the a-th value of [true] and the b-th value of [pred]; and the
    cells add up to [len(true)]. *)
Theorem confusion_matrix_counts (true pred : list Z) :
  length true = length pred ->
  let true_classes := util.unique true in
  let pred_classes := util.unique pred in
  StronglySorted Z.lt true_classes /\
  (forall x : Z, In x true_classes <-> In x true) /\
  StronglySorted Z.lt pred_classes /\
  (forall x : Z, In x pred_classes <-> In x pred) /\
  exists m : list (list nat),
    util.confusion_matrix true pred = Ok m /\
    has_shape (length true_classes) (length pred_classes) m /\
    (forall a b : nat,
        (a < length true_classes)%nat -> (b < length pred_classes)%nat ->
        count_cell m a b
        = occurrences (nth a true_classes 0%Z) (nth b pred_classes 0%Z)
            (combine true pred)) /\
    total m = length true.
Proof.
  intros Hlen tc pc.
  split; [apply unique_sorted|].
  split; [apply unique_In|].
  split; [apply unique_sorted|].
  split; [apply unique_In|].
  unfold util.confusion_matrix.
  rewrite (proj2 (Nat.eqb_eq _ _) Hlen). cbn [negb].
  fold tc pc.
  destruct (tabulate_run tc pc (combine true pred)
              (repeat (repeat O (length pc)) (length tc)))
    as (m & Hm & Hshape & Htot & Hcell).
  - apply sorted_NoDup, unique_sorted.
  - apply sorted_NoDup, unique_sorted.
  - apply zeros_shape.
  - apply Forall_forall. intros [t p] Hin. cbn [fst snd]. split.
    + apply unique_In. eapply in_combine_l, Hin.
    + apply unique_In. eapply in_combine_r, Hin.
  - exists m. split; [exact Hm|]. split; [exact Hshape|]. split.
    + intros a b Ha Hb. rewrite (Hcell a b Ha Hb).
      rewrite count_cell_zeros by assumption. reflexivity.
    + rewrite Htot, total_zeros, length_combine, <- Hlen. lia.
Qed.

Lemma confusion_matrix_counts_witness :
  exists m : list (list nat),
    util.confusion_matrix [5; 3; 5; 7]%Z [1; 1; 1; 2]%Z = Ok m /\
    has_shape 3 2 m /\ total m = 4%nat.
Proof.
  destruct (confusion_matrix_counts [5; 3; 5; 7]%Z [1; 1; 1; 2]%Z eq_refl)
    as (_ & _ & _ & _ & m & Hm & Hshape & _ & Htot).
  exists m. split; [exact Hm | split; [exact Hshape | exact Htot]].
Defined.

(** ** Finite sums over an index range *)

Lemma sumf_ext (f g : nat -> Q) (n : nat) :
  (forall i, (i < n)%nat -> f i == g i) -> sumf f n == sumf g n.
Proof.
  induction n as [|n IH]; intro H; simpl.
  - reflexivity.
  - rewrite IH by (intros; apply H; lia). rewrite (H n) by lia. reflexivity.
Qed.

Lemma sumf_le (f g : nat -> Q) (n : nat) :
  (forall i, (i < n)%nat -> f i <= g i) -> sumf f n <= sumf g n.
Proof.
  induction n as [|n IH]; intro H; simpl.
  - lra.
  - assert (sumf f n <= sumf g n) by (apply IH; intros; apply H; lia).
    assert (f n <= g n) by (apply H; lia). lra.
Qed.

Lemma sumf_plus (f g : nat -> Q) (n : nat) :
  sumf (fun i => f i + g i) n == sumf f n + sumf g n.
Proof.
  induction n as [|n IH]; simpl; [|rewrite IH]; lra.
Qed.

Lemma sumf_scale (f : nat -> Q) (c : Q) (n : nat) :
  sumf (fun i => f i * c) n == sumf f n * c.
Proof.
  induction n as [|n IH]; simpl; [|rewrite IH]; lra.
Qed.

Lemma sumf_zero (n : nat) : sumf (fun _ => 0) n == 0.
Proof.
  induction n as [|n IH]; simpl; [|rewrite IH]; lra.
Qed.

Lemma sumf_shift (f : nat -> Q) (n : nat) :
  sumf f (S n) == f O + sumf (fun i => f (S i)) n.
Proof.
  induction n as [|n IH].
  - simpl. lra.
  - change (sumf f (S (S n))) with (sumf f (S n) + f (S n)).
    rewrite IH. simpl. lra.
Qed.

Lemma sumf_single (i : nat) (v : Q) (n : nat) :
  sumf (fun r => if Nat.eqb r i then v else 0) n
  == if (i <? n)%nat then v else 0.
Proof.
  induction n as [|n IH]; simpl sumf.
  - reflexivity.
  - rewrite IH.
    destruct (Nat.ltb_spec i n); destruct (Nat.ltb_spec i (S n));
      destruct (Nat.eqb_spec n i); try lia; lra.
Qed.

(** One term taken out of a sum. *)
Lemma sumf_split (f : nat -> Q) (i n : nat) :
  (i < n)%nat ->
  sumf f n == f i + sumf (fun r => if Nat.eqb r i then 0 else f r) n.
Proof.
  intro Hi.
  rewrite (sumf_ext f
             (fun r => (if Nat.eqb r i then f i else 0)
                       + (if Nat.eqb r i then 0 else f r))).
  - rewrite sumf_plus, sumf_single.
    rewrite (proj2 (Nat.ltb_lt _ _) Hi). reflexivity.
  - intros r _. destruct (Nat.eqb_spec r i) as [->|]; lra.
Qed.

Lemma sumf_swap (f : nat -> nat -> Q) (n m : nat) :
  sumf (fun i => sumf (fun j => f i j) m) n
  == sumf (fun j => sumf (fun i => f i j) n) m.
Proof.
  induction n as [|n IH]; simpl.
  - rewrite sumf_zero. reflexivity.
  - rewrite IH, <- sumf_plus. reflexivity.
Qed.

Lemma sum_as_sumf (l : list Q) :
  np.sum l == sumf (fun i => nth i l 0) (length l).
Proof.
  induction l as [|x l IH].
  - reflexivity.
  - change (length (x :: l)) with (S (length l)).
    rewrite sumf_shift. simpl. rewrite IH. reflexivity.
Qed.

Lemma sum_map_as_sumf {A : Type} (g : A -> Q) (d : A) (l : list A) :
  np.sum (map g l) == sumf (fun i => g (nth i l d)) (length l).
Proof.
  rewrite sum_as_sumf, length_map.
  apply sumf_ext. intros i Hi.
  rewrite (nth_indep _ 0 (g d)) by (rewrite length_map; assumption).
  rewrite map_nth. reflexivity.
Qed.

(** ** remove_noise_from_class *)

Lemma set_cell_shape (R C i j : nat) (v : Q) (x : list (list Q)) :
  has_shape R C x -> has_shape R C (util.set_cell i j v x).
Proof.
  intros [Hr Hc]. unfold util.set_cell. split.
  - rewrite length_set_at. exact Hr.
  - apply Forall_set_at; [|exact Hc].
    intro L. rewrite length_set_at.
    rewrite Forall_forall in Hc. apply Hc, nth_In, L.
Qed.

Lemma cell_set_cell (R C i j a b : nat) (v : Q) (x : list (list Q)) :
  has_shape R C x -> (i < R)%nat -> (j < C)%nat ->
  util.cell (util.set_cell i j v x) a b
  = if Nat.eqb a i && Nat.eqb b j then v else util.cell x a b.
Proof.
  intros [Hr Hc] Hi Hj. unfold util.cell, util.set_cell.
  destruct (Nat.eqb_spec a i) as [->|Hne]; cbn [andb].
  - rewrite nth_set_at_same by lia.
    destruct (Nat.eqb_spec b j) as [->|Hne].
    + apply nth_set_at_same.
      rewrite Forall_forall in Hc. rewrite (Hc (nth i x [])); [lia|].
      apply nth_In. lia.
    + apply nth_set_at_other. congruence.
  - rewrite nth_set_at_other by congruence. reflexivity.
Qed.

(** The assignment [x[cwn, others] = 0.0]. *)
Lemma zero_row_cells (K C r : nat) (others : list nat) (x : list (list Q)) :
  has_shape K C x -> (r < K)%nat ->
  Forall (fun i => (i < C)%nat) others ->
  let x1 := fold_left (fun x i => util.set_cell r i 0 x) others x in
  has_shape K C x1 /\
  forall a b : nat,
    util.cell x1 a b
    = if Nat.eqb a r && existsb (Nat.eqb b) others then 0
      else util.cell x a b.
Proof.
  intros Hshape Hr. revert x Hshape.
  induction others as [|i l IH]; intros x Hshape Hin; cbn [fold_left].
  - split; [exact Hshape|]. intros a b. cbn [existsb].
    rewrite andb_false_r. reflexivity.
  - inversion Hin as [|? ? Hi Hl]; subst.
    destruct (IH (util.set_cell r i 0 x)) as [Hs Hcell];
      [apply set_cell_shape, Hshape | exact Hl |].
    split; [exact Hs|].
    intros a b. rewrite Hcell.
    rewrite (cell_set_cell K C r i a b 0 x Hshape Hr Hi).
    cbn [existsb].
    destruct (Nat.eqb a r), (Nat.eqb b i), (existsb (Nat.eqb b) l);
      reflexivity.
Qed.

Lemma column_sum (x : list (list Q)) (i : nat) :
  np.sum (np.column x i) == sumf (fun r => util.cell x r i) (length x).
Proof.
  unfold np.column.
  rewrite (sum_map_as_sumf (fun r => nth i r 0) [] x). reflexivity.
Qed.

Lemma column_without_diagonal (x : list (list Q)) (i : nat) :
  (i < length x)%nat ->
  np.sum (np.column x i) - util.cell x i i == off_diagonal x i.
Proof.
  intro Hi. rewrite column_sum.
  rewrite (sumf_split (fun r => util.cell x r i) i (length x) Hi).
  unfold off_diagonal. lra.
Qed.

Lemma off_diagonal_ext (x y : list (list Q)) (i : nat) :
  length x = length y ->
  (forall a b, a <> b -> util.cell x a b = util.cell y a b) ->
  off_diagonal x i == off_diagonal y i.
Proof.
  intros Hl H. unfold off_diagonal. rewrite Hl.
  apply sumf_ext. intros r _.
  destruct (Nat.eqb_spec r i); [reflexivity|].
  rewrite H by assumption. reflexivity.
Qed.

(** The loop [for i in range(K): x[i][i] = 1 - ...]. *)
Lemma repair_cells (K : nat) (l : list nat) (x : list (list Q)) :
  has_shape K K x ->
  Forall (fun i => (i < K)%nat) l -> NoDup l ->
  let x2 :=
    fold_left
      (fun x i =>
         util.set_cell i i
           (1 - (np.sum (np.column x i) - util.cell x i i)) x) l x in
  has_shape K K x2 /\
  (forall a b, a <> b -> util.cell x2 a b = util.cell x a b) /\
  (forall i, ~ In i l -> util.cell x2 i i = util.cell x i i) /\
  (forall i, In i l -> util.cell x2 i i == 1 - off_diagonal x i).
Proof.
  revert x. induction l as [|i l IH]; intros x Hshape Hin Hnd;
    cbn [fold_left].
  - repeat split; try apply Hshape; try reflexivity.
    intros i [].
  - inversion Hin as [|? ? Hi Hl]; subst.
    inversion Hnd as [|? ? Hni Hnd']; subst.
    set (v := 1 - (np.sum (np.column x i) - util.cell x i i)).
    assert (Hs' : has_shape K K (util.set_cell i i v x))
      by apply set_cell_shape, Hshape.
    destruct (IH (util.set_cell i i v x) Hs' Hl Hnd')
      as (Hs2 & Hoff & Hkeep & Hfix).
    assert (Hoff' : forall a b, a <> b ->
              util.cell (util.set_cell i i v x) a b = util.cell x a b).
    { intros a b Hab.
      rewrite (cell_set_cell K K i i a b v x Hshape Hi Hi).
      destruct (Nat.eqb_spec a i), (Nat.eqb_spec b i); cbn [andb];
        try reflexivity. congruence. }
    assert (Hlen : length (util.set_cell i i v x) = length x).
    { destruct Hs' as [-> _]. destruct Hshape as [-> _]. reflexivity. }
    split; [exact Hs2|]. split; [|split].
    + intros a b Hab. rewrite Hoff by assumption. apply Hoff', Hab.
    + intros j Hj. rewrite Hkeep by (intro; apply Hj; right; assumption).
      rewrite (cell_set_cell K K i i j j v x Hshape Hi Hi).
      destruct (Nat.eqb_spec j i) as [->|]; [|reflexivity].
      exfalso. apply Hj. left. reflexivity.
    + intros j [<-|Hj].
      * rewrite Hkeep by assumption.
        rewrite (cell_set_cell K K i i i i v x Hshape Hi Hi).
        rewrite Nat.eqb_refl. cbn [andb]. unfold v.
        rewrite column_without_diagonal; [reflexivity|].
        destruct Hshape as [-> _]. exact Hi.
      * rewrite Hfix by assumption.
        rewrite (off_diagonal_ext _ x j Hlen Hoff'). reflexivity.
Qed.

(** C5. For a K-by-K matrix and a class index [c] in [0, K),
    [remove_noise_from_class] returns a K-by-K matrix in which every
    off-diagonal entry of row [c] is 0, every diagonal entry [i][i] is 1
    minus the sum of the off-diagonal entries of column [i], and every
    column sums to 1.  (The columns of the input need not sum to 1 for
    this.) *)
Theorem remove_noise_from_class_columns (m : list (list Q)) (c : nat) :
  has_shape (length m) (length m) m ->
  (c < length m)%nat ->
  exists x : list (list Q),
    util.remove_noise_from_class m (Z.of_nat c) = Ok x /\
    has_shape (length m) (length m) x /\
    (forall k, (k < length m)%nat -> k <> c -> util.cell x c k = 0) /\
    (forall i, (i < length m)%nat ->
               util.cell x i i == 1 - off_diagonal x i) /\
    (forall i, (i < length m)%nat -> np.sum (np.column x i) == 1).
Proof.
  intros Hshape Hc.
  set (K := length m) in *.
  unfold util.remove_noise_from_class, util.resolve_index. fold K.
  assert (Hr : ((0 <=? Z.of_nat c) && (Z.of_nat c <? Z.of_nat K))%Z = true).
  { apply andb_true_iff. split; [apply Z.leb_le | apply Z.ltb_lt]; lia. }
  rewrite Hr, Nat2Z.id. cbn [bind].
  set (others := filter (fun i => negb (Z.of_nat i =? Z.of_nat c)%Z)
                        (seq 0 K)).
  assert (Hothers : Forall (fun i => (i < K)%nat) others).
  { apply Forall_forall. intros i Hi. apply filter_In in Hi.
    destruct Hi as [Hi _]. apply in_seq in Hi. lia. }
  destruct (zero_row_cells K K c others m Hshape Hc Hothers)
    as [Hs1 Hcell1].
  set (x1 := fold_left (fun x i => util.set_cell c i 0 x) others m) in *.
  assert (Hseq : Forall (fun i => (i < K)%nat) (seq 0 K)).
  { apply Forall_forall. intros i Hi. apply in_seq in Hi. lia. }
  destruct (repair_cells K (seq 0 K) x1 Hs1 Hseq (seq_NoDup K 0))
    as (Hs2 & Hoff & _ & Hfix).
  eexists. split; [reflexivity|].
  set (x2 := fold_left _ (seq 0 K) x1) in *.
  assert (Hlen : length x2 = length x1).
  { destruct Hs2 as [-> _]. destruct Hs1 as [-> _]. reflexivity. }
  assert (Hdiag : forall i, (i < K)%nat ->
            util.cell x2 i i == 1 - off_diagonal x2 i).
  { intros i Hi. rewrite Hfix by (apply in_seq; lia).
    rewrite (off_diagonal_ext x2 x1 i Hlen Hoff). reflexivity. }
  split; [exact Hs2|]. split; [|split].
  - intros k Hk Hne. rewrite Hoff by congruence. rewrite Hcell1.
    rewrite Nat.eqb_refl. cbn [andb].
    assert (E : existsb (Nat.eqb k) others = true).
    { apply existsb_exists. exists k. split; [|apply Nat.eqb_refl].
      apply filter_In. split; [apply in_seq; lia|].
      apply negb_true_iff, Z.eqb_neq. lia. }
    rewrite E. reflexivity.
  - exact Hdiag.
  - intros i Hi.
    assert (Hi2 : (i < length x2)%nat) by (destruct Hs2 as [-> _]; exact Hi).
    pose proof (column_without_diagonal x2 i Hi2) as Hcol.
    pose proof (Hdiag i Hi) as Hd. lra.
Qed.

Lemma remove_noise_from_class_columns_witness :
  exists x : list (list Q),
    util.remove_noise_from_class
      [[8 # 10; 3 # 10; 1 # 10];
       [1 # 10; 6 # 10; 1 # 10];
       [1 # 10; 1 # 10; 8 # 10]] 1 = Ok x /\
    np.sum (np.column x 0) == 1 /\
    np.sum (np.column x 1) == 1 /\
    np.sum (np.column x 2) == 1.
Proof.
  destruct (remove_noise_from_class_columns
              [[8 # 10; 3 # 10; 1 # 10];
               [1 # 10; 6 # 10; 1 # 10];
               [1 # 10; 1 # 10; 8 # 10]] 1)
    as (x & Hx & _ & _ & _ & Hcol).
  - split; [reflexivity | repeat constructor].
  - simpl. lia.
  - exists x. split; [exact Hx|].
    repeat split; apply Hcol; simpl; lia.
Defined.

(** ** merge_probs *)

Lemma fold_max_lower (ms : list Z) (m lo : Z) :
  (lo <= m)%Z -> (lo <= fold_left Z.max ms m)%Z.
Proof.
  revert m. induction ms as [|x ms IH]; intros m H; simpl; [exact H|].
  apply IH. lia.
Qed.

Lemma fold_max_upper (ms : list Z) (m : Z) :
  Forall (fun x => (x <= fold_left Z.max ms m)%Z) (m :: ms).
Proof.
  revert m. induction ms as [|x ms IH]; intro m; simpl.
  - repeat constructor. lia.
  - specialize (IH (Z.max m x)). inversion IH as [|? ? H1 H2]; subst.
    constructor; [lia|]. constructor; [lia | exact H2].
Qed.

Lemma fold_max_In (ms : list Z) (m : Z) : In (fold_left Z.max ms m) (m :: ms).
Proof.
  revert m. induction ms as [|x ms IH]; intro m; simpl.
  - left. reflexivity.
  - destruct (IH (Z.max m x)) as [E|Hin].
    + rewrite <- E. destruct (Z.max_spec m x) as [[_ ->]|[_ ->]]; auto.
    + right. right. exact Hin.
Qed.

Lemma minus_one_in (maps : list Z) :
  existsb (Z.eqb (-1)) maps = true <-> In (-1)%Z maps.
Proof.
  rewrite existsb_exists. split.
  - intros (x & Hx & E). apply Z.eqb_eq in E. subst. exact Hx.
  - intro H. exists (-1)%Z. split; [exact H | reflexivity].
Qed.

Lemma add_column_map (j i : nat) (probs : list (list Q))
    (f : list Q -> list Q) :
  add_column j i (map f probs) probs
  = map (fun pr => np.add_at j (nth i pr 0) (f pr)) probs.
Proof.
  induction probs as [|pr probs IH]; simpl; [reflexivity|].
  rewrite IH. reflexivity.
Qed.

Lemma merge_loop_rows (indices : list nat) (maps : list Z)
    (probs : list (list Q)) (f : list Q -> list Q) :
  Forall (fun i => (i < length maps)%nat) indices ->
  merge_loop indices maps probs (map f probs)
  = Ok (map (fun pr => row_merge indices maps pr (f pr)) probs).
Proof.
  revert f. induction indices as [|i rest IH]; intros f Hin.
  - reflexivity.
  - inversion Hin as [|? ? Hi Hrest]; subst.
    cbn [merge_loop row_merge].
    rewrite (nth_error_nth' maps (-1)%Z Hi).
    destruct (0 <=? nth i maps (-1))%Z.
    + rewrite (add_column_map _ _ _ f).
      rewrite (IH (fun pr => np.add_at _ (nth i pr 0) (f pr)) Hrest).
      reflexivity.
    + apply IH, Hrest.
Qed.


Lemma length_row_merge (indices : list nat) (maps : list Z)
    (prow mrow : list Q) :
  length (row_merge indices maps prow mrow) = length mrow.
Proof.
  revert mrow. induction indices as [|i rest IH]; intro mrow; simpl.
  - reflexivity.
  - destruct (0 <=? nth i maps (-1))%Z; rewrite IH;
      [apply length_add_at | reflexivity].
Qed.

Lemma nth_row_merge (maps : list Z) (prow : list Q) (j k s : nat)
    (mrow : list Q) :
  (j < length mrow)%nat ->
  nth j (row_merge (seq s k) maps prow mrow) 0
  == nth j mrow 0 + sumf (fun t => share maps prow j (s + t)) k.
Proof.
  intro Hj. revert s mrow Hj.
  induction k as [|k IH]; intros s mrow Hj.
  - simpl. lra.
  - rewrite sumf_shift. cbn [seq row_merge].
    assert (Hsh : sumf (fun i => share maps prow j (s + S i)) k
                  == sumf (fun t => share maps prow j (S s + t)) k).
    { apply sumf_ext. intros t _.
      replace (s + S t)%nat with (S s + t)%nat by lia. reflexivity. }
    rewrite Hsh, Nat.add_0_r. unfold share at 1.
    destruct (Z.leb_spec 0 (nth s maps (-1)%Z)) as [Hpos|Hneg].
    + rewrite IH by (rewrite length_add_at; exact Hj).
      destruct (Z.eqb_spec (nth s maps (-1)%Z) (Z.of_nat j)) as [E|N].
      * rewrite E, Nat2Z.id, nth_add_at_same by exact Hj. lra.
      * rewrite nth_add_at_other by lia. lra.
    + rewrite IH by exact Hj.
      destruct (Z.eqb_spec (nth s maps (-1)%Z) (Z.of_nat j)) as [E|N];
        [lia | lra].
Qed.

Lemma share_total (maps : list Z) (prow : list Q) (i W : nat) :
  (0 <= nth i maps (-1) < Z.of_nat W)%Z ->
  sumf (fun j => share maps prow j i) W == nth i prow 0.
Proof.
  intro H. unfold share.
  rewrite (sumf_ext _ (fun j => if Nat.eqb j (Z.to_nat (nth i maps (-1)%Z))
                                then nth i prow 0 else 0)).
  - rewrite sumf_single.
    destruct (Nat.ltb_spec (Z.to_nat (nth i maps (-1)%Z)) W);
      [reflexivity | lia].
  - intros j _.
    destruct (Z.eqb_spec (nth i maps (-1)%Z) (Z.of_nat j));
      destruct (Nat.eqb_spec j (Z.to_nat (nth i maps (-1)%Z)));
      try reflexivity; lia.
Qed.

(** Without dropped columns the merged row keeps the mass of the input
    row. *)
Lemma merged_row_sum (maps : list Z) (prow mrow : list Q) (W : nat) :
  length prow = length maps ->
  length mrow = W ->
  Forall (fun m => (0 <= m < Z.of_nat W)%Z) maps ->
  (forall j, (j < W)%nat -> nth j mrow 0 == class_mass maps prow j) ->
  np.sum mrow == np.sum prow.
Proof.
  intros Hp Hm Hmaps Hcell.
  rewrite (sum_as_sumf mrow), Hm.
  rewrite (sumf_ext _ _ W Hcell). unfold class_mass.
  rewrite (sumf_swap (fun j i => share maps prow j i) W (length maps)).
  rewrite (sum_as_sumf prow), Hp.
  apply sumf_ext. intros i Hi. apply share_total.
  rewrite Forall_forall in Hmaps. apply Hmaps, nth_In, Hi.
Qed.

Lemma repeat_as_map {A B : Type} (z : B) (l : list A) :
  repeat z (length l) = map (fun _ => z) l.
Proof. induction l; simpl; congruence. Qed.

Lemma Forall2_map_self {A B : Type} (R : A -> B -> Prop) (g : A -> B)
    (l : list A) :
  (forall x, In x l -> R x (g x)) -> Forall2 R l (map g l).
Proof.
  induction l as [|x l IH]; intro H; simpl; constructor.
  - apply H. left. reflexivity.
  - apply IH. intros y Hy. apply H. right. exact Hy.
Qed.

Lemma merge_probs_unfold (probs : ndarray Q) (m : Z) (ms : list Z) :
  (shape1 probs <= length (m :: ms))%nat ->
  (-1 <= fold_left Z.max ms m)%Z ->
  let W := Z.to_nat (fold_left Z.max ms m + 1) in
  merge_probs probs (m :: ms)
  = if existsb (Z.eqb (-1)) (m :: ms)
    then Ok (mk_ndarray W (divide_rows (merged_rows probs (m :: ms) W)))
    else Ok (mk_ndarray W (map (map Fin) (merged_rows probs (m :: ms) W))).
Proof.
  intros Hlen Hmx W. unfold merge_probs, np_max. cbn [bind].
  destruct (Z.ltb_spec (fold_left Z.max ms m + 1) 0) as [L|_]; [lia|].
  fold W. rewrite (repeat_as_map (repeat 0 W) (rows probs)).
  rewrite merge_loop_rows.
  - reflexivity.
  - apply Forall_forall. intros i Hi. apply in_seq in Hi. lia.
Qed.

Lemma merged_rows_spec (probs : ndarray Q) (maps : list Z) (W : nat) :
  length maps = shape1 probs ->
  Forall2 (fun prow mrow =>
             length mrow = W /\
             forall j, (j < W)%nat ->
                       nth j mrow 0 == class_mass maps prow j)
          (rows probs) (merged_rows probs maps W).
Proof.
  intro Hlen. unfold merged_rows. apply Forall2_map_self.
  intros prow _. split.
  - rewrite length_row_merge. apply repeat_length.
  - intros j Hj. rewrite nth_row_merge by (rewrite repeat_length; exact Hj).
    rewrite nth_repeat. unfold class_mass. rewrite Hlen.
    rewrite (sumf_ext _ (share maps prow j)); [lra|].
    intros t _. reflexivity.
Qed.

Lemma nth_identity_map (K i : nat) :
  (i < K)%nat -> nth i (identity_map K) (-1)%Z = Z.of_nat i.
Proof.
  intro Hi. unfold identity_map.
  rewrite (nth_indep _ (-1)%Z (Z.of_nat 0))
    by (rewrite length_map, length_seq; exact Hi).
  rewrite map_nth, seq_nth by exact Hi. reflexivity.
Qed.

Lemma identity_map_In (K : nat) (x : Z) :
  In x (identity_map K) <-> (0 <= x < Z.of_nat K)%Z.
Proof.
  unfold identity_map. rewrite in_map_iff. split.
  - intros (i & <- & Hi). apply in_seq in Hi. lia.
  - intro H. exists (Z.to_nat x). split; [lia | apply in_seq; lia].
Qed.

Lemma Qplus_0_l_eq (q : Q) : 0 + q = q.
Proof.
  destruct q as [a b]. unfold Qplus. simpl. rewrite Z.mul_1_r. reflexivity.
Qed.

Lemma add_at_app (l1 l2 : list Q) (x d : Q) :
  np.add_at (length l1) d (l1 ++ x :: l2) = l1 ++ (x + d) :: l2.
Proof.
  induction l1 as [|y l1 IH]; simpl; [reflexivity|].
  rewrite IH. reflexivity.
Qed.

Lemma firstn_succ (s : nat) (l : list Q) :
  (s < length l)%nat -> firstn (S s) l = firstn s l ++ [nth s l 0].
Proof.
  revert s. induction l as [|x l IH]; intros s Hs; simpl in Hs; [lia|].
  destruct s as [|s]; [reflexivity|].
  cbn [firstn nth app]. rewrite <- IH by lia. reflexivity.
Qed.

(** Under the identity map the loop copies the row, entry by entry. *)
Lemma row_merge_identity (K : nat) (prow : list Q) (k s : nat) :
  length prow = K -> (s + k = K)%nat ->
  row_merge (seq s k) (identity_map K) prow (firstn s prow ++ repeat 0 k)
  = prow.
Proof.
  intro Hlen. revert s.
  induction k as [|k IH]; intros s Hs.
  - cbn [seq row_merge repeat]. rewrite app_nil_r.
    apply firstn_all2. lia.
  - cbn [seq row_merge repeat].
    rewrite nth_identity_map by lia.
    destruct (Z.leb_spec 0 (Z.of_nat s)) as [_|L]; [|lia].
    rewrite Nat2Z.id.
    assert (Hs' : length (firstn s prow) = s)
      by (rewrite length_firstn; lia).
    pose proof (add_at_app (firstn s prow) (repeat 0 k) 0 (nth s prow 0))
      as Happ.
    rewrite Hs' in Happ. rewrite Happ, Qplus_0_l_eq.
    replace (firstn s prow ++ nth s prow 0 :: repeat 0 k)
      with (firstn (S s) prow ++ repeat 0 k).
    + apply IH. lia.
    + rewrite (firstn_succ s prow) by lia.
      rewrite <- app_assoc. reflexivity.
Qed.

Lemma np_max_identity (K : nat) :
  np_max (identity_map (S K)) = Ok (Z.of_nat K).
Proof.
  unfold identity_map. cbn [seq map np_max]. f_equal.
  set (ms := map Z.of_nat (seq 1 K)).
  pose proof (fold_max_In ms (Z.of_nat 0)) as Hin.
  pose proof (fold_max_upper ms (Z.of_nat 0)) as Hup.
  change (Z.of_nat 0 :: ms) with (identity_map (S K)) in Hin, Hup.
  apply identity_map_In in Hin.
  rewrite Forall_forall in Hup.
  specialize (Hup (Z.of_nat K)).
  assert (In (Z.of_nat K) (identity_map (S K)))
    by (apply identity_map_In; lia).
  specialize (Hup H). lia.
Qed.

(** C6. For a matrix with N rows and K >= 1 columns, [merge_probs] with the
    identity class map returns the matrix itself: every entry of the result
    is the corresponding entry of the input, and nothing is divided. *)
Theorem merge_probs_identity (probs : ndarray Q) :
  well_shaped probs ->
  (1 <= shape1 probs)%nat ->
  merge_probs probs (identity_map (shape1 probs))
  = Ok (mk_ndarray (shape1 probs) (map (map Fin) (rows probs))).
Proof.
  intros Hwf HK.
  destruct (shape1 probs) as [|K] eqn:EK; [lia|].
  pose proof (np_max_identity K) as Hmax.
  unfold identity_map in *. cbn [seq map] in *.
  cbn [np_max] in Hmax. injection Hmax as Hmax.
  change (Z.of_nat 0) with 0%Z in *.
  rewrite merge_probs_unfold.
  - rewrite Hmax.
    replace (Z.to_nat (Z.of_nat K + 1)) with (S K) by lia.
    assert (E : existsb (Z.eqb (-1)) (0%Z :: map Z.of_nat (seq 1 K))
                = false).
    { destruct (existsb _ _) eqn:E'; [|reflexivity].
      apply minus_one_in in E'.
      change (In (-1)%Z (identity_map (S K))) in E'.
      apply identity_map_In in E'. lia. }
    rewrite E. f_equal. f_equal. f_equal.
    unfold merged_rows. rewrite <- (map_id (rows probs)) at 2.
    apply map_ext_in. intros prow Hprow. rewrite EK.
    unfold well_shaped in Hwf. rewrite Forall_forall in Hwf.
    apply (row_merge_identity (S K) prow (S K) 0).
    + rewrite (Hwf prow Hprow). exact EK.
    + reflexivity.
  - cbn [length]. rewrite length_map, length_seq. lia.
  - rewrite Hmax. lia.
Qed.

Lemma merge_probs_identity_witness :
  merge_probs (mk_ndarray 3 [[9 # 10; 1 # 10; 0]; [6 # 10; 2 # 10; 2 # 10]])
              [0; 1; 2]%Z
  = Ok (mk_ndarray 3 [[Fin (9 # 10); Fin (1 # 10); Fin 0];
                      [Fin (6 # 10); Fin (2 # 10); Fin (2 # 10)]]).
Proof.
  apply (merge_probs_identity
           (mk_ndarray 3 [[9 # 10; 1 # 10; 0]; [6 # 10; 2 # 10; 2 # 10]])).
  - repeat constructor.
  - simpl. lia.
Defined.

(** ** Inputs of mismatched shape *)







(** ** clip_noise_rates and clip_values *)

Lemma imap_from {A B : Type} (f : nat -> A -> B) (l : list A) (s i : nat)
    (d : A) (d' : B) :
  (i < length l)%nat ->
  nth i (map (fun p => f (fst p) (snd p)) (combine (seq s (length l)) l)) d'
  = f (s + i)%nat (nth i l d).
Proof.
  revert s i. induction l as [|x l IH]; intros s i Hi; simpl in Hi; [lia|].
  cbn [length seq combine map].
  destruct i as [|i].
  - simpl. rewrite Nat.add_0_r. reflexivity.
  - cbn [nth]. rewrite IH by lia. f_equal. lia.
Qed.

Lemma nth_imap {A B : Type} (f : nat -> A -> B) (l : list A) (i : nat)
    (d : A) (d' : B) :
  (i < length l)%nat -> nth i (util.imap f l) d' = f i (nth i l d).
Proof.
  intro Hi. unfold util.imap. rewrite (imap_from f l 0 i d d' Hi).
  reflexivity.
Qed.

Lemma length_imap {A B : Type} (f : nat -> A -> B) (l : list A) :
  length (util.imap f l) = length l.
Proof.
  unfold util.imap.
  rewrite length_map, length_combine, length_seq. lia.
Qed.

Lemma shape_row {A : Type} (R C r : nat) (m : list (list A)) :
  has_shape R C m -> (r < R)%nat -> length (nth r m []) = C.
Proof.
  intros [Hr Hc] H. rewrite Forall_forall in Hc.
  apply Hc, nth_In. lia.
Qed.

Lemma shape_hd {A : Type} (R C : nat) (m : list (list A)) :
  has_shape R C m -> (1 <= R)%nat -> length (hd [] m) = C.
Proof.
  intros Hs HR. pose proof (shape_row R C 0 m Hs ltac:(lia)) as H.
  destruct m; exact H.
Qed.

Lemma nth_map_rows {A B : Type} (f : A -> B) (m : list (list A)) (r : nat) :
  nth r (map (map f) m) [] = map f (nth r m []).
Proof. exact (map_nth (map f) m [] r). Qed.

Lemma nth_map_in {A B : Type} (f : A -> B) (l : list A) (i : nat)
    (d : A) (d' : B) :
  (i < length l)%nat -> nth i (map f l) d' = f (nth i l d).
Proof.
  intro Hi. rewrite (nth_indep _ d' (f d)) by (rewrite length_map; exact Hi).
  apply map_nth.
Qed.

Lemma diagonal_spec (K : nat) (m : list (list Q)) :
  has_shape K K m -> (1 <= K)%nat ->
  length (util.diagonal m) = K /\
  forall i, (i < K)%nat -> nth i (util.diagonal m) 0 = util.cell m i i.
Proof.
  intros Hs HK. unfold util.diagonal.
  rewrite (shape_hd K K m Hs HK).
  assert (Hl : length m = K) by apply Hs.
  rewrite firstn_all2 by lia.
  split.
  - rewrite length_imap. exact Hl.
  - intros i Hi. rewrite (nth_imap _ m i [] 0) by lia. reflexivity.
Qed.

Lemma refilled_spec (K : nat) (m : list (list Q)) :
  has_shape K K m -> (1 <= K)%nat ->
  has_shape K K (refilled m) /\
  forall r c, (r < K)%nat -> (c < K)%nat ->
    util.cell (refilled m) r c
    = if Nat.eqb r c then util.cell m r r
      else util.clip_noise_rate_range (util.cell m r c).
Proof.
  intros Hs HK.
  destruct (diagonal_spec K m Hs HK) as [Hdl Hd].
  assert (Hl : length m = K) by apply Hs.
  assert (Hrow : forall r, (r < K)%nat ->
            nth r (refilled m) []
            = np.set_at r (util.cell m r r)
                (map util.clip_noise_rate_range (nth r m []))).
  { intros r Hr. unfold refilled, util.fill_diagonal.
    rewrite (nth_imap _ _ r [] []) by (rewrite length_map; lia).
    rewrite Hdl, (proj2 (Nat.ltb_lt r K) Hr), (Hd r Hr).
    rewrite nth_map_rows. reflexivity. }
  split.
  - split.
    + unfold refilled, util.fill_diagonal.
      rewrite length_imap, length_map. exact Hl.
    + apply Forall_forall. intros row Hin.
      destruct (In_nth _ _ [] Hin) as (r & Hr & <-).
      assert (Hr' : (r < K)%nat).
      { unfold refilled, util.fill_diagonal in Hr.
        rewrite length_imap, length_map in Hr. lia. }
      rewrite (Hrow r Hr'), length_set_at, length_map.
      apply (shape_row K K r m Hs Hr').
  - intros r c Hr Hc. unfold util.cell at 1. rewrite (Hrow r Hr).
    destruct (Nat.eqb_spec r c) as [->|Hne].
    + apply nth_set_at_same. rewrite length_map.
      rewrite (shape_row K K c m Hs Hc). exact Hc.
    + rewrite nth_set_at_other by exact Hne.
      apply nth_map_in. rewrite (shape_row K K r m Hs Hr). exact Hc.
Qed.

Lemma np_divide_zero (n d : Q) : d == 0 -> is_finite (np_divide n d) = false.
Proof.
  intro H. unfold np_divide. rewrite (Qeq_eq_bool _ _ H).
  destruct (Qeq_bool n 0); [reflexivity|].
  destruct (Qlt_bool 0 n); reflexivity.
Qed.

Lemma np_divide_nonzero (n d : Q) : ~ d == 0 -> np_divide n d = Fin (n / d).
Proof.
  intro H. unfold np_divide.
  destruct (Qeq_bool d 0) eqn:E; [|reflexivity].
  apply Qeq_bool_eq in E. contradiction.
Qed.

(** Every cell of the result of [clip_noise_rates] is the refilled cell
    divided by the sum of its column. *)
Lemma clip_noise_rates_cells (K : nat) (m : list (list Q)) :
  has_shape K K m -> (1 <= K)%nat ->
  exists out : list (list float),
    util.clip_noise_rates m = Ok out /\
    has_shape K K out /\
    forall r c, (r < K)%nat -> (c < K)%nat ->
      fcell out r c
      = np_divide (util.cell (refilled m) r c)
                  (np.sum (np.column (refilled m) c)).
Proof.
  intros Hs HK.
  destruct (refilled_spec K m Hs HK) as [Hfs _].
  unfold util.clip_noise_rates, np.vectorize2.
  assert (Hne : forallb (fun r => Nat.eqb (length r) 0) m = false).
  { pose proof (shape_hd K K m Hs HK) as Hh.
    destruct m as [|row m]; [simpl in Hh; lia|].
    cbn [forallb hd] in *. rewrite Hh.
    destruct K; [lia | reflexivity]. }
  rewrite Hne. cbn [bind]. fold (refilled m).
  set (filled := refilled m) in *.
  assert (Hfl : length filled = K) by apply Hfs.
  eexists. split; [reflexivity|]. split.
  - split.
    + unfold util.divide_columns. rewrite length_map. exact Hfl.
    + apply Forall_forall. intros row Hin.
      unfold util.divide_columns in Hin. apply in_map_iff in Hin.
      destruct Hin as (row' & <- & Hin').
      rewrite length_imap.
      destruct Hfs as [_ Hc]. rewrite Forall_forall in Hc. apply Hc, Hin'.
  - intros r c Hr Hc. unfold fcell, util.divide_columns.
    rewrite (nth_map_in _ filled r [] []) by lia.
    rewrite (nth_imap _ _ c 0 NaN)
      by (rewrite (shape_row K K r filled Hfs Hr); exact Hc).
    unfold util.sum_axis0. rewrite (shape_hd K K filled Hfs HK).
    rewrite (nth_map_in _ (seq 0 K) c O 0) by (rewrite length_seq; exact Hc).
    rewrite seq_nth by exact Hc. reflexivity.
Qed.

(** An array of size 0 is refused by [np.vectorize]. *)
Lemma clip_noise_rates_no_entries :
  util.clip_noise_rates [] = Raise ValueError /\
  util.clip_values [] 0 1 None = Raise ValueError.
Proof. split; reflexivity. Qed.

Lemma clip_noise_rate_bounds (x : Q) :
  0 <= x <= 1 ->
  (9999 # 10000) * x <= util.clip_noise_rate_range x <= x /\
  (x <= 9999 # 10000 -> util.clip_noise_rate_range x == x).
Proof.
  intros [H0 H1]. unfold util.clip_noise_rate_range.
  assert (Hmax : Qmax x 0 == x) by (apply Q.max_l; exact H0).
  destruct (Qlt_le_dec (9999 # 10000) x) as [L|G].
  - assert (Hmin : Qmin (Qmax x 0) (9999 # 10000) == 9999 # 10000).
    { apply Q.min_r. rewrite Hmax. lra. }
    rewrite Hmin. split; [lra | intro; lra].
  - assert (Hmin : Qmin (Qmax x 0) (9999 # 10000) == x).
    { rewrite <- Hmax at 2. apply Q.min_l. rewrite Hmax. exact G. }
    rewrite Hmin. split; [lra | intro; reflexivity].
Qed.

Lemma refilled_column_sum (K : nat) (m : list (list Q)) (c : nat) :
  noise_matrix K m -> (1 <= K)%nat -> (c < K)%nat ->
  9999 # 10000 <= np.sum (np.column (refilled m) c) <= 1 /\
  ((forall r, (r < K)%nat -> r <> c -> util.cell m r c <= 9999 # 10000) ->
   np.sum (np.column (refilled m) c) == 1).
Proof.
  intros (Hs & Hrange & Hsum) HK Hc.
  destruct (refilled_spec K m Hs HK) as [Hfs Hcell].
  assert (Hl : length m = K) by apply Hs.
  assert (Hfl : length (refilled m) = K) by apply Hfs.
  pose proof (Hsum c Hc) as H1. rewrite column_sum, Hl in H1.
  rewrite column_sum, Hfl.
  assert (Hpt : forall r, (r < K)%nat ->
            (9999 # 10000) * util.cell m r c
            <= util.cell (refilled m) r c <= util.cell m r c).
  { intros r Hr. rewrite (Hcell r c Hr Hc).
    pose proof (Hrange r c Hr Hc) as Hx.
    destruct (Nat.eqb_spec r c) as [->|_].
    - lra.
    - apply clip_noise_rate_bounds, Hx. }
  split; [split|].
  - rewrite <- (Qmult_1_r (9999 # 10000)), <- H1, Qmult_comm, <- sumf_scale.
    apply sumf_le. intros r Hr. specialize (Hpt r Hr). lra.
  - rewrite <- H1. apply sumf_le. intros r Hr. apply Hpt, Hr.
  - intro Hsmall. rewrite <- H1. apply sumf_ext. intros r Hr.
    rewrite (Hcell r c Hr Hc).
    destruct (Nat.eqb_spec r c) as [->|Hne]; [reflexivity|].
    apply clip_noise_rate_bounds; [apply Hrange | apply Hsmall]; assumption.
Qed.

Lemma skewed_matrix_valid : noise_matrix 2 skewed_matrix.
Proof.
  split; [|split].
  - split; [reflexivity | repeat constructor].
  - intros [|[|r]] [|[|c]] Hr Hc; try lia;
      unfold util.cell, skewed_matrix; cbn [nth]; lra.
  - intros [|[|c]] Hc; try lia; vm_compute; reflexivity.
Qed.




(** ** Division by a zero sum *)

Lemma divide_rows_zero (merged : list (list Q)) :
  Forall2 (fun mrow orow =>
             length orow = length mrow /\
             (np.sum mrow == 0 ->
              Forall (fun v => is_finite v = false) orow))
          merged (divide_rows merged).
Proof.
  unfold divide_rows. apply Forall2_map_self. intros mrow _. split.
  - apply length_map.
  - intro Hz. apply Forall_forall. intros v Hv.
    apply in_map_iff in Hv. destruct Hv as (q & <- & _).
    apply np_divide_zero, Hz.
Qed.

(** C2, as stated, fails: each of the three operations returns NaN entries
    on an input whose renormalization divides by zero, and raises
    nothing. *)
Lemma degenerate_inputs_return_nan :
  (util.py_sum (map (util.clip_range 0 1) [- (1); - (1)]) == 0 /\
   ~ 1 == 0 /\
   util.clip_values [- (1); - (1)] 0 1 (Some 1) = Ok [NaN; NaN]) /\
  (np.sum (np.column (refilled [[0; 0]; [0; 1]]) 0) == 0 /\
   exists out : list (list float),
     util.clip_noise_rates [[0; 0]; [0; 1]] = Ok out /\
     fcell out 0 0 = NaN /\ fcell out 1 0 = NaN) /\
  (merge_probs (mk_ndarray 2 [[1; 0]]) [-1; 0]%Z
   = Ok (mk_ndarray 1 [[NaN]])).
Proof.
  split; [|split].
  - split; [vm_compute; reflexivity|].
    split; [vm_compute; discriminate | vm_compute; reflexivity].
  - split; [vm_compute; reflexivity|].
    eexists. split; [vm_compute; reflexivity|].
    split; reflexivity.
  - vm_compute. reflexivity.
Qed.

(** C2, amended.  When a renormalization step divides by zero, no error is
    raised: the division is carried out and the operation returns a result
    whose affected entries are NaN or infinite.  For [clip_values] these are
    all entries, when the clipped values sum to 0; for [clip_noise_rates],
    the entries of a column whose sum is 0 after clipping; for
    [merge_probs] with a -1 in the class map, the entries of a row whose
    merged entries sum to 0. *)
Theorem zero_sum_division_returns :
  (forall (x : list Q) (low high : Q) (new_sum : option Q),
      x <> [] ->
      util.py_sum (map (util.clip_range low high) x) == 0 ->
      exists out : list float,
        util.clip_values x low high new_sum = Ok out /\
        length out = length x /\
        Forall (fun v => is_finite v = false) out) /\
  (forall (K : nat) (m : list (list Q)) (c : nat),
      has_shape K K m -> (1 <= K)%nat -> (c < K)%nat ->
      np.sum (np.column (refilled m) c) == 0 ->
      exists out : list (list float),
        util.clip_noise_rates m = Ok out /\
        forall r, (r < K)%nat -> is_finite (fcell out r c) = false) /\
  (forall (probs : ndarray Q) (maps : list Z),
      length maps = shape1 probs ->
      Forall (fun m => (-1 <= m)%Z) maps ->
      In (-1)%Z maps ->
      exists (W : nat) (merged : list (list Q)),
        Forall2 (fun prow mrow =>
                   length mrow = W /\
                   forall j, (j < W)%nat ->
                             nth j mrow 0 == class_mass maps prow j)
                (rows probs) merged /\
        merge_probs probs maps = Ok (mk_ndarray W (divide_rows merged)) /\
        Forall2 (fun mrow orow =>
                   length orow = length mrow /\
                   (np.sum mrow == 0 ->
                    Forall (fun v => is_finite v = false) orow))
                merged (divide_rows merged)).
Proof.
  split; [|split].
  - intros x low high new_sum Hne Hz.
    unfold util.clip_values, np.vectorize1.
    destruct x as [|a x]; [congruence|]. cbn [bind].
    eexists. split; [reflexivity|]. split.
    + rewrite !length_map. reflexivity.
    + apply Forall_forall. intros v Hv.
      apply in_map_iff in Hv. destruct Hv as (q & <- & _).
      apply np_divide_zero, Hz.
  - intros K m c Hs HK Hc Hz.
    destruct (clip_noise_rates_cells K m Hs HK) as (out & Hout & _ & Hcell).
    exists out. split; [exact Hout|].
    intros r Hr. rewrite (Hcell r c Hr Hc). apply np_divide_zero, Hz.
  - intros probs [|m ms] Hlen Hvalid Hin; [contradiction|].
    assert (Hmx : (-1 <= fold_left Z.max ms m)%Z).
    { apply fold_max_lower. inversion Hvalid; assumption. }
    pose proof (merge_probs_unfold probs m ms ltac:(lia) Hmx) as Hrun.
    cbv zeta in Hrun.
    rewrite (proj2 (minus_one_in (m :: ms)) Hin) in Hrun.
    eexists. eexists. split; [|split; [exact Hrun|]].
    + apply merged_rows_spec, Hlen.
    + apply divide_rows_zero.
Qed.

Lemma zero_sum_division_returns_witness :
  (exists out : list float,
      util.clip_values [- (1); - (1)] 0 1 (Some 1) = Ok out /\
      Forall (fun v => is_finite v = false) out) /\
  (exists out : list (list float),
      util.clip_noise_rates [[0; 0]; [0; 1]] = Ok out /\
      is_finite (fcell out 1 0) = false) /\
  is_ok (merge_probs (mk_ndarray 2 [[1; 0]]) [-1; 0]%Z) = true.
Proof.
  destruct zero_sum_division_returns as (Hclip & Hrates & Hmerge).
  split; [|split].
  - destruct (Hclip [- (1); - (1)] 0 1 (Some 1)) as (out & Hout & _ & Hnan).
    + discriminate.
    + vm_compute. reflexivity.
    + exists out. split; assumption.
  - destruct (Hrates 2%nat [[0; 0]; [0; 1]] 0%nat) as (out & Hout & Hnan).
    + split; [reflexivity | repeat constructor].
    + lia.
    + lia.
    + vm_compute. reflexivity.
    + exists out. split; [exact Hout | apply Hnan; lia].
  - destruct (Hmerge (mk_ndarray 2 [[1; 0]]) [-1; 0]%Z)
      as (W & merged & _ & Hrun & _).
    + reflexivity.
    + repeat constructor; lia.
    + left. reflexivity.
    + rewrite Hrun. reflexivity.
Defined.

(** * Further properties of the modelled code *)

(** ** clip_values keeps the sum *)






Lemma clip_range_bounds (low high v : Q) :
  low <= high ->
  low <= util.clip_range low high v <= high.
Proof.
  intro H. unfold util.clip_range. split.
  - apply Q.min_glb; [apply Q.le_max_r | exact H].
  - apply Q.le_min_r.
Qed.





(** ** merge_probs renormalizes to 1 *)




(** ** clip_noise_rates on noise matrices *)

Lemma refilled_cell_bounds (K : nat) (m : list (list Q)) (r c : nat) :
  noise_matrix K m -> (1 <= K)%nat -> (r < K)%nat -> (c < K)%nat ->
  (9999 # 10000) * util.cell m r c
  <= util.cell (refilled m) r c <= util.cell m r c /\
  (r = c \/ util.cell m r c <= 9999 # 10000 ->
   util.cell (refilled m) r c == util.cell m r c).
Proof.
  intros (Hs & Hrange & _) HK Hr Hc.
  destruct (refilled_spec K m Hs HK) as [_ Hcell].
  rewrite (Hcell r c Hr Hc).
  pose proof (Hrange r c Hr Hc) as Hx.
  destruct (Nat.eqb_spec r c) as [->|Hne].
  - split; [lra | intros _; reflexivity].
  - destruct (clip_noise_rate_bounds _ Hx) as [Hb Hkeep].
    split; [exact Hb|]. intros [E|Hsmall]; [congruence | apply Hkeep, Hsmall].
Qed.

Lemma sumf_nonneg (f : nat -> Q) (n : nat) :
  (forall i, (i < n)%nat -> 0 <= f i) -> 0 <= sumf f n.
Proof.
  intro H. rewrite <- (sumf_zero n). apply sumf_le. exact H.
Qed.



(** The result of [clip_noise_rates] on a noise matrix is again a matrix of
    probabilities: every entry is finite and lies in [[0, 1]]. *)
Theorem clip_noise_rates_range (K : nat) (m : list (list Q)) :
  noise_matrix K m -> (1 <= K)%nat ->
  exists out : list (list float),
    util.clip_noise_rates m = Ok out /\
    forall r c, (r < K)%nat -> (c < K)%nat ->
      is_finite (fcell out r c) = true /\
      0 <= value (fcell out r c) <= 1.
Proof.
  intros Hnm HK.
  pose proof Hnm as (Hs & Hrange & _).
  destruct (clip_noise_rates_cells K m Hs HK) as (out & Hout & _ & Hcell).
  destruct (refilled_spec K m Hs HK) as [Hfs _].
  assert (Hfl : length (refilled m) = K) by apply Hfs.
  exists out. split; [exact Hout|].
  intros r c Hr Hc.
  destruct (refilled_column_sum K m c Hnm HK Hc) as [[Hlo _] _].
  assert (Hnn : forall r', (r' < K)%nat -> 0 <= util.cell (refilled m) r' c).
  { intros r' Hr'.
    destruct (refilled_cell_bounds K m r' c Hnm HK Hr' Hc) as [[Hb _] _].
    pose proof (Hrange r' c Hr' Hc). lra. }
  assert (Hle : util.cell (refilled m) r c
                <= np.sum (np.column (refilled m) c)).
  { rewrite column_sum, Hfl.
    rewrite (sumf_split (fun r' => util.cell (refilled m) r' c) r K Hr).
    assert (0 <= sumf (fun r' => if Nat.eqb r' r then 0
                                 else util.cell (refilled m) r' c) K).
    { apply sumf_nonneg. intros i Hi.
      destruct (Nat.eqb i r); [lra | apply Hnn, Hi]. }
    lra. }
  rewrite (Hcell r c Hr Hc), np_divide_nonzero by (intro E; lra).
  split; [reflexivity|]. cbn [value]. split.
  - apply Qle_shift_div_l; [lra|]. specialize (Hnn r Hr). lra.
  - apply Qle_shift_div_r; [lra|]. lra.
Qed.

Lemma clip_noise_rates_range_witness :
  exists out : list (list float),
    util.clip_noise_rates skewed_matrix = Ok out /\
    0 <= value (fcell out 1 0) <= 1.
Proof.
  destruct (clip_noise_rates_range 2 skewed_matrix skewed_matrix_valid)
    as (out & Hout & Hcell).
  - lia.
  - exists out. split; [exact Hout|].
    destruct (Hcell 1%nat 0%nat) as [_ Hv]; [lia | lia |]. exact Hv.
Defined.

(** ** remove_noise_from_class: indices, untouched entries, idempotence *)

Lemma resolve_index_range (K : nat) (i : Z) (r : nat) :
  util.resolve_index K i = Ok r ->
  (r < K)%nat /\
  ((0 <= i)%Z /\ Z.of_nat r = i \/ (i < 0)%Z /\ Z.of_nat r = (Z.of_nat K + i)%Z).
Proof.
  unfold util.resolve_index.
  destruct ((0 <=? i) && (i <? Z.of_nat K))%Z eqn:E1.
  - apply andb_true_iff in E1. destruct E1 as [H1 H2].
    apply Z.leb_le in H1. apply Z.ltb_lt in H2.
    intro H. injection H as <-. split; [lia | left; lia].
  - destruct ((- Z.of_nat K <=? i) && (i <? 0))%Z eqn:E2; [|discriminate].
    apply andb_true_iff in E2. destruct E2 as [H1 H2].
    apply Z.leb_le in H1. apply Z.ltb_lt in H2.
    intro H. injection H as <-. split; [lia | right; lia].
Qed.

Lemma resolve_index_outside (K : nat) (i : Z) :
  (i < - Z.of_nat K \/ Z.of_nat K <= i)%Z ->
  util.resolve_index K i = Raise IndexError.
Proof.
  intro H. unfold util.resolve_index.
  destruct (Z.leb_spec 0 i), (Z.ltb_spec i (Z.of_nat K)),
    (Z.leb_spec (- Z.of_nat K) i), (Z.ltb_spec i 0); cbn [andb];
    try reflexivity; lia.
Qed.

(** The result of [remove_noise_from_class] for an index that Python
    resolves to row [r]. *)
Lemma remove_noise_run (K : nat) (m : list (list Q)) (cwn : Z) (r : nat) :
  has_shape K K m ->
  util.resolve_index K cwn = Ok r ->
  exists x : list (list Q),
    util.remove_noise_from_class m cwn = Ok x /\
    has_shape K K x /\
    (forall a b, (a < K)%nat -> (b < K)%nat -> a <> b ->
       util.cell x a b = if Nat.eqb a r then 0 else util.cell m a b) /\
    (forall i, (i < K)%nat -> util.cell x i i == 1 - off_diagonal x i).
Proof.
  intros Hshape Hres.
  destruct (resolve_index_range K cwn r Hres) as [Hr Hcwn].
  assert (HK : length m = K) by apply Hshape.
  unfold util.remove_noise_from_class. rewrite HK, Hres. cbn [bind].
  set (others := filter (fun i => negb (Z.of_nat i =? cwn)%Z) (seq 0 K)).
  assert (Hothers : Forall (fun i => (i < K)%nat) others).
  { apply Forall_forall. intros i Hi. apply filter_In in Hi.
    destruct Hi as [Hi _]. apply in_seq in Hi. lia. }
  destruct (zero_row_cells K K r others m Hshape Hr Hothers)
    as [Hs1 Hcell1].
  set (x1 := fold_left (fun x i => util.set_cell r i 0 x) others m) in *.
  assert (Hseq : Forall (fun i => (i < K)%nat) (seq 0 K)).
  { apply Forall_forall. intros i Hi. apply in_seq in Hi. lia. }
  destruct (repair_cells K (seq 0 K) x1 Hs1 Hseq (seq_NoDup K 0))
    as (Hs2 & Hoff & _ & Hfix).
  eexists. split; [reflexivity|].
  set (x2 := fold_left _ (seq 0 K) x1) in *.
  assert (Hlen : length x2 = length x1).
  { destruct Hs2 as [-> _]. destruct Hs1 as [-> _]. reflexivity. }
  split; [exact Hs2|]. split.
  - intros a b Ha Hb Hne. rewrite Hoff by exact Hne. rewrite Hcell1.
    destruct (Nat.eqb_spec a r) as [->|_]; cbn [andb]; [|reflexivity].
    assert (E : existsb (Nat.eqb b) others = true).
    { apply existsb_exists. exists b. split; [|apply Nat.eqb_refl].
      apply filter_In. split; [apply in_seq; lia|].
      apply negb_true_iff, Z.eqb_neq. lia. }
    rewrite E. reflexivity.
  - intros i Hi. rewrite Hfix by (apply in_seq; lia).
    rewrite (off_diagonal_ext x2 x1 i Hlen Hoff). reflexivity.
Qed.


(** Only the off-diagonal entries of row [c] and the diagonal can change:
    every other entry of the result is the entry of the input. *)
Theorem remove_noise_from_class_keeps_rest
    (m : list (list Q)) (c : nat) :
  has_shape (length m) (length m) m ->
  (c < length m)%nat ->
  exists x : list (list Q),
    util.remove_noise_from_class m (Z.of_nat c) = Ok x /\
    forall a b, (a < length m)%nat -> (b < length m)%nat ->
      a <> b -> a <> c -> util.cell x a b = util.cell m a b.
Proof.
  intros Hshape Hc.
  assert (Hres : util.resolve_index (length m) (Z.of_nat c) = Ok c).
  { unfold util.resolve_index.
    destruct (Z.leb_spec 0 (Z.of_nat c)), (Z.ltb_spec (Z.of_nat c)
      (Z.of_nat (length m))); cbn [andb]; try lia.
    rewrite Nat2Z.id. reflexivity. }
  destruct (remove_noise_run _ m _ c Hshape Hres) as (x & Hx & _ & Hoff & _).
  exists x. split; [exact Hx|].
  intros a b Ha Hb Hab Hac. rewrite (Hoff a b Ha Hb Hab).
  destruct (Nat.eqb_spec a c); [contradiction | reflexivity].
Qed.

Lemma remove_noise_from_class_keeps_rest_witness :
  exists x : list (list Q),
    util.remove_noise_from_class [[8 # 10; 3 # 10]; [2 # 10; 7 # 10]] 0 = Ok x /\
    util.cell x 1 0 = 2 # 10.
Proof.
  destruct (remove_noise_from_class_keeps_rest
              [[8 # 10; 3 # 10]; [2 # 10; 7 # 10]] 0)
    as (x & Hx & Hrest).
  - split; [reflexivity | repeat constructor].
  - simpl. lia.
  - exists x. split; [exact Hx|].
    apply (Hrest 1%nat 0%nat); simpl; lia.
Defined.





(** ** confusion_matrix: transposition and marginals *)

Lemma confusion_matrix_cells (true pred : list Z) :
  length true = length pred ->
  exists m : list (list nat),
    util.confusion_matrix true pred = Ok m /\
    has_shape (length (util.unique true)) (length (util.unique pred)) m /\
    forall a b : nat,
      (a < length (util.unique true))%nat ->
      (b < length (util.unique pred))%nat ->
      count_cell m a b
      = occurrences (nth a (util.unique true) 0%Z)
                    (nth b (util.unique pred) 0%Z) (combine true pred).
Proof.
  intro Hlen. unfold util.confusion_matrix.
  rewrite (proj2 (Nat.eqb_eq _ _) Hlen). cbn [negb].
  set (tc := util.unique true). set (pc := util.unique pred).
  destruct (tabulate_run tc pc (combine true pred)
              (repeat (repeat O (length pc)) (length tc)))
    as (m & Hm & Hshape & _ & Hcell).
  - apply sorted_NoDup, unique_sorted.
  - apply sorted_NoDup, unique_sorted.
  - apply zeros_shape.
  - apply Forall_forall. intros [t p] Hin. cbn [fst snd]. split.
    + apply unique_In. eapply in_combine_l, Hin.
    + apply unique_In. eapply in_combine_r, Hin.
  - exists m. split; [exact Hm|]. split; [exact Hshape|].
    intros a b Ha Hb. rewrite (Hcell a b Ha Hb).
    rewrite count_cell_zeros by assumption. reflexivity.
Qed.

Lemma occurrences_swap (tv pv : Z) (true pred : list Z) :
  occurrences pv tv (combine pred true)
  = occurrences tv pv (combine true pred).
Proof.
  unfold occurrences. revert pred.
  induction true as [|t true IH]; intros [|p pred]; try reflexivity.
  cbn [combine filter fst snd]. rewrite andb_comm.
  destruct ((t =? tv)%Z && (p =? pv)%Z); cbn [length]; rewrite IH;
    reflexivity.
Qed.

(** Swapping the two label sequences transposes the matrix. *)
Theorem confusion_matrix_transpose (true pred : list Z) :
  length true = length pred ->
  exists m m' : list (list nat),
    util.confusion_matrix true pred = Ok m /\
    util.confusion_matrix pred true = Ok m' /\
    has_shape (length (util.unique pred)) (length (util.unique true)) m' /\
    forall a b : nat,
      (a < length (util.unique true))%nat ->
      (b < length (util.unique pred))%nat ->
      count_cell m' b a = count_cell m a b.
Proof.
  intro Hlen.
  destruct (confusion_matrix_cells true pred Hlen) as (m & Hm & _ & Hc).
  destruct (confusion_matrix_cells pred true (eq_sym Hlen))
    as (m' & Hm' & Hs' & Hc').
  exists m, m'. split; [exact Hm|]. split; [exact Hm'|].
  split; [exact Hs'|].
  intros a b Ha Hb.
  rewrite (Hc a b Ha Hb), (Hc' b a Hb Ha). apply occurrences_swap.
Qed.

Lemma confusion_matrix_transpose_witness :
  exists m m' : list (list nat),
    util.confusion_matrix [5; 3; 5; 7]%Z [1; 1; 1; 2]%Z = Ok m /\
    util.confusion_matrix [1; 1; 1; 2]%Z [5; 3; 5; 7]%Z = Ok m' /\
    count_cell m' 0 1 = count_cell m 1 0.
Proof.
  destruct (confusion_matrix_transpose [5; 3; 5; 7]%Z [1; 1; 1; 2]%Z eq_refl)
    as (m & m' & Hm & Hm' & _ & Hc).
  exists m, m'. split; [exact Hm|]. split; [exact Hm'|].
  apply Hc; simpl; lia.
Defined.

Lemma map_nth_range {A : Type} (l : list A) (d : A) :
  map (fun b => nth b l d) (seq 0 (length l)) = l.
Proof.
  induction l as [|x l IH]; [reflexivity|].
  cbn [length seq map nth]. f_equal.
  rewrite <- seq_shift, map_map. exact IH.
Qed.

Lemma list_sum_cons (x : nat) (l : list nat) :
  list_sum (x :: l) = (x + list_sum l)%nat.
Proof. reflexivity. Qed.

Lemma indicator_sum_absent (p : Z) (pc : list Z) :
  ~ In p pc ->
  list_sum (map (fun pv => if (p =? pv)%Z then 1%nat else O) pc) = O.
Proof.
  induction pc as [|y pc IH]; intro Hp; [reflexivity|].
  cbn [map]. rewrite list_sum_cons.
  destruct (Z.eqb_spec p y) as [->|_].
  - exfalso. apply Hp. left. reflexivity.
  - rewrite IH; [reflexivity|]. intro H. apply Hp. right. exact H.
Qed.

Lemma indicator_sum (p : Z) (pc : list Z) :
  NoDup pc -> In p pc ->
  list_sum (map (fun pv => if (p =? pv)%Z then 1%nat else O) pc) = 1%nat.
Proof.
  induction 1 as [|x pc Hx Hnd IH]; intros Hin; [contradiction|].
  cbn [map]. rewrite list_sum_cons.
  destruct (Z.eqb_spec p x) as [->|Hne].
  - rewrite (indicator_sum_absent x pc Hx). reflexivity.
  - destruct Hin as [E|Hin]; [congruence|]. rewrite (IH Hin). reflexivity.
Qed.

Lemma list_sum_map_plus {A : Type} (f g : A -> nat) (l : list A) :
  list_sum (map (fun x => f x + g x)%nat l)
  = (list_sum (map f l) + list_sum (map g l))%nat.
Proof.
  induction l as [|x l IH]; [reflexivity|].
  cbn [map]. rewrite !list_sum_cons, IH. lia.
Qed.

Lemma occurrences_over_classes (tv : Z) (pc : list Z) (pairs : list (Z * Z)) :
  NoDup pc ->
  Forall (fun tp => In (snd tp) pc) pairs ->
  list_sum (map (fun pv => occurrences tv pv pairs) pc)
  = length (filter (fun tp => (fst tp =? tv)%Z) pairs).
Proof.
  intros Hnd Hin. unfold occurrences.
  induction Hin as [|[t p] pairs Hp Hall IH].
  - cbn [filter length]. clear. induction pc as [|x pc IH]; [reflexivity|].
    cbn [map]. rewrite list_sum_cons, IH. reflexivity.
  - cbn [filter fst snd].
    destruct (Z.eqb_spec t tv) as [_|_]; cbn [andb].
    + transitivity
        (list_sum (map (fun pv => if (p =? pv)%Z then 1%nat else O) pc)
         + list_sum
             (map (fun pv =>
                     length (filter
                               (fun tp => (fst tp =? tv)%Z
                                          && (snd tp =? pv)%Z) pairs)) pc))%nat.
      * rewrite <- list_sum_map_plus. f_equal. apply map_ext. intro pv.
        destruct (p =? pv)%Z; reflexivity.
      * rewrite (indicator_sum p pc Hnd Hp), IH. reflexivity.
    + exact IH.
Qed.

Lemma filter_fst_count (tv : Z) (true pred : list Z) :
  length true = length pred ->
  length (filter (fun tp => (fst tp =? tv)%Z) (combine true pred))
  = count_occ Z.eq_dec true tv.
Proof.
  revert pred. induction true as [|t true IH]; intros [|p pred] Hlen;
    try discriminate; [reflexivity|].
  cbn [combine filter fst count_occ].
  injection Hlen as Hlen.
  destruct (Z.eqb_spec t tv) as [E|N]; destruct (Z.eq_dec t tv);
    try contradiction; cbn [length]; rewrite (IH pred Hlen); reflexivity.
Qed.

(** The row sums of the confusion matrix are the counts of the distinct
    true labels (what [np.unique(true, return_counts=True)] returns): row
    [a] adds up to the number of positions that hold the [a]-th distinct
    value of [true]. *)
Theorem confusion_matrix_row_sums (true pred : list Z) :
  length true = length pred ->
  exists m : list (list nat),
    util.confusion_matrix true pred = Ok m /\
    map (fun row => list_sum row) m
    = map (fun tv => count_occ Z.eq_dec true tv) (util.unique true).
Proof.
  intro Hlen.
  destruct (confusion_matrix_cells true pred Hlen)
    as (m & Hm & [Hrows Hcols] & Hcell).
  exists m. split; [exact Hm|].
  set (tc := util.unique true) in *. set (pc := util.unique pred) in *.
  apply (nth_ext _ _ O O).
  - rewrite !length_map. exact Hrows.
  - intros a Ha. rewrite length_map, Hrows in Ha.
    rewrite (nth_map_in (fun row => list_sum row) m a [] O) by lia.
    rewrite (nth_map_in _ tc a 0%Z O) by exact Ha.
    assert (Hrl : length (nth a m []) = length pc).
    { rewrite Forall_forall in Hcols. apply Hcols, nth_In. lia. }
    rewrite <- (map_nth_range (nth a m []) O), Hrl.
    rewrite <- (filter_fst_count _ true pred Hlen).
    rewrite <- (occurrences_over_classes (nth a tc 0%Z) pc).
    + rewrite <- (map_nth_range pc 0%Z) at 2.
      rewrite map_map. f_equal. apply map_ext_in. intros b Hb.
      apply in_seq in Hb. apply (Hcell a b Ha). lia.
    + apply sorted_NoDup, unique_sorted.
    + apply Forall_forall. intros [t p] Hin. cbn [snd].
      apply unique_In. eapply in_combine_r, Hin.
Qed.

Lemma confusion_matrix_row_sums_witness :
  exists m : list (list nat),
    util.confusion_matrix [5; 3; 5; 7]%Z [1; 1; 1; 2]%Z = Ok m /\
    map (fun row => list_sum row) m = [1; 2; 1]%nat.
Proof.
  destruct (confusion_matrix_row_sums [5; 3; 5; 7]%Z [1; 1; 1; 2]%Z eq_refl)
    as (m & Hm & Hs).
  exists m. split; [exact Hm | exact Hs].
Defined.

(** ** Python indexing and mapping *)

Lemma resolve_index_inside (K : nat) (i : Z) :
  (- Z.of_nat K <= i < Z.of_nat K)%Z ->
  util.resolve_index K i = Ok (Z.to_nat (i mod Z.of_nat K)).
Proof.
  intro H. unfold util.resolve_index.
  destruct (Z.leb_spec 0 i); destruct (Z.ltb_spec i (Z.of_nat K));
    cbn [andb]; try lia.
  - rewrite Z.mod_small by lia. reflexivity.
  - destruct (Z.leb_spec (- Z.of_nat K) i); destruct (Z.ltb_spec i 0);
      cbn [andb]; try lia.
    f_equal. f_equal.
    rewrite <- (Z.mod_add i 1 (Z.of_nat K)) by lia.
    rewrite Z.mod_small by lia. lia.
Qed.

Lemma getitem_inside {A : Type} (l : list A) (i : Z) (d : A) :
  (- Z.of_nat (length l) <= i < Z.of_nat (length l))%Z ->
  py.getitem l i = Ok (nth (Z.to_nat (i mod Z.of_nat (length l))) l d).
Proof.
  intro H. unfold py.getitem. rewrite (resolve_index_inside _ _ H).
  cbn [bind].
  assert (Hr : (Z.to_nat (i mod Z.of_nat (length l)) < length l)%nat).
  { pose proof (Z.mod_pos_bound i (Z.of_nat (length l)) ltac:(lia)). lia. }
  rewrite (nth_error_nth' l d Hr). reflexivity.
Qed.

Lemma getitem_outside {A : Type} (l : list A) (i : Z) :
  (i < - Z.of_nat (length l) \/ Z.of_nat (length l) <= i)%Z ->
  py.getitem l i = Raise IndexError.
Proof.
  intro H. unfold py.getitem. rewrite (resolve_index_outside _ _ H).
  reflexivity.
Qed.

Lemma getitem_cases {A : Type} (l : list A) (i : Z) :
  py.getitem l i = Raise IndexError \/
  exists a, py.getitem l i = Ok a /\
            (- Z.of_nat (length l) <= i < Z.of_nat (length l))%Z.
Proof.
  destruct (Z_lt_ge_dec i (- Z.of_nat (length l))) as [L|G].
  - left. apply getitem_outside. lia.
  - destruct (Z_lt_ge_dec i (Z.of_nat (length l))) as [L'|G'].
    + right. destruct l as [|d l]; [simpl in *; lia|].
      eexists. split; [apply (getitem_inside (d :: l) i d); lia | lia].
    + left. apply getitem_outside. lia.
Qed.

(** [mapping] looks every entity up in [maps] with Python's index rule: it
    succeeds exactly when every entity lies in [[-K, K)] for [K = len(maps)],
    entity [x] giving [maps[x mod K]], and raises IndexError otherwise. *)
Theorem mapping_lookup (entities maps : list Z) :
  (Forall (fun x => (- Z.of_nat (length maps) <= x < Z.of_nat (length maps))%Z)
          entities ->
   token_extra.mapping entities maps
   = Ok (map (fun x => nth (Z.to_nat (x mod Z.of_nat (length maps))) maps 0%Z)
             entities)) /\
  (Exists (fun x => (x < - Z.of_nat (length maps)
                     \/ Z.of_nat (length maps) <= x)%Z) entities ->
   token_extra.mapping entities maps = Raise IndexError).
Proof.
  unfold token_extra.mapping. split.
  - induction 1 as [|x entities Hx Hall IH]; [reflexivity|].
    cbn [py.map_list map]. rewrite (getitem_inside maps x 0%Z Hx), IH.
    reflexivity.
  - induction 1 as [x entities Hx|x entities Hex IH];
      cbn [py.map_list].
    + rewrite (getitem_outside maps x Hx). reflexivity.
    + rewrite IH.
      destruct (getitem_cases maps x) as [E|(a & E & _)]; rewrite E;
        reflexivity.
Qed.

Lemma mapping_lookup_witness :
  token_extra.mapping [0; 0; 4; -1; 3]%Z [0; 1; 1; 2; 2]%Z
  = Ok [0; 0; 2; 2; 2]%Z /\
  token_extra.mapping [0; 5]%Z [0; 1; 1; 2; 2]%Z = Raise IndexError.
Proof.
  destruct (mapping_lookup [0; 0; 4; -1; 3]%Z [0; 1; 1; 2; 2]%Z) as [Hin _].
  destruct (mapping_lookup [0; 5]%Z [0; 1; 1; 2; 2]%Z) as [_ Hout].
  split.
  - apply Hin. repeat constructor; simpl; lia.
  - apply Hout. right. left. simpl. lia.
Defined.

Lemma map_list_Forall2 {A B : Type} (f : A -> result B) (xs : list A)
    (ys : list B) :
  py.map_list f xs = Ok ys -> Forall2 (fun x y => f x = Ok y) xs ys.
Proof.
  revert ys. induction xs as [|x xs IH]; intros ys H; cbn [py.map_list] in H.
  - injection H as <-. constructor.
  - destruct (f x) as [y|e] eqn:Ex; [|discriminate]. cbn [bind] in H.
    destruct (py.map_list f xs) as [ys'|e] eqn:Exs; [|discriminate].
    cbn [bind] in H. injection H as <-.
    constructor; [exact Ex | apply IH; reflexivity].
Qed.

Lemma getitem_nth_error {A : Type} (l : list A) (i : Z) (a : A) :
  py.getitem l i = Ok a ->
  exists r, util.resolve_index (length l) i = Ok r /\ nth_error l r = Some a.
Proof.
  unfold py.getitem.
  destruct (util.resolve_index (length l) i) as [r|e]; [|discriminate].
  cbn [bind]. destruct (nth_error l r) as [a'|] eqn:E; [|discriminate].
  intro H. injection H as <-. exists r. split; [reflexivity | exact E].
Qed.

Lemma Forall2_nth_error_l {A B : Type} (R : A -> B -> Prop)
    (xs : list A) (ys : list B) (r : nat) (x : A) :
  Forall2 R xs ys -> nth_error xs r = Some x ->
  exists y, nth_error ys r = Some y /\ R x y.
Proof.
  intro H. revert r. induction H as [|x0 y0 xs ys Hxy Hall IH]; intros r Hr.
  - destruct r; discriminate.
  - destruct r as [|r]; cbn [nth_error] in *.
    + injection Hr as <-. exists y0. split; [reflexivity | exact Hxy].
    + apply IH, Hr.
Qed.

(** Looking up in a composed map is looking up twice. *)
Lemma getitem_composed (m1 m2 m12 : list Z) (x : Z) :
  token_extra.mapping m1 m2 = Ok m12 ->
  py.getitem m12 x = (y <- py.getitem m1 x ;; py.getitem m2 y).
Proof.
  intro H. apply map_list_Forall2 in H.
  pose proof (Forall2_length H) as Hlen.
  unfold py.getitem at 1 2. rewrite <- Hlen.
  destruct (util.resolve_index (length m1) x) as [r|e] eqn:Er;
    [|reflexivity].
  cbn [bind].
  destruct (resolve_index_range _ _ _ Er) as [Hr _].
  destruct (nth_error m1 r) as [y|] eqn:Ey.
  - destruct (Forall2_nth_error_l _ _ _ _ _ H Ey) as (z & Ez & Hz).
    rewrite Ez. cbn [bind]. symmetry. exact Hz.
  - apply nth_error_None in Ey. lia.
Qed.

(** Two successive mappings are one mapping through the composed map:
    whenever [mapping(m1, m2)] is defined, mapping the entities through it
    gives what mapping them through [m1] and then through [m2] gives, be it
    a list or an IndexError. *)
Theorem mapping_compose (entities m1 m2 m12 : list Z) :
  token_extra.mapping m1 m2 = Ok m12 ->
  token_extra.mapping entities m12
  = (e1 <- token_extra.mapping entities m1 ;; token_extra.mapping e1 m2).
Proof.
  intro H. unfold token_extra.mapping at 1 2 3.
  induction entities as [|x entities IH]; [reflexivity|].
  cbn [py.map_list]. rewrite (getitem_composed m1 m2 m12 x H), IH.
  destruct (py.getitem m1 x) as [y|e] eqn:Ey; [|reflexivity]. cbn [bind].
  destruct (getitem_nth_error _ _ _ Ey) as (r & _ & Er).
  destruct (Forall2_nth_error_l _ _ _ _ _ (map_list_Forall2 _ _ _ H) Er)
    as (z & _ & Ez).
  rewrite Ez. cbn [bind].
  destruct (py.map_list (fun x0 => py.getitem m1 x0) entities) as [ys|e];
    cbn [bind py.map_list]; [rewrite Ez|]; reflexivity.
Qed.

Lemma mapping_compose_witness :
  token_extra.mapping [0; 4; 3; -1]%Z [0; 0; 0; 1; 1]%Z
  = (e1 <- token_extra.mapping [0; 4; 3; -1]%Z [0; 1; 1; 2; 2]%Z ;;
     token_extra.mapping e1 [0; 0; 1]%Z).
Proof.
  apply (mapping_compose [0; 4; 3; -1]%Z [0; 1; 1; 2; 2]%Z [0; 0; 1]%Z).
  vm_compute. reflexivity.
Defined.

(** ** filter_sentence *)

Section filter_sentence_facts.

Import String Ascii.
Local Open Scope string_scope.

Lemma masked_filter {A : Type} (c : A -> bool) (l : list A) :
  map snd (filter (fun ms => fst ms) (combine (map c l) l)) = filter c l.
Proof.
  induction l as [|x l IH]; [reflexivity|].
  cbn [map combine filter fst]. destruct (c x); cbn [map snd]; rewrite IH;
    reflexivity.
Qed.

Lemma filter_all_true {A : Type} (c : A -> bool) (l : list A) :
  filter c (filter c l) = filter c l /\
  map c (filter c l) = repeat true (List.length (filter c l)).
Proof.
  induction l as [|x l [IH1 IH2]]; [split; reflexivity|].
  cbn [filter]. destruct (c x) eqn:E; [|split; assumption].
  cbn [filter map List.length repeat]. rewrite E, IH1, IH2.
  split; reflexivity.
Qed.

(** [filter_sentence] returns one mask entry per sentence and, in their
    order, exactly the sentences that satisfy the condition, as many as the
    mask holds True; filtering the returned sentences again returns all of
    them, with a mask of True only. *)
Theorem filter_sentence_mask (sentences : list string)
    (condition : option (string -> bool)) :
  let c := chosen_condition condition in
  let out := fst (token_extra.filter_sentence sentences condition) in
  let mask := snd (token_extra.filter_sentence sentences condition) in
  mask = map c sentences /\
  out = filter c sentences /\
  List.length out = count_occ Bool.bool_dec mask true /\
  token_extra.filter_sentence out condition
  = (out, repeat true (List.length out)).
Proof.
  intros c out mask.
  assert (Hout : out = filter c sentences).
  { unfold out, token_extra.filter_sentence. cbn [fst].
    destruct condition; apply masked_filter. }
  assert (Hmask : mask = map c sentences).
  { unfold mask, token_extra.filter_sentence. cbn [snd].
    destruct condition; reflexivity. }
  split; [exact Hmask|]. split; [exact Hout|]. split.
  - rewrite Hout, Hmask. clear.
    induction sentences as [|s l IH]; [reflexivity|].
    cbn [filter map count_occ]. destruct (c s); cbn [List.length];
      destruct (Bool.bool_dec _ true); try congruence; rewrite IH;
      reflexivity.
  - destruct (filter_all_true c sentences) as [H1 H2].
    rewrite Hout. unfold token_extra.filter_sentence.
    fold (chosen_condition condition). fold c.
    rewrite masked_filter, H1, H2. reflexivity.
Qed.

Lemma char_absent (c : Ascii.ascii) (s : string) :
  token_extra.contains_char c s = false <->
  ~ In c (list_ascii_of_string s).
Proof.
  induction s as [|d s IH]; cbn [token_extra.contains_char
                                 list_ascii_of_string].
  - split; [intros _ [] | reflexivity].
  - rewrite orb_false_iff, IH. split.
    + intros [Hd Hs] [E|Hin]; [|contradiction].
      subst. rewrite Ascii.eqb_refl in Hd. discriminate.
    + intro Hn. split.
      * destruct (Ascii.eqb_spec c d) as [->|]; [|reflexivity].
        exfalso. apply Hn. left. reflexivity.
      * intro Hin. apply Hn. right. exact Hin.
Qed.

(** With the default condition, every returned sentence has at least two
    characters, none of them '#', and every other sentence is dropped. *)
Theorem filter_sentence_default (sentences : list string) (s : string) :
  In s (fst (token_extra.filter_sentence sentences None)) <->
  In s sentences /\
  (2 <= length s)%nat /\
  ~ In "#"%char (list_ascii_of_string s).
Proof.
  unfold token_extra.filter_sentence. cbn [fst].
  rewrite masked_filter, filter_In.
  unfold token_extra.default_condition.
  rewrite andb_true_iff, negb_true_iff, char_absent, Nat.ltb_lt.
  intuition.
Qed.

Lemma filter_sentence_default_witness :
  In "Hello World"
     (fst (token_extra.filter_sentence
             ["Hello World"; "#I love Cleanlab"; "A"] None)).
Proof.
  apply (filter_sentence_default
           ["Hello World"; "#I love Cleanlab"; "A"] "Hello World").
  split; [left; reflexivity|]. split; [simpl; lia|].
  simpl. intros H. repeat (destruct H as [H|H]; [discriminate|]). exact H.
Defined.

End filter_sentence_facts.

(** ** filter_by_token *)

Section filter_by_token_facts.

Import String Ascii.
Local Open Scope string_scope.

Variable lower : string -> string.

Lemma getitem_error {A : Type} (l : list A) (i : Z) (e : exn) :
  py.getitem l i = Raise e -> e = IndexError.
Proof.
  destruct (getitem_cases l i) as [E|(a & E & _)]; rewrite E; congruence.
Qed.

Lemma word_at_error (gw : list (list string)) (issue : Z * Z) (e : exn) :
  word_at gw issue = Raise e -> e = IndexError.
Proof.
  unfold word_at.
  destruct (py.getitem gw (fst issue)) as [s|e'] eqn:E; cbn [bind].
  - apply getitem_error.
  - intro H. injection H as <-. apply (getitem_error _ _ _ E).
Qed.

Lemma filter_loop_step (token : string) (i j : Z) (rest : list (Z * Z))
    (gw : list (list string)) (acc : list (Z * Z)) :
  summary.filter_loop lower token ((i, j) :: rest) gw acc
  = (word <- word_at gw (i, j) ;;
     if String.eqb (lower token) (lower word)
     then summary.filter_loop lower token rest gw (acc ++ [(i, j)])%list
     else summary.filter_loop lower token rest gw acc).
Proof.
  cbn [summary.filter_loop]. unfold word_at. cbn [fst snd].
  destruct (py.getitem gw i); reflexivity.
Qed.

Lemma filter_loop_acc (token : string) (issues : list (Z * Z))
    (gw : list (list string)) (acc : list (Z * Z)) :
  summary.filter_loop lower token issues gw acc
  = (r <- summary.filter_loop lower token issues gw [] ;; Ok (acc ++ r)%list).
Proof.
  revert acc. induction issues as [|[i j] rest IH]; intro acc.
  - cbn. rewrite app_nil_r. reflexivity.
  - rewrite !filter_loop_step.
    destruct (word_at gw (i, j)) as [w|e]; [|reflexivity]. cbn [bind].
    destruct (String.eqb (lower token) (lower w)).
    + rewrite (IH (acc ++ [(i, j)])%list), (IH ([] ++ [(i, j)])%list).
      destruct (summary.filter_loop lower token rest gw []); cbn [bind];
        [rewrite <- app_assoc|]; reflexivity.
    + apply IH.
Qed.

Lemma filter_by_token_cons (token : string) (issue : Z * Z)
    (rest : list (Z * Z)) (gw : list (list string)) :
  summary.filter_by_token lower token (issue :: rest) gw
  = (word <- word_at gw issue ;;
     r <- summary.filter_by_token lower token rest gw ;;
     Ok (if String.eqb (lower token) (lower word) then issue :: r else r)).
Proof.
  unfold summary.filter_by_token. destruct issue as [i j].
  rewrite filter_loop_step.
  destruct (word_at gw (i, j)) as [w|e]; [|reflexivity]. cbn [bind].
  destruct (String.eqb (lower token) (lower w)).
  - rewrite filter_loop_acc.
    destruct (summary.filter_loop lower token rest gw []); reflexivity.
  - destruct (summary.filter_loop lower token rest gw []); reflexivity.
Qed.

(** When every issue points inside [given_words], [filter_by_token] returns,
    in their order, exactly the issues whose word equals the token up to
    case; when some issue points outside, it raises IndexError. *)
Theorem filter_by_token_selects (token : string) (issues : list (Z * Z))
    (gw : list (list string)) :
  (Forall (fun issue => is_ok (word_at gw issue) = true) issues ->
   summary.filter_by_token lower token issues gw
   = Ok (filter (matches lower token gw) issues)) /\
  (Exists (fun issue => is_ok (word_at gw issue) = false) issues ->
   summary.filter_by_token lower token issues gw = Raise IndexError).
Proof.
  split.
  - induction 1 as [|issue rest Hi Hall IH]; [reflexivity|].
    rewrite filter_by_token_cons, IH. cbn [filter]. unfold matches at 2.
    destruct (word_at gw issue) as [w|e]; [|discriminate]. cbn [bind].
    destruct (String.eqb (lower token) (lower w)); reflexivity.
  - induction 1 as [issue rest Hi|issue rest Hex IH];
      rewrite filter_by_token_cons.
    + destruct (word_at gw issue) as [w|e] eqn:E; [discriminate|].
      rewrite (word_at_error _ _ _ E). reflexivity.
    + rewrite IH.
      destruct (word_at gw issue) as [w|e] eqn:E; cbn [bind];
        [reflexivity|].
      rewrite (word_at_error _ _ _ E). reflexivity.
Qed.

(** Searching the returned issues for the same token returns all of them. *)
Theorem filter_by_token_idempotent (token : string)
    (issues out : list (Z * Z)) (gw : list (list string)) :
  summary.filter_by_token lower token issues gw = Ok out ->
  summary.filter_by_token lower token out gw = Ok out.
Proof.
  revert out. induction issues as [|issue rest IH]; intros out H.
  - injection H as <-. reflexivity.
  - rewrite filter_by_token_cons in H.
    destruct (word_at gw issue) as [w|e] eqn:E; [|discriminate].
    cbn [bind] in H.
    destruct (summary.filter_by_token lower token rest gw) as [r|e];
      [|discriminate].
    cbn [bind] in H. injection H as <-.
    specialize (IH r eq_refl).
    destruct (String.eqb (lower token) (lower w)) eqn:Em; [|exact IH].
    rewrite filter_by_token_cons, E, IH. cbn [bind]. rewrite Em.
    reflexivity.
Qed.

End filter_by_token_facts.

Section filter_by_token_examples.

Import String Ascii.
Local Open Scope string_scope.

Lemma filter_by_token_selects_witness :
  summary.filter_by_token lower_example "world" [(0, 1); (1, 0); (0, -1)]%Z
    [["Hello"; "World"]; ["A"]]
  = Ok [(0, 1); (0, -1)]%Z /\
  summary.filter_by_token lower_example "world" [(0, 1); (2, 0)]%Z
    [["Hello"; "World"]; ["A"]]
  = Raise IndexError.
Proof.
  split.
  - apply (proj1 (filter_by_token_selects lower_example "world"
                    [(0, 1); (1, 0); (0, -1)]%Z
                    [["Hello"; "World"]; ["A"]])).
    repeat constructor.
  - apply (proj2 (filter_by_token_selects lower_example "world"
                    [(0, 1); (2, 0)]%Z [["Hello"; "World"]; ["A"]])).
    right. left. reflexivity.
Defined.

Lemma filter_by_token_idempotent_witness :
  summary.filter_by_token lower_example "world" [(0, 1); (0, -1)]%Z
    [["Hello"; "World"]; ["A"]]
  = Ok [(0, 1); (0, -1)]%Z.
Proof.
  apply (filter_by_token_idempotent lower_example "world"
           [(0, 1); (1, 0); (0, -1)]%Z [(0, 1); (0, -1)]%Z
           [["Hello"; "World"]; ["A"]]).
  vm_compute. reflexivity.
Defined.

End filter_by_token_examples.

(** ** value_counts *)

Lemma counts_over_values (x vs : list Z) :
  NoDup vs -> (forall y, In y x -> In y vs) ->
  list_sum (map (fun v => count_occ Z.eq_dec x v) vs) = length x.
Proof.
  intros Hnd. induction x as [|a x IH]; intro Hcov.
  - cbn [count_occ length]. clear. induction vs as [|v vs IH]; [reflexivity|].
    cbn [map]. rewrite list_sum_cons, IH. reflexivity.
  - transitivity
      (list_sum (map (fun v => if (a =? v)%Z then 1%nat else O) vs)
       + list_sum (map (fun v => count_occ Z.eq_dec x v) vs))%nat.
    + rewrite <- list_sum_map_plus. f_equal. apply map_ext. intro v.
      cbn [count_occ].
      destruct (Z.eq_dec a v), (Z.eqb_spec a v); try contradiction;
        reflexivity.
    + rewrite (indicator_sum a vs Hnd) by (apply Hcov; left; reflexivity).
      rewrite IH by (intros y Hy; apply Hcov; right; exact Hy).
      reflexivity.
Qed.

Lemma identity_map_NoDup (K : nat) : NoDup (identity_map K).
Proof.
  unfold identity_map. generalize (seq_NoDup K 0). generalize (seq 0 K).
  induction 1 as [|n l Hn Hl IH]; cbn [map]; constructor; [|exact IH].
  intro Hin. apply in_map_iff in Hin. destruct Hin as (k & E & Hk).
  apply Nat2Z.inj in E. subst. contradiction.
Qed.

Lemma largest_value (x : list Z) :
  x <> [] -> Forall (fun v => (0 <= v)%Z) x ->
  In (fold_right Z.max (-1)%Z x) x /\
  Forall (fun v => (v <= fold_right Z.max (-1)%Z x)%Z) x.
Proof.
  intros Hne Hpos. induction Hpos as [|a x Ha Hx IH]; [congruence|].
  cbn [fold_right]. destruct x as [|b x].
  - cbn [fold_right]. split; [left; lia | repeat constructor; lia].
  - destruct (IH ltac:(discriminate)) as [Hin Hup].
    set (mx := fold_right Z.max (-1)%Z (b :: x)) in *. split.
    + destruct (Z.max_spec a mx) as [[_ ->]|[_ ->]];
        [right; exact Hin | left; reflexivity].
    + constructor; [lia|]. eapply Forall_impl; [|exact Hup].
      intros v Hv. cbn beta in Hv. lia.
Qed.

(** [value_counts] on a Python list of ints raises IndexError when the list
    is empty; otherwise the counts it returns add up to the length of the
    list.  For non-negative values the result has one entry for every
    value from 0 to the largest one, entry [v] counting the occurrences of
    [v] (0 for an absent value); when a negative value occurs the result
    has one entry per distinct value, in ascending order of value, each at
    least 1. *)
Theorem value_counts_spec (x : list Z) :
  (x = [] -> util_extra.value_counts x = Raise IndexError) /\
  (x <> [] ->
   exists counts : list nat,
     util_extra.value_counts x = Ok counts /\
     list_sum counts = length x /\
     (Forall (fun v => (0 <= v)%Z) x ->
      exists mx : Z,
        In mx x /\ Forall (fun v => (v <= mx)%Z) x /\
        length counts = S (Z.to_nat mx) /\
        forall v : nat, nth v counts O = count_occ Z.eq_dec x (Z.of_nat v)) /\
     (Exists (fun v => (v < 0)%Z) x ->
      Forall2 (fun v n => n = count_occ Z.eq_dec x v /\ (1 <= n)%nat)
              (util.unique x) counts)).
Proof.
  split; [intros ->; reflexivity|].
  intro Hne. unfold util_extra.value_counts.
  destruct x as [|a x]; [congruence|].
  set (l := a :: x) in *.
  destruct (forallb (fun v => (0 <=? v)%Z) l) eqn:E.
  - assert (Hpos : Forall (fun v => (0 <= v)%Z) l).
    { apply Forall_forall. intros v Hv.
      rewrite forallb_forall in E. apply Z.leb_le, E, Hv. }
    destruct (largest_value l Hne Hpos) as [Hin Hup].
    set (mx := fold_right Z.max (-1)%Z l) in *.
    assert (Hmx : (0 <= mx)%Z).
    { rewrite Forall_forall in Hpos. apply Hpos, Hin. }
    eexists. split; [reflexivity|]. split; [|split].
    + unfold util_extra.bincount. fold mx.
      rewrite <- (map_map Z.of_nat (fun v => count_occ Z.eq_dec l v)).
      apply (counts_over_values l (identity_map (Z.to_nat (mx + 1)))).
      * apply identity_map_NoDup.
      * intros y Hy. apply identity_map_In.
        rewrite Forall_forall in Hpos, Hup.
        specialize (Hpos y Hy). specialize (Hup y Hy). lia.
    + intros _. exists mx. split; [exact Hin|]. split; [exact Hup|].
      unfold util_extra.bincount. fold mx. split.
      * rewrite length_map, length_seq. lia.
      * intro v. destruct (Nat.lt_ge_cases v (Z.to_nat (mx + 1))) as [L|G].
        -- rewrite (nth_map_in _ _ v O O) by (rewrite length_seq; exact L).
           rewrite seq_nth by exact L. reflexivity.
        -- rewrite nth_overflow by (rewrite length_map, length_seq; exact G).
           symmetry. apply (count_occ_not_In Z.eq_dec). intro Hv.
           rewrite Forall_forall in Hup. specialize (Hup _ Hv). lia.
    + intro Hex. exfalso. apply Exists_exists in Hex.
      destruct Hex as (v & Hv & Hneg).
      rewrite Forall_forall in Hpos. specialize (Hpos v Hv). lia.
  - eexists. split; [reflexivity|]. split; [|split].
    + apply counts_over_values.
      * apply sorted_NoDup, unique_sorted.
      * intros y Hy. apply unique_In, Hy.
    + intro Hpos. exfalso.
      assert (forallb (fun v => (0 <=? v)%Z) l = true); [|congruence].
      apply forallb_forall. intros v Hv. apply Z.leb_le.
      rewrite Forall_forall in Hpos. apply Hpos, Hv.
    + intros _. unfold util_extra.unique_counts. apply Forall2_map_self.
      intros v Hv. split; [reflexivity|].
      apply (proj1 (unique_In l v)) in Hv.
      apply (proj1 (count_occ_In Z.eq_dec l v)) in Hv. lia.
Qed.

Lemma value_counts_spec_witness :
  exists counts : list nat,
    util_extra.value_counts [2; 0; 2; 5]%Z = Ok counts /\
    list_sum counts = 4%nat.
Proof.
  destruct (value_counts_spec [2; 0; 2; 5]%Z) as [_ H].
  destruct (H ltac:(discriminate)) as (counts & Hc & Hs & _).
  exists counts. split; [exact Hc | exact Hs].
Defined.

(** ** compress_int_array *)

Lemma wrap_fixes (t : util_extra.dtype) (v : Z) :
  util_extra.wrap (util_extra.bits t) v = v <->
  (- 2 ^ (util_extra.bits t - 1) <= v < 2 ^ (util_extra.bits t - 1))%Z.
Proof.
  unfold util_extra.wrap.
  set (w := util_extra.bits t).
  assert (Hw : (2 ^ w = 2 * 2 ^ (w - 1))%Z).
  { replace w with (Z.succ (w - 1)) at 1 by lia.
    apply Z.pow_succ_r. unfold w. destruct t; cbn; lia. }
  assert (Hh : (0 < 2 ^ (w - 1))%Z).
  { apply Z.pow_pos_nonneg; [lia|]. unfold w. destruct t; cbn; lia. }
  pose proof (Z.mod_pos_bound (v + 2 ^ (w - 1)) (2 ^ w) ltac:(lia)) as Hb.
  split.
  - intro E. lia.
  - intro H. rewrite Z.mod_small by lia. lia.
Qed.

(** When every entry lies in [[0, num_possible_values)], the compression
    keeps every entry: the array goes to int16 below 32767 possible values,
    to int32 below 2147483647, and stays as it is otherwise.  The cast
    itself keeps an entry exactly when that entry lies in the range of the
    chosen type. *)
Theorem compress_int_array_lossless
    (a : util_extra.int_ndarray) (n : Z) :
  (Forall (fun v => (0 <= v < n)%Z) (util_extra.values a) ->
   util_extra.values (util_extra.compress_int_array a n)
   = util_extra.values a /\
   util_extra.dt (util_extra.compress_int_array a n)
   = if (n <? 32767)%Z then util_extra.int16
     else if (n <? 2147483647)%Z then util_extra.int32
     else util_extra.dt a) /\
  ((n < 32767)%Z ->
   Forall2 (fun v w => w = v <-> (-32768 <= v <= 32767)%Z)
           (util_extra.values a)
           (util_extra.values (util_extra.compress_int_array a n))).
Proof.
  unfold util_extra.compress_int_array.
  change (util_extra.iinfo_max util_extra.int16) with 32767%Z.
  change (util_extra.iinfo_max util_extra.int32) with 2147483647%Z.
  split.
  - intro Hin.
    destruct (Z.ltb_spec n 32767) as [L|G];
      [|destruct (Z.ltb_spec n 2147483647) as [L'|G']].
    + split; [|reflexivity]. cbn [util_extra.astype util_extra.values].
      rewrite <- (map_id (util_extra.values a)) at 2.
      apply map_ext_in. intros v Hv. apply wrap_fixes.
      rewrite Forall_forall in Hin. specialize (Hin v Hv).
      change (2 ^ (util_extra.bits util_extra.int16 - 1))%Z with 32768%Z.
      lia.
    + split; [|reflexivity]. cbn [util_extra.astype util_extra.values].
      rewrite <- (map_id (util_extra.values a)) at 2.
      apply map_ext_in. intros v Hv. apply wrap_fixes.
      rewrite Forall_forall in Hin. specialize (Hin v Hv).
      change (2 ^ (util_extra.bits util_extra.int32 - 1))%Z
        with 2147483648%Z.
      lia.
    + split; reflexivity.
  - intro L. rewrite (proj2 (Z.ltb_lt _ _) L).
    cbn [util_extra.astype util_extra.values].
    apply Forall2_map_self. intros v _.
    rewrite (wrap_fixes util_extra.int16 v).
    change (2 ^ (util_extra.bits util_extra.int16 - 1))%Z with 32768%Z.
    lia.
Qed.

Lemma compress_int_array_lossless_witness :
  util_extra.values
    (util_extra.compress_int_array
       (util_extra.mk_int_ndarray util_extra.int64 [0; 3; 9; 2]%Z) 10)
  = [0; 3; 9; 2]%Z.
Proof.
  apply (proj1 (compress_int_array_lossless
                  (util_extra.mk_int_ndarray util_extra.int64
                     [0; 3; 9; 2]%Z) 10)).
  repeat constructor; simpl; lia.
Defined.

(** ** num_unique_classes and get_num_classes *)

Lemma len_set_unique (xs : list Z) :
  util_extra.len_set xs = length (util.unique xs).
Proof.
  unfold util_extra.len_set. apply Permutation_length.
  apply NoDup_Permutation.
  - apply NoDup_nodup.
  - apply sorted_NoDup, unique_sorted.
  - intro x. rewrite nodup_In, unique_In. reflexivity.
Qed.

Lemma chain_groups (groups : list (list Z)) :
  util_extra.chain (map util_extra.Group groups)
  = util_extra.Return (concat groups).
Proof.
  induction groups as [|g groups IH]; [reflexivity|].
  cbn [map util_extra.chain concat]. rewrite IH. reflexivity.
Qed.

Lemma hashables_singles (cs : list Z) :
  util_extra.hashables (map util_extra.Single cs) = util_extra.Return cs.
Proof.
  induction cs as [|c cs IH]; [reflexivity|].
  cbn [map util_extra.hashables]. rewrite IH. reflexivity.
Qed.

Lemma chain_single (labels : list util_extra.label) (c : Z) :
  In (util_extra.Single c) labels ->
  util_extra.chain labels = util_extra.Throw util_extra.TypeError.
Proof.
  induction labels as [|[c'|g] labels IH]; intro Hin; [contradiction| |].
  - reflexivity.
  - cbn [util_extra.chain]. rewrite IH; [reflexivity|].
    destruct Hin as [E|Hin]; [discriminate | exact Hin].
Qed.

Lemma hashables_group (labels : list util_extra.label) (g : list Z) :
  In (util_extra.Group g) labels ->
  util_extra.hashables labels = util_extra.Throw util_extra.TypeError.
Proof.
  induction labels as [|[c'|g'] labels IH]; intro Hin; [contradiction| |].
  - cbn [util_extra.hashables]. rewrite IH; [reflexivity|].
    destruct Hin as [E|Hin]; [discriminate | exact Hin].
  - reflexivity.
Qed.

Lemma existsb_is_list_singles (cs : list Z) :
  existsb util_extra.is_list (map util_extra.Single cs) = false.
Proof. induction cs as [|c cs IH]; [reflexivity | exact IH]. Qed.

(** [num_unique_classes], with [multi_label] left to be inferred: on a list
    of ints it returns the number of distinct values; on a list of lists,
    the number of distinct values in all the lists together; on a list
    that mixes ints and lists (the form the docstring announces) it raises
    TypeError, whatever [multi_label] is. *)
Theorem num_unique_classes_spec :
  (forall cs : list Z,
      util_extra.num_unique_classes (map util_extra.Single cs) None
      = util_extra.Return (length (util.unique cs))) /\
  (forall groups : list (list Z),
      util_extra.num_unique_classes (map util_extra.Group groups) None
      = util_extra.Return (length (util.unique (concat groups)))) /\
  (forall (labels : list util_extra.label) (c : Z) (g : list Z)
          (multi_label : option bool),
      In (util_extra.Single c) labels ->
      In (util_extra.Group g) labels ->
      util_extra.num_unique_classes labels multi_label
      = util_extra.Throw util_extra.TypeError).
Proof.
  split; [|split].
  - intro cs. unfold util_extra.num_unique_classes.
    rewrite existsb_is_list_singles, hashables_singles, len_set_unique.
    reflexivity.
  - intro groups. unfold util_extra.num_unique_classes.
    destruct groups as [|g groups]; [reflexivity|].
    cbn [map existsb util_extra.is_list orb].
    change (util_extra.Group g :: map util_extra.Group groups)
      with (map util_extra.Group (g :: groups)).
    rewrite chain_groups, len_set_unique. reflexivity.
  - intros labels c g multi_label Hc Hg.
    unfold util_extra.num_unique_classes.
    assert (Hany : existsb util_extra.is_list labels = true).
    { apply existsb_exists. exists (util_extra.Group g).
      split; [exact Hg | reflexivity]. }
    destruct multi_label as [[|]|]; rewrite ?Hany;
      rewrite ?(chain_single labels c Hc), ?(hashables_group labels g Hg);
      reflexivity.
Qed.

Lemma num_unique_classes_spec_witness :
  util_extra.num_unique_classes
    [util_extra.Single 1; util_extra.Group [1; 2]; util_extra.Group [0];
     util_extra.Group [0; 1]; util_extra.Single 2; util_extra.Single 1]%Z
    None
  = util_extra.Throw util_extra.TypeError.
Proof.
  apply (proj2 (proj2 num_unique_classes_spec) _ 1%Z [1; 2]%Z None).
  - left. reflexivity.
  - right. left. reflexivity.
Defined.

(** Given labels only, [get_num_classes] returns the number of rows of the
    confusion matrix of these labels. *)
Theorem get_num_classes_confusion_rows (true pred : list Z) :
  length true = length pred ->
  exists m : list (list nat),
    util.confusion_matrix true pred = Ok m /\
    util_extra.get_num_classes (Some (map util_extra.Single true))
      None None None
    = util_extra.Return (length m).
Proof.
  intro Hlen.
  destruct (confusion_matrix_cells true pred Hlen) as (m & Hm & [Hr _] & _).
  exists m. split; [exact Hm|].
  cbn [util_extra.get_num_classes]. unfold util_extra.num_unique_classes.
  rewrite existsb_is_list_singles, hashables_singles, len_set_unique, Hr.
  reflexivity.
Qed.

Lemma get_num_classes_confusion_rows_witness :
  exists m : list (list nat),
    util.confusion_matrix [5; 3; 5; 7]%Z [1; 1; 1; 2]%Z = Ok m /\
    util_extra.get_num_classes
      (Some (map util_extra.Single [5; 3; 5; 7]%Z)) None None None
    = util_extra.Return (length m).
Proof.
  apply (get_num_classes_confusion_rows [5; 3; 5; 7]%Z [1; 1; 1; 2]%Z).
  reflexivity.
Defined.

(** ** onehot2int after int2onehot *)

Lemma sorted_ext (l1 l2 : list Z) :
  StronglySorted Z.lt l1 -> StronglySorted Z.lt l2 ->
  (forall x, In x l1 <-> In x l2) -> l1 = l2.
Proof.
  intro H1. revert l2.
  induction H1 as [|a t1 Ht1 IH Ha]; intros l2 H2 Hiff.
  - destruct l2 as [|b t2]; [reflexivity|].
    exfalso. apply (proj2 (Hiff b)). left. reflexivity.
  - destruct H2 as [|b t2 Ht2 Hb].
    + exfalso. apply (proj1 (Hiff a)). left. reflexivity.
    + rewrite Forall_forall in Ha, Hb.
      assert (E : a = b).
      { destruct (proj1 (Hiff a) (or_introl eq_refl)) as [E|Hin];
          [symmetry; exact E|].
        destruct (proj2 (Hiff b) (or_introl eq_refl)) as [E|Hin'];
          [exact E|].
        specialize (Ha b Hin'). specialize (Hb a Hin). lia. }
      subst b. f_equal. apply IH; [exact Ht2|].
      intro x. split; intro Hx.
      * destruct (proj1 (Hiff x) (or_intror Hx)) as [E|Hin]; [|exact Hin].
        specialize (Ha x Hx). lia.
      * destruct (proj2 (Hiff x) (or_intror Hx)) as [E|Hin]; [|exact Hin].
        specialize (Hb x Hx). lia.
Qed.

Lemma filter_sorted (f : Z -> bool) (l : list Z) :
  StronglySorted Z.lt l -> StronglySorted Z.lt (filter f l).
Proof.
  induction 1 as [|a l Hl IH Ha]; cbn [filter]; [constructor|].
  destruct (f a); [|exact IH].
  constructor; [exact IH|].
  apply Forall_forall. intros x Hx. apply filter_In in Hx.
  rewrite Forall_forall in Ha. apply Ha, Hx.
Qed.

Lemma where_one_indicator (g : Z -> Z) (l : list nat) (s : nat) :
  map fst (filter (fun p => (snd p =? 1)%Z)
                  (combine (seq s (length l))
                           (map (fun j => g (Z.of_nat j)) l)))
  = filter (fun j => (g (Z.of_nat (nth (j - s) l O)) =? 1)%Z)
           (seq s (length l)).
Proof.
  revert s. induction l as [|x l IH]; intro s; [reflexivity|].
  cbn [length seq map combine filter snd].
  assert (Hhead : nth (s - s) (x :: l) O = x)
    by (rewrite Nat.sub_diag; reflexivity).
  rewrite Hhead.
  assert (Htail :
    filter (fun j => (g (Z.of_nat (nth (j - s) (x :: l) O)) =? 1)%Z)
           (seq (S s) (length l))
    = filter (fun j => (g (Z.of_nat (nth (j - S s) l O)) =? 1)%Z)
             (seq (S s) (length l))).
  { apply filter_ext_in. intros j Hj. apply in_seq in Hj.
    replace (j - s)%nat with (S (j - S s)) by lia. reflexivity. }
  destruct (g (Z.of_nat x) =? 1)%Z; cbn [map fst]; rewrite IH, Htail;
    reflexivity.
Qed.

Lemma map_filter_commute {A B : Type} (f : A -> B) (p : B -> bool)
    (l : list A) :
  map f (filter (fun x => p (f x)) l) = filter p (map f l).
Proof.
  induction l as [|x l IH]; [reflexivity|].
  cbn [filter map]. destruct (p (f x)); cbn [map]; rewrite IH; reflexivity.
Qed.

Lemma onehot_row (row : list Z) (K : nat) :
  map Z.of_nat
      (util_extra.where_one
         (map (fun c => if existsb (Z.eqb c) row then 1%Z else 0%Z)
              (identity_map K)))
  = filter (fun c => existsb (Z.eqb c) row) (identity_map K).
Proof.
  unfold util_extra.where_one, identity_map.
  rewrite !length_map, length_seq, (map_map Z.of_nat).
  pose proof (where_one_indicator
                (fun c => if existsb (Z.eqb c) row then 1%Z else 0%Z)
                (seq 0 K) 0) as H.
  rewrite length_seq in H. rewrite H. clear H.
  rewrite (filter_ext_in _ (fun j => existsb (Z.eqb (Z.of_nat j)) row)).
  - apply (map_filter_commute Z.of_nat (fun c => existsb (Z.eqb c) row)).
  - intros j Hj. apply in_seq in Hj.
    rewrite Nat.sub_0_r, seq_nth by lia. cbn [Nat.add].
    destruct (existsb (Z.eqb (Z.of_nat j)) row); reflexivity.
Qed.

(** When the labels are exactly the integers 0, ..., K-1 (each of them
    occurs in some row, as the docstrings ask), decoding the one-hot matrix
    of [int2onehot] with [onehot2int] gives every row back as its distinct
    labels in ascending order. *)
Theorem onehot_round_trip (labels : list (list Z)) (K : nat) :
  util.unique (concat labels) = identity_map K ->
  map (map Z.of_nat) (util_extra.onehot2int (util_extra.int2onehot labels))
  = map util.unique labels.
Proof.
  intro Hcls. unfold util_extra.onehot2int, util_extra.int2onehot.
  rewrite Hcls, !map_map. apply map_ext_in. intros row Hrow.
  rewrite onehot_row.
  apply sorted_ext.
  - apply filter_sorted. rewrite <- Hcls. apply unique_sorted.
  - apply unique_sorted.
  - intro x. rewrite filter_In, unique_In, existsb_exists. split.
    + intros [_ (y & Hy & E)]. apply Z.eqb_eq in E. subst. exact Hy.
    + intro Hx. split.
      * rewrite <- Hcls. apply unique_In, in_concat.
        exists row. split; assumption.
      * exists x. split; [exact Hx | apply Z.eqb_refl].
Qed.

Lemma onehot_round_trip_witness :
  map (map Z.of_nat)
      (util_extra.onehot2int
         (util_extra.int2onehot [[0; 1]; [3]; [3; 1; 2]; [1]; [2]]%Z))
  = [[0; 1]; [3]; [1; 2; 3]; [1]; [2]]%Z.
Proof.
  apply (onehot_round_trip [[0; 1]; [3]; [3; 1; 2]; [1]; [2]]%Z 4).
  reflexivity.
Defined.

(** ** csr_vstack *)

Lemma slice_app_left {A : Type} (l1 l2 : list A) (lo hi : Z) :
  (0 <= lo <= hi)%Z -> (hi <= Z.of_nat (length l1))%Z ->
  slice (l1 ++ l2) lo hi = slice l1 lo hi.
Proof.
  intros H1 H2. unfold slice.
  rewrite skipn_app, firstn_app, length_skipn.
  replace (Z.to_nat lo - length l1)%nat with O by lia.
  replace (Z.to_nat hi - Z.to_nat lo - (length l1 - Z.to_nat lo))%nat
    with O by lia.
  cbn [skipn firstn]. apply app_nil_r.
Qed.

Lemma slice_app_right {A : Type} (l1 l2 : list A) (lo hi : Z) :
  (0 <= lo <= hi)%Z ->
  slice (l1 ++ l2) (lo + Z.of_nat (length l1)) (hi + Z.of_nat (length l1))
  = slice l2 lo hi.
Proof.
  intro H. unfold slice.
  rewrite skipn_app, skipn_all2 by lia. cbn [app].
  f_equal; [lia | f_equal; lia].
Qed.

Lemma indptr_monotone (I : list Z) (R : nat) :
  (forall r, (r < R)%nat -> (nth r I 0 <= nth (S r) I 0)%Z) ->
  forall r s, (r <= s)%nat -> (s <= R)%nat -> (nth r I 0 <= nth s I 0)%Z.
Proof.
  intros Hstep r s Hrs. induction Hrs as [|s Hrs IH]; intro HsR.
  - lia.
  - specialize (IH ltac:(lia)). specialize (Hstep s ltac:(lia)). lia.
Qed.

Lemma nth_tl {A : Type} (l : list A) (k : nat) (d : A) :
  nth k (tl l) d = nth (S k) l d.
Proof. destruct l; [destruct k|]; reflexivity. Qed.

(** [csr_vstack] stacks two CSR matrices: for matrices that satisfy the CSR
    invariant, the result satisfies it, has the rows of [a] followed by the
    rows of [b] (each with its stored columns and values), and takes its
    number of columns from [b]. *)
Theorem csr_vstack_rows (a b : util_extra.csr_matrix) :
  csr_wf a -> csr_wf b ->
  exists c : util_extra.csr_matrix,
    util_extra.csr_vstack a b = Ok c /\
    util_extra.shape c
    = (fst (util_extra.shape a) + fst (util_extra.shape b),
       snd (util_extra.shape b))%nat /\
    csr_wf c /\
    (forall r, (r < fst (util_extra.shape a))%nat ->
               csr_row c r = csr_row a r) /\
    (forall r, (r < fst (util_extra.shape b))%nat ->
               csr_row c (fst (util_extra.shape a) + r) = csr_row b r).
Proof.
  intros (HaL & Ha0 & HaM & HaE & HaI) (HbL & Hb0 & HbM & HbE & HbI).
  cbv zeta in *.
  destruct a as [DA XA IA [Ra Ca]]. destruct b as [DB XB IB [Rb Cb]].
  cbn [util_extra.data util_extra.indices util_extra.indptr util_extra.shape
       fst snd] in *.
  set (n := Z.of_nat (length DA)) in *.
  assert (Hnnz : util_extra.nnz (util_extra.mk_csr DA XA IA (Ra, Ca)) = Ok n).
  { unfold util_extra.nnz. cbn [util_extra.indptr].
    rewrite (getitem_inside IA (-1) 0%Z) by lia.
    rewrite HaL.
    replace (Z.to_nat (-1 mod Z.of_nat (S Ra))) with Ra.
    - rewrite HaE. reflexivity.
    - rewrite <- (Z.mod_add (-1) 1 (Z.of_nat (S Ra))) by lia.
      rewrite Z.mod_small by lia. lia. }
  unfold util_extra.csr_vstack. rewrite Hnnz.
  cbn [bind util_extra.data util_extra.indices util_extra.indptr
       util_extra.shape fst snd].
  set (IC := IA ++ tl (map (fun p => (p + n)%Z) IB)).
  assert (Hlow : forall r, (r <= Ra)%nat -> nth r IC 0%Z = nth r IA 0%Z).
  { intros r Hr. unfold IC. apply app_nth1. lia. }
  assert (Hhigh : forall k, (k < Rb)%nat ->
            nth (Ra + S k) IC 0%Z = (nth (S k) IB 0 + n)%Z).
  { intros k Hk. unfold IC. rewrite app_nth2 by lia.
    replace (Ra + S k - length IA)%nat with k by lia.
    rewrite nth_tl.
    apply (nth_map_in (fun p => (p + n)%Z) IB (S k) 0%Z 0%Z). lia. }
  assert (Hat : forall k, (k <= Rb)%nat ->
            nth (Ra + k) IC 0%Z = (nth k IB 0 + n)%Z).
  { intros [|k] Hk.
    - rewrite Nat.add_0_r, Hlow, HaE, Hb0 by lia. reflexivity.
    - apply Hhigh. lia. }
  assert (HaB : forall r, (r <= Ra)%nat -> (0 <= nth r IA 0 <= n)%Z).
  { intros r Hr.
    pose proof (indptr_monotone IA Ra HaM 0 r ltac:(lia) Hr).
    pose proof (indptr_monotone IA Ra HaM r Ra Hr ltac:(lia)).
    unfold n. lia. }
  assert (HbB : forall k, (k <= Rb)%nat -> (0 <= nth k IB 0)%Z).
  { intros k Hk.
    pose proof (indptr_monotone IB Rb HbM 0 k ltac:(lia) Hk). lia. }
  eexists. split; [reflexivity|]. split; [reflexivity|]. split; [|split].
  - unfold csr_wf.
    cbn [util_extra.data util_extra.indices util_extra.indptr
         util_extra.shape fst]. fold IC.
    split; [|split; [|split; [|split]]].
    + unfold IC. rewrite length_app.
      assert (length (tl (map (fun p => (p + n)%Z) IB)) = Rb).
      { destruct IB as [|p IB]; [discriminate|].
        cbn [map tl]. rewrite length_map. cbn [length] in HbL. lia. }
      lia.
    + rewrite Hlow by lia. exact Ha0.
    + intros r Hr. destruct (Nat.lt_ge_cases r Ra) as [L|G].
      * rewrite !Hlow by lia. apply HaM, L.
      * replace r with (Ra + (r - Ra))%nat by lia.
        replace (S (Ra + (r - Ra))) with (Ra + S (r - Ra))%nat by lia.
        rewrite !Hat by lia.
        specialize (HbM (r - Ra)%nat ltac:(lia)). lia.
    + rewrite Hat, HbE, length_app by lia. unfold n. lia.
    + rewrite !length_app. lia.
  - intros r Hr. unfold csr_row.
    cbn [util_extra.data util_extra.indices util_extra.indptr]. fold IC.
    rewrite !Hlow by lia.
    pose proof (HaB r ltac:(lia)). pose proof (HaB (S r) ltac:(lia)).
    specialize (HaM r Hr).
    rewrite !slice_app_left by (try rewrite HaI; unfold n in *; lia).
    reflexivity.
  - intros k Hk. unfold csr_row.
    cbn [util_extra.data util_extra.indices util_extra.indptr]. fold IC.
    replace (S (Ra + k)) with (Ra + S k)%nat by lia.
    rewrite !Hat by lia.
    pose proof (HbB k ltac:(lia)). specialize (HbM k Hk).
    unfold n. rewrite slice_app_right by lia.
    rewrite <- HaI. rewrite slice_app_right by lia. reflexivity.
Qed.

Lemma csr_vstack_rows_witness :
  exists c : util_extra.csr_matrix,
    util_extra.csr_vstack
      (util_extra.mk_csr [1; 2; 3] [0; 2; 1]%Z [0; 2; 3]%Z (2, 3)%nat)
      (util_extra.mk_csr [7] [1]%Z [0; 0; 1]%Z (2, 3)%nat) = Ok c /\
    util_extra.shape c = (4, 3)%nat /\
    csr_row c 3 = [(1%Z, 7)].
Proof.
  destruct (csr_vstack_rows
              (util_extra.mk_csr [1; 2; 3] [0; 2; 1]%Z [0; 2; 3]%Z (2, 3)%nat)
              (util_extra.mk_csr [7] [1]%Z [0; 0; 1]%Z (2, 3)%nat))
    as (c & Hc & Hshape & _ & _ & Hb).
  - unfold csr_wf. cbn. repeat split; try lia.
    intros [|[|r]] Hr; cbn; lia.
  - unfold csr_wf. cbn. repeat split; try lia.
    intros [|[|r]] Hr; cbn; lia.
  - exists c. split; [exact Hc|]. split; [exact Hshape|].
    apply (Hb 1%nat). cbn. lia.
Defined.

(** ** Finite sums over index lists *)

Lemma sorted_split {A : Type} (R : A -> A -> Prop) (l : list A) (k : nat)
    (x y : A) :
  StronglySorted R l -> In x (firstn k l) -> In y (skipn k l) -> R x y.
Proof.
  intro H. revert k. induction H as [|a l Hl IH Ha]; intros k Hx Hy.
  - destruct k; contradiction.
  - destruct k as [|k]; [contradiction|].
    cbn [firstn skipn] in Hx, Hy. destruct Hx as [<-|Hx].
    + rewrite Forall_forall in Ha. apply Ha.
      rewrite <- (firstn_skipn k l). apply in_or_app. right. exact Hy.
    + apply (IH k Hx Hy).
Qed.

Lemma sum_map_perm {A : Type} (f : A -> Q) (l l' : list A) :
  Permutation l l' -> np.sum (map f l) == np.sum (map f l').
Proof.
  induction 1 as [|x l l' Hp IH|x y l|l l' l'' H1 IH1 H2 IH2]; simpl.
  - reflexivity.
  - rewrite IH. reflexivity.
  - lra.
  - rewrite IH1. exact IH2.
Qed.

Lemma sum_map_seq (f : nat -> Q) (n : nat) :
  np.sum (map f (seq 0 n)) == sumf f n.
Proof.
  induction n as [|n IH]; [reflexivity|].
  rewrite seq_S, map_app. cbn [sumf Nat.add map].
  assert (H : forall l1 l2, np.sum (l1 ++ l2) == np.sum l1 + np.sum l2).
  { intros l1 l2. induction l1 as [|x l1 IH1]; simpl; [lra|].
    rewrite IH1. lra. }
  rewrite H, IH. simpl. lra.
Qed.

Lemma sum_app (l1 l2 : list Q) : np.sum (l1 ++ l2) == np.sum l1 + np.sum l2.
Proof.
  induction l1 as [|x l1 IH]; simpl; [lra|]. rewrite IH. lra.
Qed.

Lemma sum_map_le {A : Type} (f : A -> Q) (c : Q) (l : list A) :
  (forall i, In i l -> f i <= c) ->
  np.sum (map f l) <= inject_Z (Z.of_nat (length l)) * c.
Proof.
  induction l as [|x l IH]; intro H.
  - cbn. change (inject_Z 0) with 0. lra.
  - change (length (x :: l)) with (S (length l)).
    rewrite Nat2Z.inj_succ. unfold Z.succ. rewrite inject_Z_plus.
    change (inject_Z 1) with 1. cbn [map np.sum fold_right].
    assert (f x <= c) by (apply H; left; reflexivity).
    assert (np.sum (map f l) <= inject_Z (Z.of_nat (length l)) * c)
      by (apply IH; intros; apply H; right; assumption).
    unfold np.sum in *. lra.
Qed.

Lemma sum_map_ge {A : Type} (f : A -> Q) (c : Q) (l : list A) :
  (forall i, In i l -> c <= f i) ->
  inject_Z (Z.of_nat (length l)) * c <= np.sum (map f l).
Proof.
  induction l as [|x l IH]; intro H.
  - cbn. change (inject_Z 0) with 0. lra.
  - change (length (x :: l)) with (S (length l)).
    rewrite Nat2Z.inj_succ. unfold Z.succ. rewrite inject_Z_plus.
    change (inject_Z 1) with 1. cbn [map np.sum fold_right].
    assert (c <= f x) by (apply H; left; reflexivity).
    assert (inject_Z (Z.of_nat (length l)) * c <= np.sum (map f l))
      by (apply IH; intros; apply H; right; assumption).
    unfold np.sum in *. lra.
Qed.

(** A sum of terms that are at most [c >= 0], one of them at most 0. *)
Lemma sum_map_le_one_low {A : Type} (f : A -> Q) (c : Q) (l : list A)
    (i0 : A) :
  0 <= c -> In i0 l -> f i0 <= 0 ->
  (forall i, In i l -> f i <= c) ->
  np.sum (map f l) <= (inject_Z (Z.of_nat (length l)) - 1) * c.
Proof.
  intros Hc Hin H0 H. induction l as [|x l IH]; [contradiction|].
  change (length (x :: l)) with (S (length l)).
  rewrite Nat2Z.inj_succ. unfold Z.succ. rewrite inject_Z_plus.
  change (inject_Z 1) with 1. cbn [map np.sum fold_right].
  destruct Hin as [->|Hin].
  - pose proof (sum_map_le f c l
                  (fun i Hi => H i (or_intror Hi))) as Hl.
    unfold np.sum in *. lra.
  - assert (f x <= c) by (apply H; left; reflexivity).
    assert (np.sum (map f l) <= (inject_Z (Z.of_nat (length l)) - 1) * c)
      by (apply IH; [exact Hin | intros; apply H; right; assumption]).
    unfold np.sum in *. lra.
Qed.

Lemma sum_map_ge_one_high {A : Type} (f : A -> Q) (c : Q) (l : list A)
    (i0 : A) :
  0 <= c -> In i0 l -> 0 <= f i0 ->
  (forall i, In i l -> - c <= f i) ->
  - ((inject_Z (Z.of_nat (length l)) - 1) * c) <= np.sum (map f l).
Proof.
  intros Hc Hin H0 H.
  pose proof (sum_map_le_one_low (fun i => - f i) c l i0 Hc Hin
                ltac:(cbn beta; lra)) as Hl.
  assert (Hneg : np.sum (map (fun i => - f i) l) == - np.sum (map f l)).
  { clear. induction l as [|x l IH]; simpl; [lra|]. rewrite IH. lra. }
  rewrite Hneg in Hl.
  assert (forall i, In i l -> - f i <= c)
    by (intros i Hi; specialize (H i Hi); lra).
  specialize (Hl H1). lra.
Qed.

(** * round_preserving_sum on float64 *)

(** ** Rounding to float64 *)

Lemma pow2_pos (e : Z) : 0 < 2 ^ e.
Proof. apply Qpower_0_lt. reflexivity. Qed.

Lemma pow2_add (a b : Z) : 2 ^ (a + b) == 2 ^ a * 2 ^ b.
Proof. apply Qpower_plus. discriminate. Qed.

Lemma pow2_Z (e : Z) : (0 <= e)%Z -> 2 ^ e == inject_Z (2 ^ e).
Proof. intro H. rewrite Zpower_Qpower by assumption. reflexivity. Qed.

Lemma pow2_le (a b : Z) : (a <= b)%Z -> 2 ^ a <= 2 ^ b.
Proof. intro H. apply Qpower_le_compat_l; [assumption | discriminate]. Qed.

Lemma pow2_lt_inv (a b : Z) : 2 ^ a < 2 ^ b -> (a < b)%Z.
Proof.
  intro H. apply (Qpower_lt_compat_l_inv 2); [assumption | reflexivity].
Qed.

Lemma ilog2_le (x : Q) : 0 < x -> 2 ^ f64.ilog2 x <= x.
Proof.
  intro Hx. unfold f64.ilog2.
  set (a := Z.log2 (Qnum x)). set (b := Z.log2 (Zpos (Qden x))).
  destruct (Qle_bool (2 ^ (a - b)) x) eqn:E.
  - apply Qle_bool_iff. exact E.
  - clear E.
    assert (Hn : (0 < Qnum x)%Z).
    { unfold Qlt in Hx. simpl in Hx. lia. }
    assert (Ha : (2 ^ a <= Qnum x)%Z) by (apply Z.log2_spec; assumption).
    assert (Hb : (Zpos (Qden x) < 2 ^ (b + 1))%Z).
    { pose proof (Z.log2_spec (Zpos (Qden x)) ltac:(lia)) as H.
      unfold b. replace (Z.log2 (Z.pos (Qden x)) + 1)%Z
        with (Z.succ (Z.log2 (Z.pos (Qden x)))) by lia. apply H. }
    assert (Ha0 : (0 <= a)%Z) by apply Z.log2_nonneg.
    assert (Hb0 : (0 <= b)%Z) by apply Z.log2_nonneg.
    pose proof (pow2_pos (a - b - 1)) as Ht.
    assert (Hprod : 2 ^ (a - b - 1) * 2 ^ (b + 1) == 2 ^ a).
    { rewrite <- pow2_add. replace (a - b - 1 + (b + 1))%Z with a by lia.
      reflexivity. }
    rewrite (pow2_Z a), (pow2_Z (b + 1)) in Hprod by lia.
    rewrite Zle_Qle in Ha. rewrite Zlt_Qlt in Hb.
    set (t := 2 ^ (a - b - 1)) in *.
    set (P := inject_Z (2 ^ (b + 1))) in *.
    set (A := inject_Z (2 ^ a)) in *.
    assert (Hx' : x * inject_Z (Zpos (Qden x)) == inject_Z (Qnum x)).
    { destruct x as [n d]. unfold Qeq, inject_Z. simpl. lia. }
    set (d := inject_Z (Zpos (Qden x))) in *.
    set (n := inject_Z (Qnum x)) in *.
    assert (Hd : 0 < d) by (unfold d, Qlt; simpl; lia).
    apply Qnot_lt_le. intro Hlt.
    assert (H1 : x * d < t * d) by (apply Qmult_lt_compat_r; assumption).
    assert (H2 : t * d <= t * P).
    { rewrite !(Qmult_comm t). apply Qmult_le_compat_r; lra. }
    lra.
Qed.

Lemma ulp_pos (x : Q) : 0 < f64.ulp x.
Proof. apply pow2_pos. Qed.

(** The spacing is at most [2^-52] times any bound [M >= 1] of [|x|]. *)
Lemma ulp_le (x M : Q) :
  ~ x == 0 -> 1 <= M -> Qabs x <= M -> f64.ulp x <= M * 2 ^ (-52).
Proof.
  intros Hx HM Hb. unfold f64.ulp.
  assert (Hpos : 0 < Qabs x).
  { destruct (Qlt_le_dec 0 (Qabs x)) as [L|G]; [exact L|].
    exfalso. apply Hx. apply Qabs_Qle_condition in G. lra. }
  pose proof (ilog2_le _ Hpos) as He.
  set (e := f64.ilog2 (Qabs x)) in *.
  pose proof (pow2_pos (-52)) as H52.
  destruct (Z.max_spec e (-1022)) as [[_ ->]|[_ ->]].
  - replace (-1022 - 52)%Z with (-1022 + -52)%Z by lia.
    rewrite pow2_add.
    assert (2 ^ (-1022) <= 1).
    { change 1 with (2 ^ 0). apply pow2_le. lia. }
    apply Qmult_le_compat_r; lra.
  - replace (e - 52)%Z with (e + -52)%Z by lia.
    rewrite pow2_add. apply Qmult_le_compat_r; lra.
Qed.

Lemma Qabs_diff_le (a b c : Q) : a - c <= b <= a + c -> Qabs (b - a) <= c.
Proof. intro H. apply Qabs_Qle_condition. lra. Qed.

Lemma nearest_eq (x : Q) :
  ~ x == 0 ->
  f64.nearest x == inject_Z (np.rint (Qred x / f64.ulp (Qred x)))
                   * f64.ulp (Qred x).
Proof.
  intro Hx. unfold f64.nearest. cbv zeta.
  destruct (Qeq_bool (Qred x) 0) eqn:E.
  - apply Qeq_bool_iff in E. rewrite Qred_correct in E. contradiction.
  - apply Qred_correct.
Qed.

Lemma nearest_zero (x : Q) : x == 0 -> f64.nearest x = 0.
Proof.
  intro Hx. unfold f64.nearest. cbv zeta.
  rewrite (Qred_complete x 0 Hx). reflexivity.
Qed.

(** The rounding error of one operation. *)
Lemma nearest_error (x M : Q) :
  1 <= M -> Qabs x <= M -> Qabs (f64.nearest x - x) <= M * 2 ^ (-53).
Proof.
  intros HM Hb.
  pose proof (pow2_pos (-53)) as H53.
  destruct (Qeq_dec x 0) as [Hz|Hnz].
  - rewrite (nearest_zero x Hz), Hz.
    setoid_replace (0 - 0) with 0 by ring. simpl Qabs.
    apply Qmult_le_0_compat; lra.
  - rewrite (nearest_eq x Hnz).
    set (y := Qred x) in *.
    assert (Hy : y == x) by apply Qred_correct.
    assert (Hynz : ~ y == 0) by (rewrite Hy; exact Hnz).
    pose proof (ulp_pos y) as Hu.
    pose proof (ulp_le y M Hynz HM ltac:(rewrite Hy; exact Hb)) as Hle.
    pose proof (rint_near (y / f64.ulp y)) as Hr.
    set (u := f64.ulp y) in *. set (r := inject_Z (np.rint (y / u))) in *.
    assert (Hyu : y / u * u == y) by (field; lra).
    assert (H2 : 2 ^ (-52) == 2 * 2 ^ (-53)).
    { replace (-52)%Z with (1 + -53)%Z by lia. rewrite pow2_add. reflexivity. }
    rewrite H2 in Hle.
    apply Qabs_diff_le.
    destruct Hr as [Hr1 Hr2].
    assert (Ha : (r - (1 # 2)) * u <= y / u * u)
      by (apply Qmult_le_compat_r; lra).
    assert (Hc : y / u * u <= (r + (1 # 2)) * u)
      by (apply Qmult_le_compat_r; lra).
    split; lra.
Qed.

Lemma f64_abs (x : Q) (m e : Z) :
  x == inject_Z m * 2 ^ e -> Qabs x == inject_Z (Z.abs m) * 2 ^ e.
Proof.
  intro H. rewrite H, Qabs_Qmult.
  rewrite (Qabs_pos (2 ^ e)) by (apply Qlt_le_weak, pow2_pos).
  reflexivity.
Qed.

Lemma f64_bound (x : Q) (m e : Z) :
  (Z.abs m < 2 ^ 53)%Z -> x == inject_Z m * 2 ^ e -> Qabs x < 2 ^ (53 + e).
Proof.
  intros Hm Hx. rewrite (f64_abs x m e Hx), pow2_add.
  apply Qmult_lt_compat_r; [apply pow2_pos|].
  rewrite pow2_Z by lia. rewrite <- Zlt_Qlt. exact Hm.
Qed.

(** A float64 value is a fixed point of the rounding. *)
Lemma nearest_exact (x : Q) : is_f64 x -> f64.nearest x = Qred x.
Proof.
  intros (m & e & Hm & He & Hx).
  destruct (Qeq_dec x 0) as [Hz|Hnz].
  - rewrite (nearest_zero x Hz), (Qred_complete x 0 Hz). reflexivity.
  - unfold f64.nearest. cbv zeta.
    destruct (Qeq_bool (Qred x) 0) eqn:E.
    { apply Qeq_bool_iff in E. rewrite Qred_correct in E. contradiction. }
    clear E. apply Qred_complete.
    set (y := Qred x).
    assert (Hy : y == x) by apply Qred_correct.
    assert (Hpos : 0 < Qabs y).
    { destruct (Qlt_le_dec 0 (Qabs y)) as [L|G]; [exact L|].
      exfalso. apply Hnz. rewrite <- Hy. apply Qabs_Qle_condition in G. lra. }
    pose proof (ilog2_le _ Hpos) as Hlo.
    pose proof (f64_bound y m e Hm ltac:(rewrite Hy; exact Hx)) as Hhi.
    assert (Hlt : (f64.ilog2 (Qabs y) < 53 + e)%Z).
    { apply pow2_lt_inv. lra. }
    unfold f64.ulp.
    set (k := (Z.max (f64.ilog2 (Qabs y)) (-1022) - 52)%Z).
    assert (Hk : (k <= e)%Z) by (unfold k; lia).
    pose proof (pow2_pos k) as Hu.
    assert (Hq : y / 2 ^ k == inject_Z (m * 2 ^ (e - k))).
    { rewrite inject_Z_mult, <- pow2_Z by lia.
      rewrite Hy, Hx. replace e with (e - k + k)%Z at 1 by lia.
      rewrite pow2_add. field. lra. }
    rewrite (rint_proper _ _ Hq), rint_inject_Z.
    rewrite inject_Z_mult, <- pow2_Z by lia.
    rewrite <- Qmult_assoc, <- pow2_add.
    replace (e - k + k)%Z with e by lia. symmetry. exact Hx.
Qed.

Lemma rnd_exact (x : Q) : is_f64 x -> f64.rnd x = Fin (Qred x).
Proof.
  intro H. unfold f64.rnd. cbv zeta. rewrite (nearest_exact x H).
  destruct H as (m & e & Hm & He & Hx).
  pose proof (f64_bound x m e Hm Hx) as Hb.
  assert (Hle : 2 ^ (53 + e) <= 2 ^ 1024) by (apply pow2_le; lia).
  destruct (Qle_bool (2 ^ 1024) (Qabs (Qred x))) eqn:E; [|reflexivity].
  apply Qle_bool_iff in E. rewrite Qred_correct in E. lra.
Qed.

Lemma is_f64_Z (z : Z) : (Z.abs z < 2 ^ 53)%Z -> is_f64 (inject_Z z).
Proof.
  intro H. exists z, 0%Z. repeat split; try lia; try assumption.
  change (2 ^ 0) with 1. ring.
Qed.

Lemma Qred_inject_Z (z : Z) : Qred (inject_Z z) = inject_Z z.
Proof.
  unfold Qred, inject_Z. simpl Qnum. simpl Qden.
  pose proof (Z.ggcd_correct_divisors z 1) as H.
  pose proof (Z.ggcd_gcd z 1) as G. rewrite Z.gcd_1_r in G.
  destruct (Z.ggcd z 1) as (g & a & b). simpl in *. subst g.
  destruct H as [H1 H2]. f_equal; [lia|]. 
  assert (b = 1%Z) by lia. subst b. reflexivity.
Qed.

(** Integers below [2^53] are added without rounding. *)
Lemma rnd_Z (z : Z) :
  (Z.abs z < 2 ^ 53)%Z -> f64.rnd (inject_Z z) = Fin (inject_Z z).
Proof.
  intro H. rewrite (rnd_exact _ (is_f64_Z z H)), Qred_inject_Z. reflexivity.
Qed.

(** ** Pairwise summation is a summation *)

Lemma sums_to_cast (k k' : nat) (l l' : list float) (r : float) :
  sums_to k l r -> k = k' -> l = l' -> sums_to k' l' r.
Proof. intros H -> ->. exact H. Qed.

Lemma fold_left_sums (l : list float) :
  forall (k0 : nat) (l0 : list float) (acc : float),
    sums_to k0 l0 acc ->
    sums_to (k0 + length l) (l0 ++ l) (fold_left f64.add l acc).
Proof.
  induction l as [|x l IH]; intros k0 l0 acc H.
  - apply (sums_to_cast k0 _ l0); [exact H | simpl; lia |].
    rewrite app_nil_r. reflexivity.
  - cbn [fold_left].
    pose proof (sum_node _ _ _ _ _ _ H (sum_leaf x)) as Hn.
    apply IH in Hn.
    eapply sums_to_cast; [exact Hn | simpl; lia |].
    rewrite <- app_assoc. reflexivity.
Qed.

Lemma length_zip_add (r b : list float) :
  length r = length b -> length (np64.zip_add r b) = length r.
Proof.
  revert b. induction r as [|x r IH]; intros [|y b] H; simpl in *;
    try discriminate; [reflexivity|].
  rewrite IH by lia. reflexivity.
Qed.

Lemma zip_add_holds (ls : list (list float)) (r : list float) :
  holds ls r ->
  forall b : list float,
    length b = length r ->
    holds (snoc_each ls b) (np64.zip_add r b) /\
    Permutation (concat (snoc_each ls b)) (concat ls ++ b).
Proof.
  induction 1 as [|l x ls r [Hl Hne] Hrest IH]; intros b Hb.
  - destruct b; [|discriminate]. split; [constructor | constructor].
  - destruct b as [|y b]; [discriminate|]. simpl in Hb.
    destruct (IH b ltac:(lia)) as [Hh Hp].
    cbn [snoc_each np64.zip_add]. split.
    + constructor; [|exact Hh]. split.
      * pose proof (sum_node _ _ _ _ _ _ Hl (sum_leaf y)) as Hn.
        eapply sums_to_cast; [exact Hn | | reflexivity].
        rewrite length_app. simpl.
        destruct l; [congruence | simpl; lia].
      * destruct l; discriminate.
    + cbn [concat]. rewrite <- !app_assoc. apply Permutation_app_head.
      cbn [app]. rewrite Hp.
      rewrite <- Permutation_middle. reflexivity.
Qed.

Lemma accumulate_holds (blocks : nat) :
  forall (ls : list (list float)) (r a : list float),
    holds ls r -> length r = 8%nat -> (8 * blocks <= length a)%nat ->
    exists ls' : list (list float),
      holds ls' (fst (np64.accumulate blocks r a)) /\
      length (fst (np64.accumulate blocks r a)) = 8%nat /\
      Permutation (concat ls' ++ snd (np64.accumulate blocks r a))
                  (concat ls ++ a).
Proof.
  induction blocks as [|k IH]; intros ls r a Hh Hr Ha.
  - exists ls. simpl. repeat split; [exact Hh | exact Hr | reflexivity].
  - cbn [np64.accumulate].
    assert (Hb : length (firstn 8 a) = length r)
      by (rewrite length_firstn; lia).
    destruct (zip_add_holds ls r Hh (firstn 8 a) Hb) as [Hh' Hp].
    destruct (IH (snoc_each ls (firstn 8 a))
                 (np64.zip_add r (firstn 8 a)) (skipn 8 a) Hh')
      as (ls' & H1 & H2 & H3).
    + rewrite length_zip_add by lia. exact Hr.
    + rewrite length_skipn. lia.
    + exists ls'. repeat split; [exact H1 | exact H2 |].
      rewrite H3, Hp, <- app_assoc, firstn_skipn. reflexivity.
Qed.

Lemma holds_leaves (a : list float) : holds (map (fun x => [x]) a) a.
Proof.
  induction a as [|x a IH]; constructor; [|exact IH].
  split; [apply sum_leaf | discriminate].
Qed.

Lemma concat_leaves (a : list float) : concat (map (fun x => [x]) a) = a.
Proof. induction a as [|x a IH]; simpl; congruence. Qed.

Lemma unrolled_sums (a : list float) :
  (8 <= length a)%nat -> sums_to (length a - 1) a (np64.unrolled_sum a).
Proof.
  intro Hn. unfold np64.unrolled_sum.
  assert (Hdiv : (8 * (length a / 8) <= length a)%nat)
    by (apply Nat.Div0.mul_div_le).
  destruct (accumulate_holds (length a / 8 - 1)
              (map (fun x => [x]) (firstn 8 a)) (firstn 8 a) (skipn 8 a)
              (holds_leaves _))
    as (ls & Hh & Hlen & Hp).
  { rewrite length_firstn. lia. }
  { rewrite length_skipn. lia. }
  rewrite concat_leaves, firstn_skipn in Hp.
  destruct (np64.accumulate (length a / 8 - 1) (firstn 8 a) (skipn 8 a))
    as [r rest]. cbn [fst snd] in *.
  destruct r as [|r0 [|r1 [|r2 [|r3 [|r4 [|r5 [|r6 [|r7 [|? ?]]]]]]]]];
    try discriminate.
  inversion Hh as [|e0 ? ? ? [H0 N0] Hh1]; subst.
  inversion Hh1 as [|e1 ? ? ? [H1 N1] Hh2]; subst.
  inversion Hh2 as [|e2 ? ? ? [H2 N2] Hh3]; subst.
  inversion Hh3 as [|e3 ? ? ? [H3 N3] Hh4]; subst.
  inversion Hh4 as [|e4 ? ? ? [H4 N4] Hh5]; subst.
  inversion Hh5 as [|e5 ? ? ? [H5 N5] Hh6]; subst.
  inversion Hh6 as [|e6 ? ? ? [H6 N6] Hh7]; subst.
  inversion Hh7 as [|e7 ? ? ? [H7 N7] Hh8]; subst.
  inversion Hh8; subst.
  pose proof (sum_node _ _ _ _ _ _
                (sum_node _ _ _ _ _ _ (sum_node _ _ _ _ _ _ H0 H1)
                                      (sum_node _ _ _ _ _ _ H2 H3))
                (sum_node _ _ _ _ _ _ (sum_node _ _ _ _ _ _ H4 H5)
                                      (sum_node _ _ _ _ _ _ H6 H7))) as Ht.
  apply (fold_left_sums rest) in Ht.
  apply (sum_perm _ _ a) in Ht.
  - eapply sums_to_cast; [exact Ht | | reflexivity].
    apply Permutation_length in Hp.
    cbn [concat] in Hp. rewrite !length_app in Hp. simpl in Hp.
    assert (forall l : list float, l <> [] -> (1 <= length l)%nat)
      as Hpos by (intros [|? ?] ?; [congruence | simpl; lia]).
    pose proof (Hpos _ N0). pose proof (Hpos _ N1). pose proof (Hpos _ N2).
    pose proof (Hpos _ N3). pose proof (Hpos _ N4). pose proof (Hpos _ N5).
    pose proof (Hpos _ N6). pose proof (Hpos _ N7). lia.
  - rewrite <- Hp. cbn [concat]. rewrite app_nil_r, <- !app_assoc.
    reflexivity.
Qed.

Lemma half_split (n : nat) :
  (128 < n)%nat ->
  let n2 := (n / 2 - (n / 2) mod 8)%nat in
  (8 <= n2)%nat /\ (n2 + 8 <= n)%nat /\ (n2 < n)%nat.
Proof.
  intros Hn n2.
  pose proof (Nat.div_mod_eq n 2) as Hd.
  pose proof (Nat.mod_upper_bound n 2 ltac:(lia)) as Hm.
  pose proof (Nat.mod_upper_bound (n / 2) 8 ltac:(lia)) as Hm8.
  pose proof (Nat.Div0.mod_le (n / 2) 8) as Hle.
  unfold n2. lia.
Qed.

Lemma pairwise_sums (fuel : nat) :
  forall a : list float,
    (length a <= fuel)%nat ->
    exists k : nat,
      sums_to k a (np64.pairwise_sum fuel a) /\
      (k <= length a)%nat /\ ((8 <= length a)%nat -> (k < length a)%nat).
Proof.
  induction fuel as [|fuel IH]; intros a Ha.
  - destruct a; [|simpl in Ha; lia].
    exists O. simpl. split; [apply sum_zero | lia].
  - cbn [np64.pairwise_sum].
    destruct (Nat.ltb_spec (length a) 8) as [L|G].
    + exists (length a). split; [|lia].
      apply (fold_left_sums a 0 [] (Fin 0) sum_zero).
    + destruct (Nat.leb_spec (length a) 128) as [L'|G'].
      * exists (length a - 1)%nat. split; [|lia].
        apply unrolled_sums. exact G.
      * destruct (half_split (length a) G') as (H1 & H2 & H3).
        set (n2 := (length a / 2 - (length a / 2) mod 8)%nat) in *.
        destruct (IH (firstn n2 a)) as (k1 & S1 & B1 & C1).
        { rewrite length_firstn. lia. }
        destruct (IH (skipn n2 a)) as (k2 & S2 & B2 & C2).
        { rewrite length_skipn. lia. }
        rewrite length_firstn in B1, C1. rewrite length_skipn in B2, C2.
        exists (S (k1 + k2)).
        pose proof (sum_node _ _ _ _ _ _ S1 S2) as Hn.
        rewrite firstn_skipn in Hn. split; [exact Hn|].
        specialize (C1 ltac:(lia)). specialize (C2 ltac:(lia)). lia.
Qed.

Lemma sum_sums_to (a : list float) :
  exists k : nat, sums_to k a (np64.sum a) /\ (k <= length a)%nat.
Proof.
  destruct (pairwise_sums (length a) a (le_n _)) as (k & H & B & _).
  exists k. split; assumption.
Qed.

(** ** Accuracy of a float64 sum *)

Lemma nearest_proper (x y : Q) : x == y -> f64.nearest x = f64.nearest y.
Proof.
  intro H. unfold f64.nearest. rewrite (Qred_complete x y H). reflexivity.
Qed.

Lemma rnd_proper (x y : Q) : x == y -> f64.rnd x = f64.rnd y.
Proof.
  intro H. unfold f64.rnd. rewrite (nearest_proper x y H). reflexivity.
Qed.

Lemma rnd_fin (x : Q) :
  Qabs (f64.nearest x) < 2 ^ 1024 -> f64.rnd x = Fin (f64.nearest x).
Proof.
  intro H. unfold f64.rnd. cbv zeta.
  destruct (Qle_bool (2 ^ 1024) (Qabs (f64.nearest x))) eqn:E;
    [|reflexivity].
  apply Qle_bool_iff in E. lra.
Qed.

Lemma sum_abs_bounds (v : list Q) :
  0 <= sum_abs v /\ - sum_abs v <= np.sum v <= sum_abs v.
Proof.
  unfold sum_abs. induction v as [|x v IH].
  - simpl. lra.
  - change (np.sum (map Qabs (x :: v)))
      with (Qabs x + np.sum (map Qabs v)).
    change (np.sum (x :: v)) with (x + np.sum v).
    pose proof (Qabs_nonneg x). pose proof (Qle_Qabs x).
    pose proof (Qle_Qabs (- x)) as Hn. rewrite Qabs_opp in Hn. lra.
Qed.

Lemma sum_abs_app (a b : list Q) : sum_abs (a ++ b) == sum_abs a + sum_abs b.
Proof. unfold sum_abs. rewrite map_app. apply sum_app. Qed.

Lemma sum_perm_eq (a b : list Q) :
  Permutation a b -> np.sum a == np.sum b /\ sum_abs a == sum_abs b.
Proof.
  intro H. split.
  - rewrite <- (map_id a), <- (map_id b). apply sum_map_perm. exact H.
  - apply sum_map_perm. exact H.
Qed.

Lemma inject_nat_S (k : nat) :
  inject_Z (Z.of_nat (S k)) == inject_Z (Z.of_nat k) + 1.
Proof.
  rewrite Nat2Z.inj_succ. unfold Z.succ. rewrite inject_Z_plus. reflexivity.
Qed.

Lemma inject_nat_add (a b : nat) :
  inject_Z (Z.of_nat (a + b)) == inject_Z (Z.of_nat a) + inject_Z (Z.of_nat b).
Proof. rewrite Nat2Z.inj_add, inject_Z_plus. reflexivity. Qed.

Lemma inject_nat_nonneg (k : nat) : 0 <= inject_Z (Z.of_nat k).
Proof. change 0 with (inject_Z 0). rewrite <- Zle_Qle. lia. Qed.

(** The error of a float64 sum of [k] additions whose operands stay below
    [M] is at most [k] roundings at magnitude [M]. *)
Lemma sums_to_accurate (M : Q) :
  1 <= M -> M <= 2 ^ 1000 ->
  forall (k : nat) (l : list float) (r : float),
    sums_to k l r ->
    forall v : list Q,
      l = map Fin v ->
      sum_abs v + inject_Z (Z.of_nat k) * (M * 2 ^ (-53)) <= M ->
      exists q : Q,
        r = Fin q /\
        Qabs (q - np.sum v) <= inject_Z (Z.of_nat k) * (M * 2 ^ (-53)).
Proof.
  intros HM Hbig.
  pose proof (pow2_pos (-53)) as H53.
  assert (H53' : 2 ^ (-53) <= 1).
  { change 1 with (2 ^ 0). apply pow2_le. lia. }
  set (d := M * 2 ^ (-53)).
  assert (Hd0 : 0 <= d) by (apply Qmult_le_0_compat; lra).
  assert (HdM : d <= M).
  { unfold d. rewrite <- (Qmult_1_r M) at 2.
    rewrite !(Qmult_comm M). apply Qmult_le_compat_r; lra. }
  induction 1 as [|x|k1 k2 l1 l2 r1 r2 H1 IH1 H2 IH2|k l l' r Hp H IH];
    intros v Hv Hb.
  - destruct v; [|discriminate]. exists 0. split; [reflexivity|].
    apply Qabs_Qle_condition.
    change (inject_Z (Z.of_nat 0)) with 0. change (np.sum []) with 0. lra.
  - destruct v as [|q [|? ?]]; try discriminate.
    injection Hv as ->. exists q. split; [reflexivity|].
    apply Qabs_Qle_condition.
    change (inject_Z (Z.of_nat 0)) with 0. change (np.sum [q]) with (q + 0).
    lra.
  - symmetry in Hv. apply map_eq_app in Hv.
    destruct Hv as (v1 & v2 & -> & <- & <-).
    rewrite sum_abs_app in Hb. rewrite inject_nat_S, inject_nat_add in Hb.
    pose proof (sum_abs_bounds v1) as (A1 & B1).
    pose proof (sum_abs_bounds v2) as (A2 & B2).
    pose proof (inject_nat_nonneg k1) as K1.
    pose proof (inject_nat_nonneg k2) as K2.
    assert (P1 : 0 <= inject_Z (Z.of_nat k1) * d)
      by (apply Qmult_le_0_compat; assumption).
    assert (P2 : 0 <= inject_Z (Z.of_nat k2) * d)
      by (apply Qmult_le_0_compat; assumption).
    destruct (IH1 v1 eq_refl ltac:(lra)) as (q1 & -> & E1).
    destruct (IH2 v2 eq_refl ltac:(lra)) as (q2 & -> & E2).
    apply Qabs_Qle_condition in E1, E2.
    assert (Hq : Qabs (q1 + q2) <= M) by (apply Qabs_Qle_condition; lra).
    pose proof (nearest_error (q1 + q2) M HM Hq) as Hn. fold d in Hn.
    apply Qabs_Qle_condition in Hn. apply Qabs_Qle_condition in Hq.
    exists (f64.nearest (q1 + q2)). split.
    + cbn [f64.add]. apply rnd_fin.
      assert (Ht : 2 * 2 ^ 1000 < 2 ^ 1024).
      { change 2 with (2 ^ 1) at 1. rewrite <- pow2_add.
        apply Qpower_lt_compat_l; [lia | reflexivity]. }
      apply Qle_lt_trans with (2 * M); [|lra].
      apply Qabs_Qle_condition. lra.
    + rewrite sum_app, inject_nat_S, inject_nat_add.
      apply Qabs_Qle_condition. lra.
  - subst l'. apply Permutation_map_inv in Hp.
    destruct Hp as (v3 & -> & Hp).
    destruct (sum_perm_eq _ _ Hp) as [E1 E2].
    destruct (IH v3 eq_refl ltac:(rewrite <- E2; exact Hb)) as (q & -> & E).
    exists q. split; [reflexivity|]. rewrite E1. exact E.
Qed.

(** ** Sums of integers below [2^53] are exact *)

Lemma Zsum_app (a b : list Z) : Zsum (a ++ b) = (Zsum a + Zsum b)%Z.
Proof. induction a as [|x a IH]; simpl; [reflexivity|]. rewrite IH. lia. Qed.

Lemma Zsum_perm (a b : list Z) : Permutation a b -> Zsum a = Zsum b.
Proof. induction 1; simpl; lia. Qed.

Lemma Zsum_abs (a : list Z) :
  (0 <= Zsum (map Z.abs a) /\ Z.abs (Zsum a) <= Zsum (map Z.abs a))%Z.
Proof. induction a as [|x a IH]; simpl; lia. Qed.

Lemma add_Z (a b : Z) :
  (Z.abs (a + b) < 2 ^ 53)%Z ->
  f64.add (Fin (inject_Z a)) (Fin (inject_Z b)) = Fin (inject_Z (a + b)).
Proof.
  intro H. cbn [f64.add].
  rewrite (rnd_proper _ (inject_Z (a + b)))
    by (rewrite inject_Z_plus; reflexivity).
  apply rnd_Z. exact H.
Qed.

Lemma sums_to_exact (k : nat) (l : list float) (r : float) :
  sums_to k l r ->
  forall zs : list Z,
    l = lift zs -> (Zsum (map Z.abs zs) < 2 ^ 53)%Z ->
    r = Fin (inject_Z (Zsum zs)).
Proof.
  induction 1 as [|x|k1 k2 l1 l2 r1 r2 H1 IH1 H2 IH2|k l l' r Hp H IH];
    intros zs Hz Hb.
  - destruct zs; [reflexivity | discriminate].
  - destruct zs as [|z [|? ?]]; try discriminate.
    injection Hz as ->. simpl. rewrite Z.add_0_r. reflexivity.
  - symmetry in Hz. unfold lift in Hz. apply map_eq_app in Hz.
    destruct Hz as (z1 & z2 & -> & <- & <-).
    rewrite map_app, Zsum_app in Hb.
    pose proof (Zsum_abs z1). pose proof (Zsum_abs z2).
    rewrite (IH1 z1 eq_refl ltac:(lia)), (IH2 z2 eq_refl ltac:(lia)).
    rewrite Zsum_app. apply add_Z. lia.
  - subst l'. unfold lift in Hp. apply Permutation_map_inv in Hp.
    destruct Hp as (z3 & -> & Hp).
    rewrite (Zsum_perm _ _ Hp).
    apply IH; [reflexivity|].
    rewrite <- (Zsum_perm _ _ (Permutation_map Z.abs Hp)). exact Hb.
Qed.

Lemma sum_lift (zs : list Z) :
  (Zsum (map Z.abs zs) < 2 ^ 53)%Z ->
  np64.sum (lift zs) = Fin (inject_Z (Zsum zs)).
Proof.
  intro H. destruct (sum_sums_to (lift zs)) as (k & Hs & _).
  exact (sums_to_exact _ _ _ Hs zs eq_refl H).
Qed.

(** ** Integer-valued arrays below [2^53] *)

Lemma length_add_atZ (i : nat) (d : Z) (a : list Z) :
  length (add_atZ i d a) = length a.
Proof.
  revert i. induction a as [|x a IH]; intros [|i]; simpl; auto.
Qed.

Lemma length_bumpZ (d : Z) (indices : list nat) (a : list Z) :
  length (bumpZ d indices a) = length a.
Proof.
  revert a. induction indices as [|i l IH]; intro a; [reflexivity|].
  change (bumpZ d (i :: l) a) with (bumpZ d l (add_atZ i d a)).
  rewrite IH. apply length_add_atZ.
Qed.

Lemma Zsum_add_atZ (i : nat) (d : Z) (a : list Z) :
  (i < length a)%nat -> Zsum (add_atZ i d a) = (Zsum a + d)%Z.
Proof.
  revert i. induction a as [|x a IH]; intros [|i] H; simpl in *; try lia.
  rewrite IH by lia. lia.
Qed.

Lemma Zsum_bumpZ (d : Z) (indices : list nat) (a : list Z) :
  Forall (fun i => (i < length a)%nat) indices ->
  Zsum (bumpZ d indices a) = (Zsum a + Z.of_nat (length indices) * d)%Z.
Proof.
  revert a. induction indices as [|i l IH]; intros a Hin.
  - simpl. lia.
  - inversion Hin as [|? ? Hi Hl]; subst.
    change (bumpZ d (i :: l) a) with (bumpZ d l (add_atZ i d a)).
    rewrite IH by (rewrite length_add_atZ; exact Hl).
    rewrite Zsum_add_atZ by exact Hi.
    change (length (i :: l)) with (S (length l)). lia.
Qed.

Lemma abs_add_atZ (i : nat) (d B : Z) (a : list Z) :
  Forall (fun z => (Z.abs z <= B)%Z) a ->
  Forall (fun z => (Z.abs z <= B + Z.abs d)%Z) (add_atZ i d a).
Proof.
  intro H. revert i. induction H as [|x a Hx Ha IH]; intros [|i]; simpl;
    constructor; try lia.
  - eapply Forall_impl; [|exact Ha]. simpl. intros; lia.
  - apply IH.
Qed.

Lemma abs_sum_add_atZ (i : nat) (d : Z) (a : list Z) :
  (Zsum (map Z.abs (add_atZ i d a)) <= Zsum (map Z.abs a) + Z.abs d)%Z.
Proof.
  revert i. induction a as [|x a IH]; intros [|i]; simpl; try lia.
  specialize (IH i). lia.
Qed.

Lemma abs_sum_bumpZ (d : Z) (indices : list nat) (a : list Z) :
  (Zsum (map Z.abs (bumpZ d indices a))
   <= Zsum (map Z.abs a) + Z.of_nat (length indices) * Z.abs d)%Z.
Proof.
  revert a. induction indices as [|i l IH]; intro a.
  - simpl. lia.
  - change (bumpZ d (i :: l) a) with (bumpZ d l (add_atZ i d a)).
    specialize (IH (add_atZ i d a)).
    pose proof (abs_sum_add_atZ i d a).
    change (length (i :: l)) with (S (length l)). lia.
Qed.

Lemma abs_le_sum (a : list Z) :
  Forall (fun z => (Z.abs z <= Zsum (map Z.abs a))%Z) a.
Proof.
  induction a as [|x a IH]; constructor.
  - pose proof (Zsum_abs a). simpl. lia.
  - eapply Forall_impl; [|exact IH]. simpl. intros; lia.
Qed.

Lemma add_at_lift (i : nat) (d : Z) (zs : list Z) (B : Z) :
  Forall (fun z => (Z.abs z <= B)%Z) zs -> (B + Z.abs d < 2 ^ 53)%Z ->
  np64.add_at i (Fin (inject_Z d)) (lift zs) = lift (add_atZ i d zs).
Proof.
  intros H Hb. revert i.
  induction H as [|x a Hx Ha IH]; intros [|i]; simpl; try reflexivity.
  - f_equal. apply add_Z. lia.
  - f_equal. apply IH.
Qed.

Lemma bump_lift (d : Z) (indices : list nat) :
  forall (zs : list Z) (B : Z),
    Forall (fun z => (Z.abs z <= B)%Z) zs ->
    (B + Z.of_nat (length indices) * Z.abs d < 2 ^ 53)%Z ->
    fold_left (fun a i => np64.add_at i (Fin (inject_Z d)) a) indices
              (lift zs)
    = lift (bumpZ d indices zs).
Proof.
  induction indices as [|i l IH]; intros zs B H Hb; [reflexivity|].
  change (length (i :: l)) with (S (length l)) in Hb.
  cbn [fold_left].
  rewrite (add_at_lift i d zs B H) by lia.
  change (bumpZ d (i :: l) zs) with (bumpZ d l (add_atZ i d zs)).
  apply (IH _ (B + Z.abs d)%Z); [apply abs_add_atZ; exact H | lia].
Qed.

Lemma nth_add_atZ (i j : nat) (d : Z) (a : list Z) :
  (i < length a)%nat ->
  nth j (add_atZ i d a) 0%Z
  = (nth j a 0 + if Nat.eqb i j then d else 0)%Z.
Proof.
  revert i j. induction a as [|x a IH]; intros [|i] [|j] H; simpl in *;
    try lia.
  apply IH. lia.
Qed.

Lemma nth_bumpZ (d : Z) (indices : list nat) (a : list Z) (j : nat) :
  NoDup indices ->
  Forall (fun i => (i < length a)%nat) indices ->
  nth j (bumpZ d indices a) 0%Z
  = (nth j a 0 + if in_dec Nat.eq_dec j indices then d else 0)%Z.
Proof.
  revert a. induction indices as [|i l IH]; intros a Hnd Hin.
  - simpl. lia.
  - inversion Hnd as [|? ? Hni Hnd']; subst.
    inversion Hin as [|? ? Hi Hl]; subst.
    change (bumpZ d (i :: l) a) with (bumpZ d l (add_atZ i d a)).
    rewrite IH; [|assumption|rewrite length_add_atZ; assumption].
    rewrite nth_add_atZ by exact Hi.
    destruct (Nat.eqb_spec i j) as [->|Hne].
    + destruct (in_dec Nat.eq_dec j l) as [Hj|_]; [contradiction|].
      destruct (in_dec Nat.eq_dec j (j :: l)) as [_|Hj]; [lia|].
      exfalso. apply Hj. left. reflexivity.
    + destruct (in_dec Nat.eq_dec j l) as [Hj|Hj];
        destruct (in_dec Nat.eq_dec j (i :: l)) as [Hj'|Hj'];
        try lia; exfalso.
      * apply Hj'. right. assumption.
      * destruct Hj' as [E|Hj']; [congruence|contradiction].
Qed.

(** ** The scalar steps of the loop on integers *)

Lemma sub_Z (a b : Z) :
  (Z.abs (a - b) < 2 ^ 53)%Z ->
  f64.sub (Fin (inject_Z a)) (Fin (inject_Z b)) = Fin (inject_Z (a - b)).
Proof.
  intro H. unfold f64.sub. cbn [f64.opp].
  change (- inject_Z b) with (inject_Z (- b)).
  apply (add_Z a (- b)). exact H.
Qed.

Lemma round_Z (z : Z) : np64.round (Fin (inject_Z z)) = Fin (inject_Z z).
Proof. cbn [np64.round]. rewrite rint_inject_Z. reflexivity. Qed.

Lemma tolerance_range : 0 < f64.tolerance /\ f64.tolerance < 1.
Proof. split; vm_compute; reflexivity. Qed.

Lemma gap_test64 (d : Z) :
  f64.ltb (Fin f64.tolerance) (f64.abs (Fin (inject_Z d)))
  = negb (d =? 0)%Z.
Proof.
  cbn [f64.abs f64.ltb].
  change (Qabs (inject_Z d)) with (inject_Z (Z.abs d)).
  destruct tolerance_range as [T0 T1].
  destruct (Z.eqb_spec d 0) as [->|Hne]; cbn [negb].
  - apply Qlt_bool_false. change (inject_Z (Z.abs 0)) with 0. lra.
  - apply Qlt_bool_iff.
    assert (H : (1 <= Z.abs d)%Z) by lia.
    rewrite Zle_Qle in H. change (inject_Z 1) with 1 in H. lra.
Qed.

Lemma trunc_Z (z : Z) : f64.trunc (inject_Z z) = z.
Proof.
  unfold f64.trunc, Qceiling.
  change (- inject_Z z) with (inject_Z (- z)). rewrite !Qfloor_Z.
  destruct (Qlt_bool (inject_Z z) 0); lia.
Qed.

Lemma astype_int_Z (z : Z) :
  (- 2 ^ 63 <= z < 2 ^ 63)%Z -> np64.astype_int (Fin (inject_Z z)) = z.
Proof.
  intro H. unfold np64.astype_int. rewrite trunc_Z. cbv zeta.
  destruct (Z.leb_spec (- 2 ^ 63) z); [|lia].
  destruct (Z.ltb_spec z (2 ^ 63)); [reflexivity | lia].
Qed.

Lemma astype_int_lift (zs : list Z) :
  Forall (fun z => (- 2 ^ 63 <= z < 2 ^ 63)%Z) zs ->
  map np64.astype_int (lift zs) = zs.
Proof.
  induction 1 as [|z zs Hz H IH]; [reflexivity|].
  cbn [lift map]. fold (lift zs). rewrite IH, astype_int_Z by exact Hz.
  reflexivity.
Qed.

Lemma round_lift (v : list Q) :
  map np64.round (map Fin v) = lift (map np.rint v).
Proof. unfold lift. rewrite !map_map. reflexivity. Qed.

(** ** One pass of the correction *)

Lemma length_subtract64 (a b : list float) :
  length a = length b -> length (np64.subtract a b) = length a.
Proof.
  revert b. induction a as [|x a IH]; intros [|y b] H; simpl in *;
    try discriminate; [reflexivity|].
  rewrite IH by lia. reflexivity.
Qed.

Lemma picked_shape (argsort : list float -> list nat)
    (floats ints : list float) (T I : Z) :
  sorts argsort -> length ints = length floats ->
  NoDup (picked argsort floats ints T I) /\
  Forall (fun i => (i < length floats)%nat) (picked argsort floats ints T I) /\
  length (picked argsort floats ints T I)
  = pass_changes T I (length floats).
Proof.
  intros Hs Hlen. unfold picked.
  set (order := argsort (np64.subtract floats ints)).
  set (flip := (pass_increment T I =? 1)%Z).
  assert (Hperm : Permutation (if flip then rev order else order)
                              (seq 0 (length floats))).
  { rewrite <- (length_subtract64 floats ints) by congruence.
    destruct flip; [rewrite <- Permutation_rev|]; apply Hs. }
  repeat split.
  - apply NoDup_firstn.
    eapply Permutation_NoDup; [symmetry; exact Hperm | apply seq_NoDup].
  - apply Forall_firstn'. apply Forall_forall. intros i Hi.
    apply (Permutation_in _ Hperm) in Hi. apply in_seq in Hi. lia.
  - rewrite length_firstn, (Permutation_length Hperm), length_seq.
    unfold pass_changes. lia.
Qed.

Lemma picked_short (argsort : list float -> list nat)
    (floats ints : list float) (T I : Z) :
  (length (picked argsort floats ints T I)
   <= pass_changes T I (length floats))%nat.
Proof. unfold picked. rewrite length_firstn. lia. Qed.

Lemma ltb_Z (d : Z) : f64.ltb (Fin (inject_Z d)) (Fin 0) = (d <? 0)%Z.
Proof.
  cbn [f64.ltb].
  destruct (Z.ltb_spec d 0) as [L|G].
  - apply Qlt_bool_iff. rewrite Zlt_Qlt in L. exact L.
  - apply Qlt_bool_false. rewrite Zle_Qle in G. exact G.
Qed.

Lemma to_int_abs_Z (d : Z) :
  f64.to_int (f64.abs (Fin (inject_Z d))) = Ok (Z.abs d).
Proof.
  cbn [f64.abs f64.to_int].
  change (Qabs (inject_Z d)) with (inject_Z (Z.abs d)).
  rewrite trunc_Z. reflexivity.
Qed.

(** A pass from an integer-valued candidate is the pass on the integers,
    as long as no entry leaves the range in which float64 holds every
    integer. *)
Lemma correction_lift (argsort : list float -> list nat)
    (floats : list float) (zs : list Z) (T I B : Z) :
  (Z.abs (T - I) < 2 ^ 53)%Z ->
  Forall (fun z => (Z.abs z <= B)%Z) zs ->
  (B + Z.of_nat (pass_changes T I (length floats)) < 2 ^ 53)%Z ->
  util.correction argsort floats (lift zs)
    (Fin (inject_Z T)) (Fin (inject_Z I))
  = Ok (lift (bumpZ (pass_increment T I)
                    (picked argsort floats (lift zs) T I) zs)).
Proof.
  intros Hd Hb Hc. unfold util.correction.
  rewrite (sub_Z T I Hd), round_Z, ltb_Z, to_int_abs_Z. cbn [bind].
  fold (pass_increment T I). fold (pass_changes T I (length floats)).
  fold (picked argsort floats (lift zs) T I).
  f_equal. apply (bump_lift _ _ zs B Hb).
  pose proof (picked_short argsort floats (lift zs) T I).
  assert (Z.abs (pass_increment T I) = 1%Z)
    by (unfold pass_increment; destruct (T - I <? 0)%Z; reflexivity).
  lia.
Qed.

Lemma correction_loop_eq64 (argsort : list float -> list nat) (fuel : nat)
    (floats ints : list float) (orig_sum int_sum : float) :
  util.correction_loop argsort fuel floats ints orig_sum int_sum
  = if f64.ltb (Fin f64.tolerance) (f64.abs (f64.sub int_sum orig_sum)) then
      match fuel with
      | O => None
      | S fuel' =>
          match util.correction argsort floats ints orig_sum int_sum with
          | Raise e => Some (Raise e)
          | Ok ints' =>
              let int_sum' := np64.round (np64.sum ints') in
              match util.correction_loop argsort fuel' floats ints'
                      orig_sum int_sum' with
              | Some (Ok (r, k)) => Some (Ok (r, S k))
              | other => other
              end
          end
      end
    else Some (Ok (ints, O)).
Proof. destruct fuel; reflexivity. Qed.

Lemma loop_test_Z (T I : Z) :
  (Z.abs (I - T) < 2 ^ 53)%Z ->
  f64.ltb (Fin f64.tolerance)
          (f64.abs (f64.sub (Fin (inject_Z I)) (Fin (inject_Z T))))
  = negb (I =? T)%Z.
Proof.
  intro H. rewrite (sub_Z I T H), gap_test64.
  destruct (Z.eqb_spec (I - T) 0), (Z.eqb_spec I T); try reflexivity; lia.
Qed.

(** ** The inputs of the domain *)

Lemma half_pow : 2 ^ 52 * 2 ^ (-53) == 1 # 2.
Proof. rewrite <- pow2_add. reflexivity. Qed.

Lemma domain_half (v : list Q) :
  in_domain v ->
  inject_Z (Z.of_nat (length v)) * (sum_abs v + 1) * 2 ^ (-53) < 1 # 2.
Proof.
  intros [_ H]. rewrite <- half_pow.
  apply Qmult_lt_compat_r; [apply pow2_pos | exact H].
Qed.

Lemma sum_accurate (v : list Q) :
  in_domain v ->
  exists s : Q,
    np64.sum (map Fin v) = Fin s /\
    Qabs (s - np.sum v)
    <= inject_Z (Z.of_nat (length v)) * (sum_abs v + 1) * 2 ^ (-53).
Proof.
  intro Hd. pose proof (domain_half v Hd) as Hh. destruct Hd as [_ Hd].
  destruct (sum_sums_to (map Fin v)) as (k & Hs & Hk).
  rewrite length_map in Hk.
  pose proof (sum_abs_bounds v) as (HA & _).
  pose proof (pow2_pos (-53)) as H53.
  set (M := sum_abs v + 1) in *.
  assert (HM : 1 <= M) by (unfold M; lra).
  assert (Hkn : inject_Z (Z.of_nat k) <= inject_Z (Z.of_nat (length v)))
    by (rewrite <- Zle_Qle; lia).
  pose proof (inject_nat_nonneg k) as Hk0.
  assert (HMd : 0 <= M * 2 ^ (-53)) by (apply Qmult_le_0_compat; lra).
  assert (Hle : inject_Z (Z.of_nat k) * (M * 2 ^ (-53))
                <= inject_Z (Z.of_nat (length v)) * M * 2 ^ (-53)).
  { rewrite <- Qmult_assoc. apply Qmult_le_compat_r; assumption. }
  assert (Hbig : M <= 2 ^ 1000).
  { destruct v as [|x v'].
    - assert (H0 : 2 ^ 0 <= 2 ^ 1000) by (apply pow2_le; lia).
      change (2 ^ 0) with 1 in H0.
      unfold M, sum_abs. change (np.sum (map Qabs [])) with 0. lra.
    - assert (1 <= inject_Z (Z.of_nat (length (x :: v')))).
      { change 1 with (inject_Z 1). rewrite <- Zle_Qle. simpl length. lia. }
      assert (M <= inject_Z (Z.of_nat (length (x :: v'))) * M).
      { rewrite <- (Qmult_1_l M) at 1. apply Qmult_le_compat_r; lra. }
      assert (2 ^ 52 <= 2 ^ 1000) by (apply pow2_le; lia).
      lra. }
  destruct (sums_to_accurate M HM Hbig k _ _ Hs v eq_refl) as (s & Es & Ea).
  - assert (EM : M == sum_abs v + 1) by reflexivity. lra.
  - exists s. split; [exact Es|]. lra.
Qed.

Lemma rint_abs (x : Q) : inject_Z (Z.abs (np.rint x)) <= Qabs x + (1 # 2).
Proof.
  pose proof (rint_near x) as Hr.
  pose proof (Qle_Qabs x). pose proof (Qle_Qabs (- x)) as Hn.
  rewrite Qabs_opp in Hn.
  change (inject_Z (Z.abs (np.rint x))) with (Qabs (inject_Z (np.rint x))).
  apply Qabs_Qle_condition. lra.
Qed.

Lemma abs_rint_sum (v : list Q) :
  inject_Z (Zsum (map Z.abs (map np.rint v)))
  <= sum_abs v + inject_Z (Z.of_nat (length v)) * (1 # 2).
Proof.
  unfold sum_abs. induction v as [|x v IH].
  - change (0 <= 0 + 0 * (1 # 2)). lra.
  - change (Zsum (map Z.abs (map np.rint (x :: v))))
      with (Z.abs (np.rint x) + Zsum (map Z.abs (map np.rint v)))%Z.
    change (np.sum (map Qabs (x :: v))) with (Qabs x + np.sum (map Qabs v)).
    change (length (x :: v)) with (S (length v)).
    rewrite inject_Z_plus, inject_nat_S.
    pose proof (rint_abs x). lra.
Qed.

Lemma domain_ints (v : list Q) :
  in_domain v ->
  (Zsum (map Z.abs (map np.rint v)) + Z.of_nat (length v) < 2 ^ 53)%Z.
Proof.
  intros [_ Hd].
  pose proof (abs_rint_sum v) as Hs.
  pose proof (sum_abs_bounds v) as (HA & _).
  destruct v as [|x v']; [vm_compute; reflexivity|].
  set (v := x :: v') in *.
  assert (Hn : 1 <= inject_Z (Z.of_nat (length v))).
  { change 1 with (inject_Z 1). rewrite <- Zle_Qle. simpl length. lia. }
  assert (Hp : 0 <= (inject_Z (Z.of_nat (length v)) - 1) * sum_abs v)
    by (apply Qmult_le_0_compat; lra).
  rewrite Zlt_Qlt, inject_Z_plus, <- (pow2_Z 53) by lia.
  assert (E : 2 ^ 53 == 2 * 2 ^ 52).
  { change 2 with (2 ^ 1) at 2. rewrite <- pow2_add. reflexivity. }
  assert (P : 0 < 2 ^ 52) by apply pow2_pos.
  lra.
Qed.

Lemma gap_bound (v : list Q) (s : Q) :
  Qabs (s - np.sum v) < 1 # 2 ->
  (2 * Z.abs (np.rint s - Zsum (map np.rint v))
   <= Z.of_nat (length v) + 1)%Z.
Proof.
  intro Hs. apply Qabs_Qlt_condition in Hs.
  pose proof (sum_round_near v) as Hr. cbv zeta in Hr.
  rewrite sum_round_Zsum in Hr.
  pose proof (rint_near s) as Hn.
  set (T := np.rint s) in *. set (I := Zsum (map np.rint v)) in *.
  set (n := Z.of_nat (length v)) in *.
  assert (H1 : (2 * (T - I) < n + 2)%Z).
  { rewrite Zlt_Qlt. unfold Z.sub.
    rewrite inject_Z_mult, !inject_Z_plus, inject_Z_opp.
    change (inject_Z 2) with 2. lra. }
  assert (H2 : (2 * (I - T) < n + 2)%Z).
  { rewrite Zlt_Qlt. unfold Z.sub.
    rewrite inject_Z_mult, !inject_Z_plus, inject_Z_opp.
    change (inject_Z 2) with 2. lra. }
  lia.
Qed.

Lemma int64_of_small (zs : list Z) :
  (Zsum (map Z.abs zs) < 2 ^ 53)%Z ->
  Forall (fun z => (- 2 ^ 63 <= z < 2 ^ 63)%Z) zs.
Proof.
  intro H. eapply Forall_impl; [|apply abs_le_sum].
  simpl. intros z Hz. lia.
Qed.

(** What a run of [round_preserving_sum] returns on an input of the
    domain: at most one pass, which moves the picked entries by one. *)
Lemma round_preserving_sum_run64 (argsort : list float -> list nat)
    (fuel : nat) (v : list Q) :
  sorts argsort -> in_domain v ->
  exists s : Q,
    np64.sum (map Fin v) = Fin s /\
    Qabs (s - np.sum v)
    <= inject_Z (Z.of_nat (length v)) * (sum_abs v + 1) * 2 ^ (-53) /\
    let zs := map np.rint v in
    let T := np.rint s in
    let I := Zsum zs in
    let r := if (I =? T)%Z then zs
             else bumpZ (pass_increment T I)
                        (picked argsort (map Fin v) (lift zs) T I) zs in
    util.round_preserving_sum_passes argsort (S fuel) (map Fin v)
    = Some (Ok (r, if (I =? T)%Z then O else 1%nat)) /\
    Zsum r = T /\
    (Z.abs (T - I) <= Z.of_nat (length v))%Z.
Proof.
  intros Hsort Hdom.
  destruct (sum_accurate v Hdom) as (s & Es & Ea).
  pose proof (domain_half v Hdom) as Hh.
  pose proof (domain_ints v Hdom) as Hi.
  exists s. split; [exact Es|]. split; [exact Ea|].
  intros zs T I r.
  pose proof (gap_bound v s ltac:(lra)) as Hgap. fold T zs I in Hgap.
  fold zs in Hi.
  assert (Hlen : length zs = length v) by apply length_map.
  assert (Hn53 : (Z.of_nat (length v) < 2 ^ 53)%Z).
  { pose proof (Zsum_abs zs). lia. }
  assert (Hgap' : (Z.abs (T - I) <= Z.of_nat (length v))%Z).
  { destruct (length v) as [|[|n]]; lia. }
  unfold util.round_preserving_sum_passes.
  rewrite round_lift, Es. fold zs.
  rewrite (sum_lift zs) by lia. fold I.
  cbn [np64.round]. fold T. rewrite rint_inject_Z.
  rewrite correction_loop_eq64, (loop_test_Z T I) by lia.
  unfold r. destruct (Z.eqb_spec I T) as [E|Hne]; cbn [negb].
  - rewrite (astype_int_lift zs) by (apply int64_of_small; lia).
    split; [reflexivity|]. split; [exact E | exact Hgap'].
  - destruct (picked_shape argsort (map Fin v) (lift zs) T I Hsort)
      as (Hnd & Hin & Hl).
    { unfold lift, zs. rewrite !length_map. reflexivity. }
    rewrite length_map in Hin, Hl.
    assert (Hc : (Z.of_nat (pass_changes T I (length v))
                  * pass_increment T I = T - I)%Z).
    { unfold pass_changes, pass_increment.
      destruct (Z.ltb_spec (T - I) 0); lia. }
    assert (Hcn : (pass_changes T I (length v) <= length v)%nat)
      by (unfold pass_changes; lia).
    rewrite (correction_lift argsort (map Fin v) zs T I
               (Zsum (map Z.abs zs)))
      by (try apply abs_le_sum; rewrite ?length_map; lia).
    set (zs' := bumpZ (pass_increment T I)
                      (picked argsort (map Fin v) (lift zs) T I) zs).
    assert (Hs' : Zsum zs' = T).
    { unfold zs'. rewrite Zsum_bumpZ, Hl.
      - fold I. lia.
      - eapply Forall_impl; [|exact Hin]. simpl. intros; lia. }
    assert (Ha' : (Zsum (map Z.abs zs') < 2 ^ 53)%Z).
    { pose proof (abs_sum_bumpZ (pass_increment T I)
                    (picked argsort (map Fin v) (lift zs) T I) zs) as Hb.
      fold zs' in Hb. rewrite Hl in Hb.
      assert (Z.abs (pass_increment T I) = 1%Z)
        by (unfold pass_increment; destruct (T - I <? 0)%Z; reflexivity).
      lia. }
    cbv zeta. rewrite (sum_lift zs' Ha'), Hs', round_Z.
    rewrite correction_loop_eq64, (loop_test_Z T T), Z.eqb_refl
      by (rewrite Z.sub_diag; reflexivity).
    cbn [negb].
    rewrite (astype_int_lift zs') by (apply int64_of_small; exact Ha').
    split; [reflexivity|]. split; [reflexivity | exact Hgap'].
Qed.

(** ** Totals, passes and integer inputs *)

Lemma run_length (argsort : list float -> list nat) (v : list Q) (T I : Z) :
  length (if (I =? T)%Z then map np.rint v
          else bumpZ (pass_increment T I)
                 (picked argsort (map Fin v) (lift (map np.rint v)) T I)
                 (map np.rint v))
  = length v.
Proof.
  destruct (I =? T)%Z; rewrite ?length_bumpZ; apply length_map.
Qed.

Lemma round_preserving_sum_of_passes (argsort : list float -> list nat)
    (fuel : nat) (l : list float) (r : list Z) (k : nat) :
  util.round_preserving_sum_passes argsort fuel l = Some (Ok (r, k)) ->
  util.round_preserving_sum argsort fuel l = Some (Ok r).
Proof. intro H. unfold util.round_preserving_sum. rewrite H. reflexivity. Qed.

Lemma along_rows_run64 (argsort : list float -> list nat) (fuel : nat)
    (m : list (list Q)) :
  sorts argsort -> Forall in_domain m ->
  exists out : list (list Z),
    util.along_rows (util.round_preserving_sum argsort (S fuel))
      (map (map Fin) m) = Some (Ok out) /\
    Forall2 (fun row r =>
               length r = length row /\
               exists s : Q,
                 np64.sum (map Fin row) = Fin s /\ Zsum r = np.rint s)
            m out.
Proof.
  intros Hs. induction 1 as [|row m Hrow Hm (out & Hout & Hall)].
  - exists []. split; [reflexivity | constructor].
  - destruct (round_preserving_sum_run64 argsort fuel row Hs Hrow)
      as (s & Es & _ & Hrun). cbv zeta in Hrun.
    destruct Hrun as (Hrun & Hsum & _).
    eexists (_ :: out). split.
    + cbn [map util.along_rows].
      rewrite (round_preserving_sum_of_passes _ _ _ _ _ Hrun), Hout.
      reflexivity.
    + constructor; [|exact Hall]. split; [apply run_length|].
      exists s. split; assumption.
Qed.

(** C1, amended.  Let [v] hold float64 values with
    [len(v) * (|v[0]| + ... + |v[n-1]| + 1) < 2^52], and let [argsort] be
    any function that sorts.  [round_preserving_sum] returns integers, as
    many as the input has entries, whose sum is [np.sum(v)], the float64 sum
    of [v], rounded to the nearest integer, ties to even.  [np.sum(v)] is
    within [len(v) * (|v[0]| + ... + |v[n-1]| + 1) * 2^-53], less than one
    half, of the sum of [v]: the result sums to the rounded sum of [v]
    whenever [np.sum(v)] is the sum of [v], and is always less than 1 away
    from it.  [round_preserving_row_totals] does the same on every row of a
    matrix that has at least one row: one output row per input row, in the
    same order and of the same length, each summing to the rounded float64
    sum of its input row.  A matrix without rows raises ValueError. *)
Theorem round_preserving_sum_keeps_total
    (argsort : list float -> list nat) :
  sorts argsort ->
  (forall (fuel : nat) (v : list Q),
      in_domain v ->
      exists (s : Q) (r : list Z),
        np64.sum (map Fin v) = Fin s /\
        util.round_preserving_sum argsort (S fuel) (map Fin v)
        = Some (Ok r) /\
        length r = length v /\
        Zsum r = np.rint s /\
        (s == np.sum v -> Zsum r = np.rint (np.sum v)) /\
        Qabs (s - np.sum v)
        <= inject_Z (Z.of_nat (length v)) * (sum_abs v + 1) * 2 ^ (-53) /\
        Qabs (inject_Z (Zsum r) - np.sum v) < 1) /\
  (forall (fuel : nat) (row : list Q) (rest : list (list Q)),
      Forall in_domain (row :: rest) ->
      exists out : list (list Z),
        util.round_preserving_row_totals argsort (S fuel)
          (map (map Fin) (row :: rest)) = Some (Ok out) /\
        Forall2 (fun row r =>
                   length r = length row /\
                   exists s : Q,
                     np64.sum (map Fin row) = Fin s /\ Zsum r = np.rint s)
                (row :: rest) out) /\
  (forall fuel : nat,
      util.round_preserving_row_totals argsort fuel []
      = Some (Raise ValueError)).
Proof.
  intro Hs. split; [|split].
  - intros fuel v Hd.
    destruct (round_preserving_sum_run64 argsort fuel v Hs Hd)
      as (s & Es & Ea & Hrun). cbv zeta in Hrun.
    destruct Hrun as (Hrun & Hsum & _).
    pose proof (domain_half v Hd) as Hh.
    eexists s, _. split; [exact Es|].
    split; [exact (round_preserving_sum_of_passes _ _ _ _ _ Hrun)|].
    split; [apply run_length|]. split; [exact Hsum|].
    split; [intro E; rewrite Hsum; apply rint_proper, E|].
    split; [exact Ea|].
    rewrite Hsum. pose proof (rint_near s) as Hn.
    apply Qabs_Qle_condition in Ea.
    apply Qabs_Qlt_condition. lra.
  - intros fuel row rest Hd.
    destruct (along_rows_run64 argsort fuel (row :: rest) Hs Hd)
      as (out & Hout & Hall).
    exists out. split; [exact Hout | exact Hall].
  - reflexivity.
Qed.

Lemma self_gap (x : float) :
  f64.ltb (Fin f64.tolerance) (f64.abs (f64.sub x x)) = false.
Proof.
  destruct x as [q| | |]; try reflexivity.
  unfold f64.sub. cbn [f64.opp f64.add].
  rewrite (rnd_proper (q + - q) 0) by ring.
  vm_compute. reflexivity.
Qed.

Lemma round_lift_Z (zs : list Z) : map np64.round (lift zs) = lift zs.
Proof.
  unfold lift. rewrite map_map. apply map_ext. intro z. apply round_Z.
Qed.

(** C10, amended.  On an input whose entries are all integer-valued, the
    element-wise round reproduces the input, the candidate sum is the
    target, and the correction loop makes no pass, whatever the fuel and the
    sorting function.  The result is the input cast to int64: it is the
    input itself when every entry lies in [[-2^63, 2^63)]. *)
Theorem round_preserving_sum_fixes_integers
    (argsort : list float -> list nat) (fuel : nat) (zs : list Z) :
  map np64.round (lift zs) = lift zs /\
  util.round_preserving_sum_passes argsort fuel (lift zs)
  = Some (Ok (map (fun z => np64.astype_int (Fin (inject_Z z))) zs, O)) /\
  (Forall (fun z => (- 2 ^ 63 <= z < 2 ^ 63)%Z) zs ->
   util.round_preserving_sum_passes argsort fuel (lift zs)
   = Some (Ok (zs, O))).
Proof.
  assert (Hrun : util.round_preserving_sum_passes argsort fuel (lift zs)
                 = Some (Ok (map np64.astype_int (lift zs), O))).
  { unfold util.round_preserving_sum_passes.
    rewrite round_lift_Z, correction_loop_eq64, self_gap. reflexivity. }
  split; [apply round_lift_Z|]. split.
  - rewrite Hrun. unfold lift. rewrite map_map. reflexivity.
  - intro H. rewrite Hrun, astype_int_lift by exact H. reflexivity.
Qed.


(** ** Inputs on which the rounding of float64 shows *)





Lemma is_f64_intro (x : Q) (m e : Z) :
  (Z.abs m <? 2 ^ 53)%Z = true ->
  ((-1074 <=? e) && (e <=? 971))%Z = true ->
  Qeq_bool x (inject_Z m * 2 ^ e) = true ->
  is_f64 x.
Proof.
  intros Hm He Hx. exists m, e.
  apply Z.ltb_lt in Hm. apply andb_true_iff in He. destruct He as [H1 H2].
  apply Z.leb_le in H1. apply Z.leb_le in H2. apply Qeq_bool_iff in Hx.
  repeat split; assumption.
Qed.


(** C1, as stated, fails: the float64 sum of [3.0] and
    [0.49999999999999994] is 3.5, so the result sums to 4, while the sum of
    the two values, below 3.5, rounds to 3. *)
Lemma round_preserving_sum_rounds_float_sum :
  Forall is_f64 tie_input /\
  util.round_preserving_sum np64.argsort 2 (map Fin tie_input)
  = Some (Ok [3; 1]%Z) /\
  np.rint (np.sum tie_input) = 3%Z /\
  Zsum [3; 1]%Z <> np.rint (np.sum tie_input) /\
  (1 # 2) < Qabs (inject_Z (Zsum [3; 1]%Z) - np.sum tie_input).
Proof.
  split; [|split; [|split; [|split]]].
  - repeat constructor.
    + apply (is_f64_intro _ 3 0); vm_compute; reflexivity.
    + apply (is_f64_intro _ 9007199254740991 (-54)); vm_compute; reflexivity.
  - vm_compute. reflexivity.
  - vm_compute. reflexivity.
  - vm_compute. discriminate.
  - vm_compute. reflexivity.
Qed.

(** C10, as stated, fails: [1e19] is an integer-valued float64 outside the
    range of int64, and the cast does not return it. *)
Lemma round_preserving_sum_wraps_large_integers :
  is_f64 (inject_Z (10 ^ 19)) /\
  util.round_preserving_sum np64.argsort 1 (lift [10 ^ 19]%Z)
  = Some (Ok [- 2 ^ 63]%Z) /\
  (- 2 ^ 63)%Z <> (10 ^ 19)%Z.
Proof.
  split; [|split].
  - apply (is_f64_intro _ (5 ^ 19) 19); vm_compute; reflexivity.
  - vm_compute. reflexivity.
  - discriminate.
Qed.

(** ** round_preserving_sum stays next to its input *)

Lemma rint_small (x : Q) : Qabs x < 1 # 2 -> np.rint x = 0%Z.
Proof.
  intro H. apply Qabs_Qlt_condition in H.
  pose proof (rint_near x) as Hn.
  assert (H1 : (np.rint x < 1)%Z).
  { rewrite Zlt_Qlt. change (inject_Z 1) with 1. lra. }
  assert (H2 : (-1 < np.rint x)%Z).
  { rewrite Zlt_Qlt. change (inject_Z (-1)) with (- (1)). lra. }
  lia.
Qed.

(** The residual of a float64 value is a float64 value: the subtraction
    [floats - ints] of the first pass is exact. *)
Lemma residual_f64 (x : Q) : is_f64 x -> is_f64 (residual x).
Proof.
  intros (m & e & Hm & He & Hx). unfold residual.
  destruct (Z.leb_spec 0 e) as [Hpos|Hneg].
  - assert (Hx' : x == inject_Z (m * 2 ^ e)).
    { rewrite inject_Z_mult, <- pow2_Z by exact Hpos. exact Hx. }
    rewrite (rint_proper _ _ Hx'), rint_inject_Z.
    exists 0%Z, 0%Z. repeat split; try lia.
    change (inject_Z 0 * 2 ^ 0) with (0 * 1). lra.
  - destruct (Z.leb_spec (-53) e) as [Hmid|Hlow].
    + set (z := np.rint x).
      pose proof (rint_near x) as Hn. fold z in Hn.
      pose proof (pow2_pos e) as Pe. pose proof (pow2_pos (- e)) as Pn.
      assert (Hinv : 2 ^ (- e) * 2 ^ e == 1).
      { rewrite <- pow2_add. replace (- e + e)%Z with 0%Z by lia.
        reflexivity. }
      assert (Hr : x - inject_Z z == inject_Z (m - z * 2 ^ (- e)) * 2 ^ e).
      { unfold Z.sub. rewrite inject_Z_plus, inject_Z_opp, inject_Z_mult.
        rewrite <- pow2_Z by lia. rewrite Hx.
        setoid_replace ((inject_Z m + - (inject_Z z * 2 ^ (- e))) * 2 ^ e)
          with (inject_Z m * 2 ^ e - inject_Z z * (2 ^ (- e) * 2 ^ e))
          by ring.
        rewrite Hinv. ring. }
      exists (m - z * 2 ^ (- e))%Z, e.
      split; [|split; [lia | exact Hr]].
      set (m' := (m - z * 2 ^ (- e))%Z) in *.
      assert (Hb : - (1 # 2) <= inject_Z m' * 2 ^ e <= 1 # 2)
        by (rewrite <- Hr; lra).
      assert (Hhalf : 2 ^ (- e) == 2 * 2 ^ (- e - 1)).
      { change 2 with (2 ^ 1) at 2. rewrite <- pow2_add.
        replace (1 + (- e - 1))%Z with (- e)%Z by lia. reflexivity. }
      assert (Hm' : inject_Z m' == inject_Z m' * 2 ^ e * 2 ^ (- e)).
      { rewrite <- Qmult_assoc, (Qmult_comm (2 ^ e)), Hinv. ring. }
      destruct Hb as [Hb1 Hb2].
      assert (U : inject_Z m' * 2 ^ e * 2 ^ (- e) <= (1 # 2) * 2 ^ (- e))
        by (apply Qmult_le_compat_r; lra).
      assert (L : - (1 # 2) * 2 ^ (- e) <= inject_Z m' * 2 ^ e * 2 ^ (- e))
        by (apply Qmult_le_compat_r; lra).
      assert (Habs : (Z.abs m' <= 2 ^ (- e - 1))%Z).
      { rewrite Zle_Qle, <- pow2_Z by lia.
        change (inject_Z (Z.abs m')) with (Qabs (inject_Z m')).
        apply Qabs_Qle_condition. lra. }
      assert ((2 ^ (- e - 1) <= 2 ^ 52)%Z)
        by (apply Z.pow_le_mono_r; lia).
      lia.
    + pose proof (f64_bound x m e Hm Hx) as Hb.
      assert (Hle : 2 ^ (53 + e) <= 2 ^ (-1)) by (apply pow2_le; lia).
      change (2 ^ (-1)) with (1 # 2) in Hle.
      rewrite (rint_small x) by lra.
      exists m, e. repeat split; try lia; try assumption.
      rewrite Hx. change (inject_Z 0) with 0. ring.
Qed.

Lemma subtract_residuals (v : list Q) :
  Forall is_f64 v ->
  np64.subtract (map Fin v) (lift (map np.rint v))
  = map (fun x => Fin (Qred (residual x))) v.
Proof.
  induction 1 as [|x v Hx Hv IH]; [reflexivity|].
  cbn [map lift np64.subtract]. fold (lift (map np.rint v)).
  rewrite IH. f_equal.
  unfold f64.sub. cbn [f64.opp f64.add].
  apply (rnd_exact _ (residual_f64 x Hx)).
Qed.

Lemma sum_residuals (v : list Q) :
  np.sum (map residual v) == np.sum v - inject_Z (Zsum (map np.rint v)).
Proof.
  induction v as [|x v IH].
  - reflexivity.
  - change (np.sum (map residual (x :: v)))
      with (residual x + np.sum (map residual v)).
    change (np.sum (x :: v)) with (x + np.sum v).
    change (Zsum (map np.rint (x :: v)))
      with (np.rint x + Zsum (map np.rint v))%Z.
    rewrite inject_Z_plus, IH. unfold residual. ring.
Qed.

Lemma residual_bounds (x : Q) : - (1 # 2) <= residual x <= 1 # 2.
Proof. unfold residual. pose proof (rint_near x). lra. Qed.

(** Every index that the correction pass picks was rounded in the
    direction opposite to the correction. *)
Lemma picked_residuals (argsort : list float -> list nat) (v : list Q)
    (s : Q) (i : nat) :
  sorts argsort -> in_domain v ->
  Qabs (s - np.sum v) < 1 # 2 ->
  let T := np.rint s in
  let I := Zsum (map np.rint v) in
  In i (picked argsort (map Fin v) (lift (map np.rint v)) T I) ->
  (i < length v)%nat /\
  ((I < T)%Z -> 0 < residual (nth i v 0)) /\
  ((T < I)%Z -> residual (nth i v 0) < 0).
Proof.
  intros Hs [Hf _] Hacc T I Hsel.
  set (n := length v) in *.
  set (keys := np64.subtract (map Fin v) (lift (map np.rint v))) in *.
  set (order := argsort keys).
  set (kq := fun j : nat => residual (nth j v 0)).
  assert (Hkeys : keys = map (fun x => Fin (Qred (residual x))) v)
    by (apply subtract_residuals, Hf).
  assert (Hkl : length keys = n) by (rewrite Hkeys; apply length_map).
  destruct (Hs keys) as [Hperm Hasc]. fold order in Hperm, Hasc.
  rewrite Hkl in Hperm.
  assert (Hol : length order = n).
  { rewrite (Permutation_length Hperm). apply length_seq. }
  assert (Hrange : forall j, In j order -> (j < n)%nat).
  { intros j Hj. apply (Permutation_in _ Hperm) in Hj.
    apply in_seq in Hj. lia. }
  assert (Hle : forall a b, In a order -> In b order ->
            f64.leb (nth a keys NaN) (nth b keys NaN) = true ->
            kq a <= kq b).
  { intros a b Ha Hb H. rewrite Hkeys in H.
    rewrite !(nth_map_in (fun x => Fin (Qred (residual x))) v _ 0 NaN)
      in H by (apply Hrange; assumption).
    cbn [f64.leb] in H. apply Qle_bool_iff in H.
    rewrite !Qred_correct in H. exact H. }
  assert (Hkb : forall j, - (1 # 2) <= kq j <= 1 # 2)
    by (intro j; apply residual_bounds).
  assert (Hsum : np.sum (map kq order) == np.sum v - inject_Z I).
  { rewrite (sum_map_perm _ _ _ Hperm).
    unfold kq. rewrite <- (map_map (fun j => nth j v 0) residual).
    unfold n. rewrite map_nth_range. apply sum_residuals. }
  pose proof (gap_bound v s Hacc) as Hgap. fold T I n in Hgap.
  pose proof (rint_near s) as Hnear. fold T in Hnear.
  apply Qabs_Qlt_condition in Hacc.
  unfold picked in Hsel. rewrite length_map in Hsel.
  fold keys order n in Hsel.
  unfold pass_changes, pass_increment in Hsel.
  destruct (Z.ltb_spec (T - I) 0) as [Hneg|Hpos].
  - change ((-1 =? 1)%Z) with false in Hsel. cbn iota in Hsel.
    set (D := Z.to_nat (Z.min (Z.abs (T - I)) (Z.of_nat n))) in *.
    assert (HD : Z.of_nat D = (I - T)%Z)
      by (unfold D; destruct n as [|[|?]]; lia).
    assert (Hio : In i order).
    { rewrite <- (firstn_skipn D order). apply in_or_app. left. exact Hsel. }
    split; [apply Hrange, Hio|]. split; [intro; lia|]. intros _.
    destruct (Qlt_le_dec (kq i) 0) as [L|G]; [exact L|].
    exfalso.
    rewrite <- (firstn_skipn D order), map_app, sum_app in Hsum.
    assert (H1 : - ((inject_Z (Z.of_nat (length (firstn D order))) - 1)
                    * (1 # 2))
                 <= np.sum (map kq (firstn D order))).
    { apply (sum_map_ge_one_high _ (1 # 2) _ i); [lra | exact Hsel | exact G|].
      intros j _. apply Hkb. }
    assert (H2 : inject_Z (Z.of_nat (length (skipn D order))) * 0
                 <= np.sum (map kq (skipn D order))).
    { apply sum_map_ge. intros j Hj.
      assert (Hjo : In j order).
      { rewrite <- (firstn_skipn D order). apply in_or_app. right. exact Hj. }
      pose proof (sorted_split _ order D i j Hasc Hsel Hj) as Hij.
      apply (Hle i j Hio Hjo) in Hij. lra. }
    rewrite length_firstn, Hol in H1.
    replace (Nat.min D n) with D in H1 by lia.
    rewrite HD in H1. unfold Z.sub in H1.
    rewrite inject_Z_plus, inject_Z_opp in H1.
    assert (HQ : inject_Z T + 1 <= inject_Z I).
    { change 1 with (inject_Z 1). rewrite <- inject_Z_plus, <- Zle_Qle. lia. }
    lra.
  - change ((1 =? 1)%Z) with true in Hsel. cbn iota in Hsel.
    set (D := Z.to_nat (Z.min (Z.abs (T - I)) (Z.of_nat n))) in *.
    assert (HD : Z.of_nat D = (T - I)%Z)
      by (unfold D; destruct n as [|[|?]]; lia).
    rewrite firstn_rev, Hol in Hsel. apply in_rev in Hsel.
    assert (Hio : In i order).
    { rewrite <- (firstn_skipn (n - D) order). apply in_or_app. right.
      exact Hsel. }
    split; [apply Hrange, Hio|]. split; [|intro; lia]. intro Hlt.
    destruct (Qlt_le_dec 0 (kq i)) as [L|G]; [exact L|].
    exfalso.
    rewrite <- (firstn_skipn (n - D) order), map_app, sum_app in Hsum.
    assert (H1 : np.sum (map kq (skipn (n - D) order))
                 <= (inject_Z (Z.of_nat (length (skipn (n - D) order))) - 1)
                    * (1 # 2)).
    { apply (sum_map_le_one_low _ (1 # 2) _ i); [lra | exact Hsel | exact G|].
      intros j _. apply Hkb. }
    assert (H2 : np.sum (map kq (firstn (n - D) order))
                 <= inject_Z (Z.of_nat (length (firstn (n - D) order))) * 0).
    { apply sum_map_le. intros j Hj.
      assert (Hjo : In j order).
      { rewrite <- (firstn_skipn (n - D) order). apply in_or_app. left.
        exact Hj. }
      pose proof (sorted_split _ order (n - D) j i Hasc Hj Hsel) as Hij.
      apply (Hle j i Hjo Hio) in Hij. lra. }
    rewrite length_skipn, Hol in H1.
    replace (n - (n - D))%nat with D in H1 by lia.
    rewrite HD in H1. unfold Z.sub in H1.
    rewrite inject_Z_plus, inject_Z_opp in H1.
    assert (HQ : inject_Z I + 1 <= inject_Z T).
    { change 1 with (inject_Z 1). rewrite <- inject_Z_plus, <- Zle_Qle. lia. }
    lra.
Qed.

(** On float64 values [v] with
    [len(v) * (|v[0]| + ... + |v[n-1]| + 1) < 2^52], [round_preserving_sum]
    moves no entry by a whole unit: every integer it returns is less than 1
    away from the input it replaces, so it is the input rounded down or
    rounded up.  The corrections that restore the total only push an entry
    to the other neighbouring integer. *)
Theorem round_preserving_sum_adjacent (argsort : list float -> list nat)
    (fuel : nat) (v : list Q) :
  sorts argsort -> in_domain v ->
  exists r : list Z,
    util.round_preserving_sum argsort (S fuel) (map Fin v) = Some (Ok r) /\
    length r = length v /\
    forall i : nat, (i < length v)%nat ->
      Qabs (inject_Z (nth i r 0%Z) - nth i v 0) < 1.
Proof.
  intros Hs Hd.
  destruct (round_preserving_sum_run64 argsort fuel v Hs Hd)
    as (s & Es & Ea & Hrun). cbv zeta in Hrun.
  destruct Hrun as (Hrun & _ & _).
  pose proof (domain_half v Hd) as Hh.
  pose proof (picked_residuals argsort v s) as Hres. cbv zeta in Hres.
  set (T := np.rint s) in *. set (I := Zsum (map np.rint v)) in *.
  eexists. split; [exact (round_preserving_sum_of_passes _ _ _ _ _ Hrun)|].
  split; [apply run_length|].
  intros i Hi.
  pose proof (residual_bounds (nth i v 0)) as Hb. unfold residual in *.
  assert (Hz : nth i (map np.rint v) 0%Z = np.rint (nth i v 0))
    by (apply nth_map_in; exact Hi).
  destruct (Z.eqb_spec I T) as [E|Hne].
  - rewrite Hz. apply Qabs_Qlt_condition. lra.
  - destruct (picked_shape argsort (map Fin v) (lift (map np.rint v)) T I Hs)
      as (Hnd & Hin & _).
    { unfold lift. rewrite !length_map. reflexivity. }
    rewrite length_map in Hin.
    rewrite nth_bumpZ, Hz; [|exact Hnd|].
    2: { rewrite length_map. exact Hin. }
    destruct (in_dec Nat.eq_dec i _) as [Hsel|Hsel].
    + destruct (Hres i Hs Hd ltac:(lra) Hsel) as (_ & Hup & Hdown).
      rewrite inject_Z_plus. unfold pass_increment.
      destruct (Z.ltb_spec (T - I) 0) as [Hneg|Hpos].
      * specialize (Hdown ltac:(lia)).
        change (inject_Z (-1)) with (- (1)).
        apply Qabs_Qlt_condition. lra.
      * specialize (Hup ltac:(lia)).
        change (inject_Z 1) with 1.
        apply Qabs_Qlt_condition. lra.
    + rewrite Z.add_0_r. apply Qabs_Qlt_condition. lra.
Qed.

(** ** The sorting function that runs the model *)

Lemma leb_total (a b : float) : f64.leb a b = false -> f64.leb b a = true.
Proof.
  destruct a as [x| | |], b as [y| | |]; cbn [f64.leb]; try congruence;
    try reflexivity.
  intro H. apply Qle_bool_iff.
  destruct (Qlt_le_dec y x) as [L|G]; [lra|].
  apply Qle_bool_iff in G. congruence.
Qed.

Lemma leb_trans (a b c : float) :
  f64.leb a b = true -> f64.leb b c = true -> f64.leb a c = true.
Proof.
  destruct a as [x| | |], b as [y| | |], c as [z| | |]; cbn [f64.leb];
    try congruence; try reflexivity.
  intros H1 H2. apply Qle_bool_iff in H1, H2. apply Qle_bool_iff. lra.
Qed.

Lemma insert_key_perm64 (p : float * nat) (l : list (float * nat)) :
  Permutation (np64.insert_key p l) (p :: l).
Proof.
  induction l as [|p' l IH]; simpl.
  - reflexivity.
  - destruct (f64.leb (fst p) (fst p')).
    + reflexivity.
    + rewrite IH. apply perm_swap.
Qed.

Lemma sort_keys_perm64 (l : list (float * nat)) :
  Permutation (np64.sort_keys l) l.
Proof.
  induction l as [|p l IH]; simpl.
  - reflexivity.
  - rewrite insert_key_perm64. constructor. assumption.
Qed.

Lemma insert_key_In64 (p x : float * nat) (l : list (float * nat)) :
  In x (np64.insert_key p l) <-> x = p \/ In x l.
Proof.
  split; intro H.
  - apply (Permutation_in _ (insert_key_perm64 p l)) in H.
    destruct H as [E|H]; [left; symmetry; exact E | right; exact H].
  - apply (Permutation_in _ (Permutation_sym (insert_key_perm64 p l))).
    destruct H as [E|H]; [left; symmetry; exact E | right; exact H].
Qed.

Lemma insert_key_sorted64 (p : float * nat) (l : list (float * nat)) :
  StronglySorted (fun a b => f64.leb (fst a) (fst b) = true) l ->
  StronglySorted (fun a b => f64.leb (fst a) (fst b) = true)
                 (np64.insert_key p l).
Proof.
  induction 1 as [|q l Hl IH Hq]; cbn [np64.insert_key].
  - repeat constructor.
  - destruct (f64.leb (fst p) (fst q)) eqn:E.
    + constructor; [constructor; assumption|].
      constructor; [exact E|].
      eapply Forall_impl; [|exact Hq]. intros a Ha. cbn beta in Ha.
      exact (leb_trans _ _ _ E Ha).
    + apply leb_total in E.
      constructor; [exact IH|].
      apply Forall_forall. intros a Ha. apply insert_key_In64 in Ha.
      destruct Ha as [->|Ha]; [exact E|].
      rewrite Forall_forall in Hq. apply Hq, Ha.
Qed.

Lemma sort_keys_sorted64 (l : list (float * nat)) :
  StronglySorted (fun a b => f64.leb (fst a) (fst b) = true)
                 (np64.sort_keys l).
Proof.
  induction l as [|p l IH]; cbn [np64.sort_keys fold_right].
  - constructor.
  - apply insert_key_sorted64, IH.
Qed.

Lemma combine_seq_key64 (keys : list float) (s : nat) (k : float)
    (i : nat) :
  In (k, i) (combine keys (seq s (length keys))) ->
  nth (i - s) keys NaN = k.
Proof.
  revert s. induction keys as [|x keys IH]; intros s H; [contradiction|].
  cbn [length seq combine] in H. destruct H as [E|H].
  - injection E as <- <-. rewrite Nat.sub_diag. reflexivity.
  - pose proof (in_combine_r _ _ _ _ H) as Hi. apply in_seq in Hi.
    specialize (IH (S s) H).
    replace (i - s)%nat with (S (i - S s)) by lia. exact IH.
Qed.

(** The insertion sort is an [argsort]. *)
Lemma argsort_sorts : sorts np64.argsort.
Proof.
  intro keys. split.
  - unfold np64.argsort.
    rewrite sort_keys_perm64, map_snd_combine; [reflexivity|].
    rewrite length_seq. reflexivity.
  - unfold key_sorted, np64.argsort.
    pose proof (sort_keys_sorted64 (combine keys (seq 0 (length keys))))
      as Hs.
    assert (Hk : Forall (fun p => nth (snd p) keys NaN = fst p)
                   (np64.sort_keys (combine keys (seq 0 (length keys))))).
    { apply Forall_forall. intros [k i] Hin.
      apply (Permutation_in _ (sort_keys_perm64 _)) in Hin.
      apply combine_seq_key64 in Hin. rewrite Nat.sub_0_r in Hin.
      exact Hin. }
    induction Hs as [|p l Hl IH Hp]; cbn [map]; [constructor|].
    inversion Hk as [|? ? Hp0 Hk']; subst.
    constructor; [apply IH, Hk'|].
    rewrite Forall_forall in Hp, Hk'. apply Forall_forall.
    intros j Hj. apply in_map_iff in Hj. destruct Hj as (q & <- & Hq).
    rewrite Hp0, (Hk' q Hq). apply Hp, Hq.
Qed.

(** ** merge_probs on float64 *)

Lemma length_add_at64 (i : nat) (d : float) (a : list float) :
  length (np64.add_at i d a) = length a.
Proof.
  revert i. induction a as [|x a IH]; intros [|i]; simpl; auto.
Qed.

Lemma nth_add_at64_same (i : nat) (d : float) (a : list float) :
  (i < length a)%nat ->
  nth i (np64.add_at i d a) NaN = f64.add (nth i a NaN) d.
Proof.
  revert i. induction a as [|x a IH]; intros [|i] H; simpl in *; try lia.
  - reflexivity.
  - apply IH. lia.
Qed.

Lemma nth_add_at64_other (i j : nat) (d : float) (a : list float) :
  i <> j -> nth j (np64.add_at i d a) NaN = nth j a NaN.
Proof.
  revert i j. induction a as [|x a IH]; intros [|i] [|j] Hij; simpl;
    try reflexivity; try congruence.
  apply IH. congruence.
Qed.

Lemma length_row_merge64 (indices : list nat) (maps : list Z)
    (prow mrow : list float) :
  length (row_merge64 indices maps prow mrow) = length mrow.
Proof.
  revert mrow. induction indices as [|i rest IH]; intro mrow; simpl.
  - reflexivity.
  - destruct (0 <=? nth i maps (-1))%Z; rewrite IH;
      [apply length_add_at64 | reflexivity].
Qed.

Lemma add_column_map64 (j i : nat) (probs : list (list float))
    (f : list float -> list float) :
  token_classification_utils_f64.add_column j i (map f probs) probs
  = map (fun pr => np64.add_at j (nth i pr (Fin 0)) (f pr)) probs.
Proof.
  induction probs as [|pr probs IH]; simpl; [reflexivity|].
  rewrite IH. reflexivity.
Qed.

Lemma merge_loop_rows64 (indices : list nat) (maps : list Z)
    (probs : list (list float)) (f : list float -> list float) :
  Forall (fun i => (i < length maps)%nat) indices ->
  token_classification_utils_f64.merge_loop indices maps probs (map f probs)
  = Ok (map (fun pr => row_merge64 indices maps pr (f pr)) probs).
Proof.
  revert f. induction indices as [|i rest IH]; intros f Hin.
  - reflexivity.
  - inversion Hin as [|? ? Hi Hrest]; subst.
    cbn [token_classification_utils_f64.merge_loop row_merge64].
    rewrite (nth_error_nth' maps (-1)%Z Hi).
    destruct (0 <=? nth i maps (-1))%Z.
    + rewrite (add_column_map64 _ _ _ f).
      rewrite (IH (fun pr => np64.add_at _ (nth i pr (Fin 0)) (f pr)) Hrest).
      reflexivity.
    + apply IH, Hrest.
Qed.

Lemma picks_succ (maps : list Z) (j s k : nat) :
  picks maps j s (S k)
  = if (nth s maps (-1) =? Z.of_nat j)%Z
    then s :: picks maps j (S s) k else picks maps j (S s) k.
Proof. reflexivity. Qed.

(** Entry [j] of a merged row: the entries mapped to [j], added one after
    the other to what the row held. *)
Lemma nth_row_merge64 (maps : list Z) (prow : list float) (j k : nat) :
  forall (s : nat) (mrow : list float),
    (j < length mrow)%nat ->
    nth j (row_merge64 (seq s k) maps prow mrow) NaN
    = fold_left (fun acc i => f64.add acc (nth i prow (Fin 0)))
                (picks maps j s k) (nth j mrow NaN).
Proof.
  induction k as [|k IH]; intros s mrow Hj.
  - reflexivity.
  - rewrite picks_succ. cbn [seq row_merge64].
    destruct (Z.leb_spec 0 (nth s maps (-1)%Z)) as [Hpos|Hneg].
    + rewrite IH by (rewrite length_add_at64; exact Hj).
      destruct (Z.eqb_spec (nth s maps (-1)%Z) (Z.of_nat j)) as [E|N].
      * rewrite E, Nat2Z.id, nth_add_at64_same by exact Hj. reflexivity.
      * rewrite nth_add_at64_other by lia. reflexivity.
    + rewrite IH by exact Hj.
      destruct (Z.eqb_spec (nth s maps (-1)%Z) (Z.of_nat j)) as [E|N];
        [lia | reflexivity].
Qed.

Lemma nth_repeat_in {A : Type} (x d : A) (n j : nat) :
  (j < n)%nat -> nth j (repeat x n) d = x.
Proof.
  intro H. rewrite (nth_indep _ d x) by (rewrite repeat_length; exact H).
  apply nth_repeat.
Qed.

Lemma merge_probs_unfold64 (probs : ndarray float) (m : Z) (ms : list Z) :
  (shape1 probs <= length (m :: ms))%nat ->
  (-1 <= fold_left Z.max ms m)%Z ->
  let W := Z.to_nat (fold_left Z.max ms m + 1) in
  token_classification_utils_f64.merge_probs probs (m :: ms)
  = if existsb (Z.eqb (-1)) (m :: ms)
    then Ok (mk_ndarray W
               (token_classification_utils_f64.divide_rows
                  (merged_rows64 probs (m :: ms) W)))
    else Ok (mk_ndarray W (merged_rows64 probs (m :: ms) W)).
Proof.
  intros Hlen Hmx W.
  unfold token_classification_utils_f64.merge_probs, np_max. cbn [bind].
  destruct (Z.ltb_spec (fold_left Z.max ms m + 1) 0) as [L|_]; [lia|].
  fold W. rewrite (repeat_as_map (repeat (Fin 0) W) (rows probs)).
  rewrite merge_loop_rows64.
  - reflexivity.
  - apply Forall_forall. intros i Hi. apply in_seq in Hi. lia.
Qed.

Lemma merged_rows64_spec (probs : ndarray float) (maps : list Z) (W : nat) :
  length maps = shape1 probs ->
  Forall2 (fun prow mrow =>
             length mrow = W /\
             forall j, (j < W)%nat ->
                       nth j mrow NaN = merged_entry maps prow j)
          (rows probs) (merged_rows64 probs maps W).
Proof.
  intro Hlen. unfold merged_rows64. apply Forall2_map_self.
  intros prow _. split.
  - rewrite length_row_merge64. apply repeat_length.
  - intros j Hj.
    rewrite nth_row_merge64 by (rewrite repeat_length; exact Hj).
    rewrite nth_repeat_in by exact Hj. unfold merged_entry.
    rewrite Hlen. reflexivity.
Qed.

Lemma fold_left_add_map (g : nat -> float) (l : list nat) (acc : float) :
  fold_left (fun a i => f64.add a (g i)) l acc
  = fold_left f64.add (map g l) acc.
Proof.
  revert acc. induction l as [|i l IH]; intro acc; [reflexivity|].
  cbn [fold_left map]. apply IH.
Qed.

Lemma filter_sum (f : nat -> Q) (g : nat -> bool) (s k : nat) :
  np.sum (map f (filter g (seq s k)))
  == sumf (fun t => if g (s + t)%nat then f (s + t)%nat else 0) k.
Proof.
  induction k as [|k IH].
  - reflexivity.
  - rewrite seq_S, filter_app, map_app, sum_app, IH.
    cbn [sumf filter]. destruct (g (s + k)%nat).
    + change (np.sum (map f [(s + k)%nat])) with (f (s + k)%nat + 0). lra.
    + change (np.sum (map f [])) with 0. lra.
Qed.

Lemma count_as_sum {A : Type} (l : list A) :
  inject_Z (Z.of_nat (length l)) == np.sum (map (fun _ => 1) l).
Proof.
  induction l as [|x l IH]; [reflexivity|].
  change (length (x :: l)) with (S (length l)).
  change (np.sum (map (fun _ => 1) (x :: l)))
    with (1 + np.sum (map (fun _ : A => 1) l)).
  rewrite inject_nat_S, IH. lra.
Qed.

Lemma picks_mass (maps : list Z) (p : list Q) (j : nat) :
  np.sum (map (fun i => nth i p 0) (picks maps j 0 (length maps)))
  == class_mass maps p j.
Proof. unfold picks. rewrite filter_sum. reflexivity. Qed.

Lemma picks_abs (maps : list Z) (p : list Q) (j : nat) :
  length p = length maps ->
  sum_abs (map (fun i => nth i p 0) (picks maps j 0 (length maps)))
  <= sum_abs p.
Proof.
  intro Hlen. unfold sum_abs, picks. rewrite map_map, filter_sum.
  rewrite (sum_map_as_sumf Qabs 0 p), Hlen.
  apply sumf_le. intros i _. cbn [Nat.add].
  destruct (nth i maps (-1) =? Z.of_nat j)%Z; [lra | apply Qabs_nonneg].
Qed.

Lemma picks_count (maps : list Z) (j : nat) :
  inject_Z (Z.of_nat (length (picks maps j 0 (length maps))))
  == class_mass maps (repeat 1 (length maps)) j.
Proof.
  rewrite count_as_sum. unfold picks. rewrite filter_sum.
  unfold class_mass. apply sumf_ext. intros i Hi. cbn [Nat.add].
  unfold share. rewrite nth_repeat_in by exact Hi. reflexivity.
Qed.

Lemma class_mass_total (maps : list Z) (p : list Q) (W : nat) :
  length p = length maps ->
  Forall (fun m => (0 <= m < Z.of_nat W)%Z) maps ->
  sumf (class_mass maps p) W == np.sum p.
Proof.
  intros Hlen Hmaps.
  rewrite <- (merged_row_sum maps p (map (class_mass maps p) (seq 0 W)) W
                Hlen).
  - rewrite sum_map_seq. reflexivity.
  - rewrite length_map. apply length_seq.
  - exact Hmaps.
  - intros j Hj.
    rewrite (nth_map_in (class_mass maps p) (seq 0 W) j O 0)
      by (rewrite length_seq; exact Hj).
    rewrite seq_nth by exact Hj. reflexivity.
Qed.

Lemma sum_repeat_one (n : nat) :
  np.sum (repeat 1 n) == inject_Z (Z.of_nat n).
Proof.
  induction n as [|n IH]; [reflexivity|].
  change (np.sum (repeat 1 (S n))) with (1 + np.sum (repeat 1 n)).
  rewrite inject_nat_S, IH. lra.
Qed.

Lemma sumf_minus_abs (f g h : nat -> Q) (n : nat) :
  (forall i, (i < n)%nat -> Qabs (f i - g i) <= h i) ->
  Qabs (sumf f n - sumf g n) <= sumf h n.
Proof.
  induction n as [|n IH]; intro H.
  - apply Qabs_Qle_condition. simpl. lra.
  - specialize (IH (fun i Hi => H i (Nat.lt_lt_succ_r _ _ Hi))).
    specialize (H n (Nat.lt_succ_diag_r n)).
    apply Qabs_Qle_condition in IH, H. apply Qabs_Qle_condition.
    cbn [sumf]. lra.
Qed.

(** One merged entry: its distance to the exact sum of the entries mapped
    to it is at most one rounding for each of them. *)
Lemma merged_entry_accurate (maps : list Z) (p : list Q) (j : nat) :
  length p = length maps ->
  inject_Z (Z.of_nat (length p)) * (sum_abs p + 1) <= 2 ^ 53 ->
  exists q : Q,
    merged_entry maps (map Fin p) j = Fin q /\
    Qabs (q - class_mass maps p j)
    <= class_mass maps (repeat 1 (length maps)) j
       * ((sum_abs p + 1) * 2 ^ (-53)).
Proof.
  intros Hlen Hb. unfold merged_entry.
  set (pk := picks maps j 0 (length maps)).
  rewrite (fold_left_add_map (fun i => nth i (map Fin p) (Fin 0))).
  assert (Hsub : map (fun i => nth i (map Fin p) (Fin 0)) pk
                 = map Fin (map (fun i => nth i p 0) pk)).
  { rewrite map_map. apply map_ext. intro i. apply (map_nth Fin p 0 i). }
  rewrite Hsub.
  set (sub := map (fun i => nth i p 0) pk).
  pose proof (fold_left_sums (map Fin sub) 0 [] (Fin 0) sum_zero) as Hs.
  cbn [app Nat.add] in Hs. rewrite length_map in Hs.
  pose proof (sum_abs_bounds p) as (HA & _).
  pose proof (pow2_pos (-53)) as H53.
  set (M := sum_abs p + 1) in *.
  assert (HM : 1 <= M) by (unfold M; lra).
  assert (Hk : (length sub <= length p)%nat).
  { unfold sub, pk, picks. rewrite length_map.
    pose proof (filter_length_le
                  (fun i => (nth i maps (-1) =? Z.of_nat j)%Z)
                  (seq 0 (length maps))) as Hf.
    rewrite length_seq in Hf. lia. }
  assert (Hkq : inject_Z (Z.of_nat (length sub))
                <= inject_Z (Z.of_nat (length p)))
    by (rewrite <- Zle_Qle; lia).
  pose proof (inject_nat_nonneg (length sub)) as Hk0.
  assert (HMd : 0 <= M * 2 ^ (-53)) by (apply Qmult_le_0_compat; lra).
  assert (Hone : 2 ^ 53 * 2 ^ (-53) == 1)
    by (rewrite <- pow2_add; reflexivity).
  assert (Hle : inject_Z (Z.of_nat (length sub)) * (M * 2 ^ (-53)) <= 1).
  { apply Qle_trans
      with (inject_Z (Z.of_nat (length p)) * (M * 2 ^ (-53))).
    - apply Qmult_le_compat_r; assumption.
    - rewrite Qmult_assoc, <- Hone.
      apply Qmult_le_compat_r; [exact Hb | lra]. }
  assert (Hbig : M <= 2 ^ 1000).
  { destruct p as [|x p'].
    - assert (H0 : 2 ^ 0 <= 2 ^ 1000) by (apply pow2_le; lia).
      change (2 ^ 0) with 1 in H0.
      unfold M, sum_abs. change (np.sum (map Qabs [])) with 0. lra.
    - assert (1 <= inject_Z (Z.of_nat (length (x :: p')))).
      { change 1 with (inject_Z 1). rewrite <- Zle_Qle. simpl length. lia. }
      assert (M <= inject_Z (Z.of_nat (length (x :: p'))) * M).
      { rewrite <- (Qmult_1_l M) at 1. apply Qmult_le_compat_r; lra. }
      assert (2 ^ 53 <= 2 ^ 1000) by (apply pow2_le; lia).
      lra. }
  pose proof (picks_abs maps p j Hlen) as Habs. fold pk sub in Habs.
  destruct (sums_to_accurate M HM Hbig _ _ _ Hs sub eq_refl)
    as (q & Eq & Ea).
  { assert (EM : M == sum_abs p + 1) by reflexivity. lra. }
  exists q. split; [exact Eq|].
  rewrite <- (picks_mass maps p j), <- picks_count. fold pk sub.
  assert (Hls : length sub = length pk) by (unfold sub; apply length_map).
  rewrite Hls in Ea. exact Ea.
Qed.

(** A merged row and its input row: without dropped columns the two sums
    differ by at most one rounding for each input column. *)
Lemma row_sum_accurate (maps : list Z) (p : list Q) (mrow : list float)
    (W : nat) :
  length p = length maps ->
  Forall (fun m => (0 <= m < Z.of_nat W)%Z) maps ->
  inject_Z (Z.of_nat (length p)) * (sum_abs p + 1) <= 2 ^ 53 ->
  length mrow = W ->
  (forall j, (j < W)%nat -> nth j mrow NaN = merged_entry maps (map Fin p) j) ->
  exists q : list Q,
    mrow = map Fin q /\
    Qabs (np.sum q - np.sum p)
    <= inject_Z (Z.of_nat (length p)) * (sum_abs p + 1) * 2 ^ (-53).
Proof.
  intros Hlen Hmaps Hb Hm Hcol.
  exists (map value mrow).
  assert (Hfin : forall j, (j < W)%nat ->
            exists q, nth j mrow NaN = Fin q /\
              Qabs (q - class_mass maps p j)
              <= class_mass maps (repeat 1 (length maps)) j
                 * ((sum_abs p + 1) * 2 ^ (-53))).
  { intros j Hj. rewrite (Hcol j Hj).
    apply merged_entry_accurate; assumption. }
  split.
  - apply (nth_ext _ _ NaN (Fin 0)); [rewrite !length_map; reflexivity|].
    intros j Hj. rewrite Hm in Hj.
    destruct (Hfin j Hj) as (q & Eq & _).
    rewrite (map_nth Fin (map value mrow) 0 j).
    rewrite (nth_map_in value mrow j NaN 0) by (rewrite Hm; exact Hj).
    rewrite Eq. reflexivity.
  - rewrite (sum_map_as_sumf value NaN mrow), Hm.
    rewrite <- (class_mass_total maps p W Hlen Hmaps).
    eapply Qle_trans.
    + apply (sumf_minus_abs _ _
               (fun j => class_mass maps (repeat 1 (length maps)) j
                         * ((sum_abs p + 1) * 2 ^ (-53)))).
      intros j Hj. destruct (Hfin j Hj) as (q & Eq & Ea).
      rewrite Eq. exact Ea.
    + rewrite sumf_scale.
      rewrite (class_mass_total maps (repeat 1 (length maps)) W)
        by (try apply repeat_length; assumption).
      rewrite sum_repeat_one, Hlen. lra.
Qed.

Lemma divide_rows_entries (merged : list (list float)) :
  Forall2 (fun mrow orow =>
             Forall2 (fun m o => o = f64.div m (np64.sum mrow)) mrow orow)
          merged (token_classification_utils_f64.divide_rows merged).
Proof.
  unfold token_classification_utils_f64.divide_rows.
  apply Forall2_map_self. intros mrow _.
  apply Forall2_map_self. intros m _. reflexivity.
Qed.

(** C4, amended.  For an N-by-K_old float64 matrix and a class map of
    length K_old with entries in {-1, 0, 1, ...}, [merge_probs] returns a
    matrix with N rows and [max(maps) + 1] columns.  Before any
    renormalization, entry j of a row is the float64 sum of the input
    entries whose column is mapped to j, added to 0 one after the other in
    increasing order of column, so a column mapped to -1 adds nothing.  When
    -1 occurs in the map every entry is divided, in float64, by the float64
    sum of its row; when it does not, the rows are returned as they are, and
    the sum of each differs from the sum of its input row by at most
    [K_old * (|p[0]| + ... + 1) * 2^-53], for a finite input row [p] with
    [K_old * (|p[0]| + ... + 1) <= 2^53]. *)
Theorem merge_probs_merges (probs : ndarray float) (maps : list Z) :
  well_shaped probs ->
  length maps = shape1 probs ->
  maps <> [] ->
  Forall (fun m => (-1 <= m)%Z) maps ->
  exists (mx : Z) (merged : list (list float)),
    np_max maps = Ok mx /\ In mx maps /\
    Forall (fun m => (m <= mx)%Z) maps /\
    Forall2 (fun prow mrow =>
               length mrow = Z.to_nat (mx + 1) /\
               forall j, (j < Z.to_nat (mx + 1))%nat ->
                         nth j mrow NaN = merged_entry maps prow j)
            (rows probs) merged /\
    (In (-1)%Z maps ->
     exists out : list (list float),
       token_classification_utils_f64.merge_probs probs maps
       = Ok (mk_ndarray (Z.to_nat (mx + 1)) out) /\
       Forall2 (fun mrow orow =>
                  Forall2 (fun m o => o = f64.div m (np64.sum mrow))
                          mrow orow)
               merged out) /\
    (~ In (-1)%Z maps ->
     token_classification_utils_f64.merge_probs probs maps
     = Ok (mk_ndarray (Z.to_nat (mx + 1)) merged) /\
     Forall2 (fun prow mrow =>
                forall p : list Q,
                  prow = map Fin p ->
                  inject_Z (Z.of_nat (length p)) * (sum_abs p + 1)
                  <= 2 ^ 53 ->
                  exists q : list Q,
                    mrow = map Fin q /\
                    Qabs (np.sum q - np.sum p)
                    <= inject_Z (Z.of_nat (length p)) * (sum_abs p + 1)
                       * 2 ^ (-53))
             (rows probs) merged).
Proof.
  intros Hwf Hlen Hne Hvalid.
  destruct maps as [|m ms]; [congruence|].
  set (mx := fold_left Z.max ms m).
  set (W := Z.to_nat (mx + 1)).
  assert (Hmx : (-1 <= mx)%Z).
  { apply fold_max_lower. inversion Hvalid; assumption. }
  pose proof (merge_probs_unfold64 probs m ms) as Hrun.
  cbv zeta in Hrun. fold mx W in Hrun.
  specialize (Hrun ltac:(lia) Hmx).
  pose proof (merged_rows64_spec probs (m :: ms) W Hlen) as Hspec.
  exists mx, (merged_rows64 probs (m :: ms) W).
  split; [reflexivity|].
  split; [apply fold_max_In|].
  split; [apply fold_max_upper|].
  split; [exact Hspec|].
  split.
  - intro Hin. rewrite Hrun.
    rewrite (proj2 (minus_one_in (m :: ms)) Hin).
    eexists. split; [reflexivity | apply divide_rows_entries].
  - intro Hnin. rewrite Hrun.
    destruct (existsb (Z.eqb (-1)) (m :: ms)) eqn:E.
    { exfalso. apply Hnin, minus_one_in, E. }
    split; [reflexivity|].
    assert (Hmaps : Forall (fun x => (0 <= x < Z.of_nat W)%Z) (m :: ms)).
    { pose proof (fold_max_upper ms m) as Hup. fold mx in Hup.
      rewrite Forall_forall in Hvalid, Hup. apply Forall_forall.
      intros x Hx. specialize (Hvalid x Hx). specialize (Hup x Hx).
      assert (x <> (-1)%Z) by (intro; subst; contradiction).
      unfold W. lia. }
    unfold well_shaped in Hwf.
    revert Hspec Hwf. generalize (merged_rows64 probs (m :: ms) W).
    generalize (rows probs). intros rs ms'.
    induction 1 as [|prow mrow rs ms' [Hl Hcol] Hrest IH]; intro Hwf;
      constructor.
    + intros p Hp Hb. subst prow.
      inversion Hwf as [|? ? Hrow _]; subst.
      rewrite length_map in Hrow.
      apply (row_sum_accurate (m :: ms) p mrow W); try assumption.
      congruence.
    + apply IH. inversion Hwf; assumption.
Qed.

Lemma is_f64_tenths : Forall is_f64 tenths.
Proof.
  repeat constructor.
  - apply (is_f64_intro _ 3602879701896397 (-55)); vm_compute; reflexivity.
  - apply (is_f64_intro _ 3602879701896397 (-54)); vm_compute; reflexivity.
  - apply (is_f64_intro _ 5404319552844595 (-54)); vm_compute; reflexivity.
Qed.

(** C4, as stated, fails: the additions round.  Merging [0.1] and [0.2]
    into one column gives 0.30000000000000004, which is not the sum of the
    two entries; and with [0.1, 0.2, 0.3] merged by the map [1, 0, 0] the
    sum of the output row, as NumPy computes it, is 0.6, while that of the
    input row is 0.6000000000000001. *)
Lemma merge_probs_rounds_row_sums :
  Forall is_f64 tenths /\
  token_classification_utils_f64.merge_probs
    (mk_ndarray 2 [map Fin (firstn 2 tenths)]) [0; 0]%Z
  = Ok (mk_ndarray 1 [[Fin (1351079888211149 # 4503599627370496)]]) /\
  ~ (1351079888211149 # 4503599627370496) == np.sum (firstn 2 tenths) /\
  token_classification_utils_f64.merge_probs
    (mk_ndarray 3 [map Fin tenths]) [1; 0; 0]%Z
  = Ok (mk_ndarray 2 [[Fin (1 # 2); Fin (nth 0 tenths 0)]]) /\
  np64.sum [Fin (1 # 2); Fin (nth 0 tenths 0)]
  = Fin (5404319552844595 # 9007199254740992) /\
  np64.sum (map Fin tenths) = Fin (1351079888211149 # 2251799813685248).
Proof.
  split; [exact is_f64_tenths|].
  split; [vm_compute; reflexivity|].
  split; [vm_compute; discriminate|].
  split; [vm_compute; reflexivity|].
  split; vm_compute; reflexivity.
Qed.

Lemma merge_probs_merges_witness :
  exists merged out : list (list float),
    token_classification_utils_f64.merge_probs
      (mk_ndarray 3 [map Fin tenths]) [0; -1; 1]%Z
    = Ok (mk_ndarray 2 out) /\
    Forall2 (fun mrow orow =>
               Forall2 (fun m o => o = f64.div m (np64.sum mrow)) mrow orow)
            merged out.
Proof.
  destruct (merge_probs_merges (mk_ndarray 3 [map Fin tenths]) [0; -1; 1]%Z)
    as (mx & merged & Emx & _ & _ & _ & Hdiv & _).
  - repeat constructor.
  - reflexivity.
  - discriminate.
  - repeat constructor; lia.
  - injection Emx as <-.
    destruct (Hdiv ltac:(simpl; tauto)) as (out & Hout & Hall).
    exists merged, out. split; [exact Hout | exact Hall].
Defined.

(** ** The statements at a concrete row *)

Lemma example_row_domain : in_domain example_row.
Proof.
  split.
  - repeat constructor.
    + apply (is_f64_intro _ 3152519739159347 (-51)); vm_compute; reflexivity.
    + apply (is_f64_intro _ 3152519739159347 (-51)); vm_compute; reflexivity.
    + apply (is_f64_intro _ 3152519739159347 (-51)); vm_compute; reflexivity.
    + apply (is_f64_intro _ 8106479329266893 (-52)); vm_compute; reflexivity.
  - vm_compute. reflexivity.
Qed.

Lemma round_preserving_sum_keeps_total_witness :
  exists (s : Q) (r : list Z),
    np64.sum (map Fin example_row) = Fin s /\
    util.round_preserving_sum np64.argsort 1 (map Fin example_row)
    = Some (Ok r) /\
    length r = 4%nat /\
    Zsum r = np.rint s.
Proof.
  destruct (proj1 (round_preserving_sum_keeps_total np64.argsort
                     argsort_sorts) 0%nat example_row example_row_domain)
    as (s & r & Hs & Hr & Hl & Hz & _).
  exists s, r. repeat split; assumption.
Defined.


Lemma round_preserving_sum_fixes_integers_witness :
  util.round_preserving_sum_passes np64.argsort 0 (lift [2; -3; 0; 7]%Z)
  = Some (Ok ([2; -3; 0; 7]%Z, O)).
Proof.
  apply (proj2 (proj2 (round_preserving_sum_fixes_integers np64.argsort 0
                         [2; -3; 0; 7]%Z))).
  repeat constructor; lia.
Defined.

Lemma round_preserving_sum_adjacent_witness :
  exists r : list Z,
    util.round_preserving_sum np64.argsort 1 (map Fin example_row)
    = Some (Ok r) /\
    length r = length example_row /\
    forall i : nat, (i < length example_row)%nat ->
      Qabs (inject_Z (nth i r 0%Z) - nth i example_row 0) < 1.
Proof.
  exact (round_preserving_sum_adjacent np64.argsort 0 example_row
           argsort_sorts example_row_domain).
Defined.
